(** * The concurrent transformer of [datanalgo/concurrent]

    A shallow embedding of [NewTransformer], [Transform],
    [TransformWithError], [TransformChannels], [TransformChannelsWithError]
    and of the generic [process] function that wires the worker pools.

    Goroutines are modelled by interleaving: a state holds every channel
    and every goroutine's control point, and one event is one atomic
    action of one goroutine (a channel operation with the pure
    computation that precedes it).  The events are executable, so a
    schedule can be run on a concrete input. *)

From Stdlib Require Import ZArith Lia Ascii String.
From stdpp Require Import base tactics option list numbers strings relations pretty.

Open Scope Z_scope.
Open Scope nat_scope.

(** ** Go values

    The pipeline threads [any] through its channels and downcasts with
    [x.(T)].  A value therefore carries its dynamic type.  The type
    parameters [Input] and [Output] range over concrete types, as in all
    uses of the package, so an [any] built from an [Input] or an
    [Output] is never the nil interface. *)

Class GoValues := {
  value : Type;
  gotype : Type;
  goerror : Type;
  gotype_eq_dec :: EqDecision gotype;
  typeof : value → gotype;
  zero : gotype → value;
  typeof_zero : ∀ t, typeof (zero t) = t
}.

(** What a finished or failed step of one goroutine leaves behind: a
    run-time panic in any goroutine takes the whole program down. *)
Inductive outcome (A : Type) : Type :=
  | Next (a : A)
  | Panic.
Arguments Next {A} a.
Arguments Panic {A}.

(** ** Channels *)

Section Channels.
Context {Item : Type}.

Record chan := Chan {
  buf : list Item;          (* buffered elements, oldest first *)
  cap : nat;                (* capacity given to make *)
  closed : bool
}.

Definition make_chan (n : nat) : chan := Chan [] n false.

Definition chan_room (c : chan) : bool := bool_decide (length (buf c) < cap c).

Definition chan_push (x : Item) (c : chan) : chan :=
  Chan (buf c ++ [x]) (cap c) (closed c).

Definition chan_tail (c : chan) : chan :=
  Chan (tail (buf c)) (cap c) (closed c).

Definition chan_close (c : chan) : chan :=
  Chan (buf c) (cap c) true.

(** A receiver that finds the buffer empty and the channel open waits;
    it can then only be served directly by a sender. *)
Definition chan_waiting (c : chan) : bool :=
  bool_decide (buf c = []) && negb (closed c).
End Channels.
Arguments chan : clear implicits.

(** ** The worker pools built by [process] *)

Section Process.
Context {Item Action : Type}.

(** The body of the worker's loop for one received item: the type
    assertion and the call of the action.  [None] is the panic of a
    failed assertion. *)
Variable work : Action → Item → option Item.

(** [transformer.workers], a Go [int]. *)
Variable workers : Z.

(** Control point of one worker goroutine:
    [for x := range inputChan { y := ...; outputChan <- y }]. *)
Inductive wstate :=
  | WRecv                   (* at the head of the loop *)
  | WSend (y : Item)        (* at [outputChan <- y] *)
  | WDone.                  (* loop left, wg.Done() called *)

#[export] Instance wstate_inhabited : Inhabited wstate := populate WDone.

Record pool := Pool {
  act : Action;
  wks : list wstate
}.

(** [chans !! 0] is the channel handed to [process] as [items];
    [chans !! S k] is [channels[k]], the output of pool [k].
    [todo] holds the actions the loop of [process] has not reached. *)
Record pipeline := Pipeline {
  chans : list (chan Item);
  pools : list pool;
  todo : list Action
}.

Definition set_chan (k : nat) (c : chan Item) (p : pipeline) : pipeline :=
  Pipeline (<[k := c]> (chans p)) (pools p) (todo p).

Definition set_worker (k j : nat) (w : wstate) (p : pipeline) : pipeline :=
  Pipeline (chans p)
           (alter (λ pl, Pool (act pl) (<[j := w]> (wks pl))) k (pools p))
           (todo p).

Definition worker_at (k j : nat) (p : pipeline) : option wstate :=
  pl ← pools p !! k; wks pl !! j.

(** [len(items)] inside [process]: the number of elements buffered in
    the source channel at that moment. *)
Definition len_items (p : pipeline) : nat :=
  match chans p with
  | c :: _ => length (buf c)
  | [] => 0
  end.

(** One iteration of [for i, action := range actions]: the output
    channel is made, [workers] workers are started on it, and the
    goroutine that closes the channel after [wg.Wait()] is started. *)
Definition create (p : pipeline) : option pipeline :=
  match todo p with
  | [] => None
  | a :: rest =>
      Some (Pipeline (chans p ++ [make_chan (len_items p)])
                     (pools p ++ [Pool a (replicate (Z.to_nat workers) WRecv)])
                     rest)
  end.

(** The channel [process] returns is closed and drained. *)
Definition pipe_drained (p : pipeline) : Prop :=
  ∃ c, chans p !! length (pools p) = Some c ∧ closed c = true ∧ buf c = [].

(** A receiving goroutine that got [x]. *)
Definition took (a : Action) (x : Item) : outcome wstate :=
  match work a x with
  | Some y => Next (WSend y)
  | None => Panic
  end.

Inductive pevent :=
  | PRecv (k j : nat)       (* worker j of pool k: one turn of range *)
  | PSend (k j : nat)       (* worker j of pool k: buffered send *)
  | PHand (k i j : nat)     (* worker i of pool k sends straight to
                               worker j of pool k+1 *)
  | PClose (k : nat).       (* pool k: wg.Wait() returned, close *)

Definition all_done (pl : pool) : bool :=
  forallb (λ w, match w with WDone => true | _ => false end) (wks pl).

Definition pexec (e : pevent) (p : pipeline) : option (outcome pipeline) :=
  match e with
  | PRecv k j =>
      pl ← pools p !! k;
      w ← wks pl !! j;
      c ← chans p !! k;
      match w, buf c with
      | WRecv, x :: _ =>
          match took (act pl) x with
          | Next w' => Some (Next (set_worker k j w' (set_chan k (chan_tail c) p)))
          | Panic => Some Panic
          end
      | WRecv, [] =>
          if closed c then Some (Next (set_worker k j WDone p)) else None
      | _, _ => None
      end
  | PSend k j =>
      w ← worker_at k j p;
      c ← chans p !! S k;
      match w with
      | WSend y =>
          if closed c then Some Panic
          else if chan_room c
          then Some (Next (set_worker k j WRecv (set_chan (S k) (chan_push y c) p)))
          else None
      | _ => None
      end
  | PHand k i j =>
      w ← worker_at k i p;
      c ← chans p !! S k;
      pl' ← pools p !! S k;
      w' ← wks pl' !! j;
      match w, w' with
      | WSend y, WRecv =>
          if chan_waiting c then
            match took (act pl') y with
            | Next w'' => Some (Next (set_worker (S k) j w'' (set_worker k i WRecv p)))
            | Panic => Some Panic
            end
          else None
      | _, _ => None
      end
  | PClose k =>
      pl ← pools p !! k;
      c ← chans p !! S k;
      if all_done pl && negb (closed c)
      then Some (Next (set_chan (S k) (chan_close c) p))
      else None
  end.
(** *** Items in flight

    What the rest of the pipeline will make of an item: [run] applies
    the remaining workers' bodies in order. *)
Fixpoint run (l : list Action) (x : Item) : option Item :=
  match l with
  | [] => Some x
  | a :: l' => y ← work a x; run l' y
  end.

(** The whole [actions] slice: the actions of the pools already built,
    then those still to come. *)
Definition acts (p : pipeline) : list Action := (act <$> pools p) ++ todo p.

(** An item is in flight at an even position [2k] when it sits in the
    buffer of channel [k], and at an odd position [2k+1] when worker of
    pool [k] holds it for sending. *)
Definition sent (k : nat) (w : wstate) : option (nat * Item) :=
  match w with
  | WSend y => Some (S (2 * k), y)
  | _ => None
  end.

Fixpoint flight_chans (k : nat) (cs : list (chan Item)) : list (nat * Item) :=
  match cs with
  | [] => []
  | c :: cs' => (pair (2 * k) <$> buf c) ++ flight_chans (S k) cs'
  end.

Fixpoint flight_pools (k : nat) (pls : list pool) : list (nat * Item) :=
  match pls with
  | [] => []
  | pl :: pls' => omap (sent k) (wks pl) ++ flight_pools (S k) pls'
  end.

Definition flight (p : pipeline) : list (nat * Item) :=
  flight_chans 0 (chans p) ++ flight_pools 0 (pools p).

(** The item of position [e.1] still has to pass the pools from
    [(e.1 + 1) / 2] on. *)
Definition rest_of (l : list Action) (e : nat * Item) : option Item :=
  run (drop (Nat.div2 (S e.1)) l) e.2.

Definition residual (p : pipeline) : list (option Item) :=
  rest_of (acts p) <$> flight p.

(** *** A measure that every step of a worker or closer lowers *)
Definition weight (n : nat) (e : nat * Item) : nat := 2 * n + 3 - e.1.

(** The cases of [pexec], one per way an event can go. *)
Inductive pexec_spec (p : pipeline) : pevent → outcome pipeline → Prop :=
  | ps_recv k j pl c x b y :
      pools p !! k = Some pl → wks pl !! j = Some WRecv →
      chans p !! k = Some c → buf c = x :: b →
      work (act pl) x = Some y →
      pexec_spec p (PRecv k j)
        (Next (set_worker k j (WSend y) (set_chan k (chan_tail c) p)))
  | ps_recv_panic k j pl c x b :
      pools p !! k = Some pl → wks pl !! j = Some WRecv →
      chans p !! k = Some c → buf c = x :: b →
      work (act pl) x = None →
      pexec_spec p (PRecv k j) Panic
  | ps_recv_done k j pl c :
      pools p !! k = Some pl → wks pl !! j = Some WRecv →
      chans p !! k = Some c → buf c = [] → closed c = true →
      pexec_spec p (PRecv k j) (Next (set_worker k j WDone p))
  | ps_send k j pl c y :
      pools p !! k = Some pl → wks pl !! j = Some (WSend y) →
      chans p !! S k = Some c → closed c = false →
      length (buf c) < cap c →
      pexec_spec p (PSend k j)
        (Next (set_worker k j WRecv (set_chan (S k) (chan_push y c) p)))
  | ps_send_closed k j pl c y :
      pools p !! k = Some pl → wks pl !! j = Some (WSend y) →
      chans p !! S k = Some c → closed c = true →
      pexec_spec p (PSend k j) Panic
  | ps_hand k i j pl c pl' y y' :
      pools p !! k = Some pl → wks pl !! i = Some (WSend y) →
      chans p !! S k = Some c → buf c = [] → closed c = false →
      pools p !! S k = Some pl' → wks pl' !! j = Some WRecv →
      work (act pl') y = Some y' →
      pexec_spec p (PHand k i j)
        (Next (set_worker (S k) j (WSend y') (set_worker k i WRecv p)))
  | ps_hand_panic k i j pl c pl' y :
      pools p !! k = Some pl → wks pl !! i = Some (WSend y) →
      chans p !! S k = Some c → buf c = [] → closed c = false →
      pools p !! S k = Some pl' → wks pl' !! j = Some WRecv →
      work (act pl') y = None →
      pexec_spec p (PHand k i j) Panic
  | ps_close k pl c :
      pools p !! k = Some pl → all_done pl = true →
      chans p !! S k = Some c → closed c = false →
      pexec_spec p (PClose k) (Next (set_chan (S k) (chan_close c) p)).

(** An item moves down the pipeline. *)
Definition moves (l : list Action) (e e' : nat * Item) : Prop :=
  e.1 < e'.1 ∧ e.1 ≤ 2 * length l ∧ rest_of l e = rest_of l e'.

Definition bz (w : wstate) : nat := match w with WDone => 0 | _ => 1 end.
Definition oc (c : chan Item) : nat := if closed c then 0 else 1.
Definition busy (pl : pool) : nat := sum_list (bz <$> wks pl).
Definition open_chans (cs : list (chan Item)) : nat := sum_list (oc <$> cs).
Definition crowd (p : pipeline) : nat :=
  sum_list (busy <$> pools p) + open_chans (chans p).

Definition pmeasure (p : pipeline) : nat :=
  sum_list (weight (length (acts p)) <$> flight p)
  + crowd p
  + length (todo p) * (Z.to_nat workers + 2).

(** *** What holds of the pools at all times *)
Record pinv (p : pipeline) : Prop := {
  pinv_len : length (chans p) = S (length (pools p));
  pinv_wks : ∀ k pl, pools p !! k = Some pl → length (wks pl) = Z.to_nat workers;
  (* wg.Wait() returns only when every worker has left its loop *)
  pinv_closed : ∀ k pl c,
    pools p !! k = Some pl → chans p !! S k = Some c →
    closed c = true → all_done pl = true;
  (* a worker leaves its loop only on a closed and drained channel *)
  pinv_done : ∀ k pl c,
    pools p !! k = Some pl → chans p !! k = Some c →
    WDone ∈ wks pl → closed c = true ∧ buf c = []
}.
End Process.

Arguments pipeline : clear implicits.
Arguments pool : clear implicits.
Arguments wstate : clear implicits.
Arguments WRecv {Item}.
Arguments WDone {Item}.

(** ** Calls as transition systems

    A call of one of the API functions is a transition system: its
    states hold the goroutines the call has started, a run is a sequence
    of steps from [init], and the call has returned once [result] is
    defined. *)

Record call (R : Type) := Call {
  st : Type;
  init : st;
  step : st → st → Prop;
  result : st → option R;
  crashed : st → Prop
}.
Arguments st {R} c.
Arguments init {R} c.
Arguments step {R} c.
Arguments result {R} c.
Arguments crashed {R} c.

Definition reachable {R} (c : call R) (s : st c) : Prop := rtc (step c) (init c) s.

(** No run of the call panics. *)
Definition panic_free {R} (c : call R) : Prop :=
  ∀ s, reachable c s → ¬ crashed c s.

(** Every run of the call returns a result that satisfies [P]: no
    reachable state has panicked or returned anything else, a state that
    has not returned can take a step, and every step lowers a measure,
    so that no run is infinite. *)
Definition returns {R} (c : call R) (P : R → Prop) : Prop :=
  (∀ s, reachable c s →
        ¬ crashed c s ∧
        (∀ r, result c s = Some r → P r) ∧
        (result c s = None → ∃ s', step c s s')) ∧
  (∃ μ : st c → nat, ∀ s s', reachable c s → step c s s' → μ s' < μ s).

(** Every run of the call ends in a panic. *)
Definition panics {R} (c : call R) : Prop :=
  (∀ s, reachable c s →
        result c s = None ∧ (¬ crashed c s → ∃ s', step c s s')) ∧
  (∃ μ : st c → nat, ∀ s s', reachable c s → step c s s' → μ s' < μ s).

(** ** The bounded API: [Transform] and [TransformWithError]

    Both functions have the same shape: a feeder goroutine stamps the
    items with their index and sends them on [itemsCh], [process] builds
    the pools, and the calling goroutine ranges over the last channel.
    They differ in the item type, the worker and the body of the
    collecting loop, which are the parameters of this section. *)

Inductive coutcome (Acc Res : Type) : Type :=
  | CNext (a : Acc)           (* next turn of the loop *)
  | CReturn (r : Res)         (* return inside the loop *)
  | CPanic.
Arguments CNext {Acc Res} a.
Arguments CReturn {Acc Res} r.
Arguments CPanic {Acc Res}.

Section Bounded.
Context `{GoValues} {Item Action Acc Res : Type}.
Variable work : Action → Item → option Item.
Variable workers : Z.
Variable stamp : nat → value → Item.        (* what the feeder sends *)
Variable acc0 : nat → Acc.                  (* make([]Output, len(items)) *)
Variable collect : Item → Acc → coutcome Acc Res.
Variable finish : Acc → Res.                (* the return after the loop *)
Variable items : list value.

(** Control point of the calling goroutine. *)
Inductive mstate :=
  | MProcess                     (* inside process *)
  | MCollect (ch : nat) (a : Acc) (* ranging over channel ch *)
  | MDone (r : Res).

Record bstate := BState {
  fpos : nat;                    (* the feeder's loop index *)
  pipe : pipeline Item Action;
  main : mstate
}.

Inductive bevent :=
  | BFeed                        (* feeder: buffered send *)
  | BFeedHand (j : nat)          (* feeder: send straight to worker j of pool 0 *)
  | BFeedClose                   (* feeder: deferred close(itemsCh) *)
  | BCreate                      (* process: one turn of its loop *)
  | BProcessReturn               (* process: return channels[len(channels)-1] *)
  | BPipe (e : pevent)           (* a worker or a closer *)
  | BCollect                     (* collector: receive from the buffer *)
  | BCollectHand (i : nat)       (* collector: receive straight from worker i *)
  | BCollectEnd.                 (* collector: the channel is closed and drained *)

Definition collected (ch : nat) (e : Item) (a : Acc) (s : bstate)
  : outcome bstate :=
  match collect e a with
  | CNext a' => Next (BState (fpos s) (pipe s) (MCollect ch a'))
  | CReturn r => Next (BState (fpos s) (pipe s) (MDone r))
  | CPanic => Panic
  end.

Definition with_pipe (s : bstate) (p : pipeline Item Action) : bstate :=
  BState (fpos s) p (main s).

Definition bexec (e : bevent) (s : bstate) : option (outcome bstate) :=
  match e with
  | BFeed =>
      x ← items !! fpos s;
      c ← chans (pipe s) !! 0;
      if closed c then Some Panic
      else if chan_room c
      then Some (Next (BState (S (fpos s))
                              (set_chan 0 (chan_push (stamp (fpos s) x) c) (pipe s))
                              (main s)))
      else None
  | BFeedHand j =>
      x ← items !! fpos s;
      c ← chans (pipe s) !! 0;
      pl ← pools (pipe s) !! 0;
      w ← wks pl !! j;
      match w with
      | WRecv =>
          if chan_waiting c then
            match took work (act pl) (stamp (fpos s) x) with
            | Next w' => Some (Next (BState (S (fpos s))
                                            (set_worker 0 j w' (pipe s))
                                            (main s)))
            | Panic => Some Panic
            end
          else None
      | _ => None
      end
  | BFeedClose =>
      c ← chans (pipe s) !! 0;
      if bool_decide (length items ≤ fpos s) && negb (closed c)
      then Some (Next (with_pipe s (set_chan 0 (chan_close c) (pipe s))))
      else None
  | BCreate =>
      match main s with
      | MProcess => p ← create workers (pipe s); Some (Next (with_pipe s p))
      | _ => None
      end
  | BProcessReturn =>
      match main s, todo (pipe s) with
      | MProcess, [] =>
          match pools (pipe s) with
          | [] => Some Panic      (* index out of range [-1] *)
          | _ => Some (Next (BState (fpos s) (pipe s)
                                    (MCollect (length (pools (pipe s)))
                                              (acc0 (length items)))))
          end
      | _, _ => None
      end
  | BPipe e =>
      match pexec work e (pipe s) with
      | Some (Next p) => Some (Next (with_pipe s p))
      | Some Panic => Some Panic
      | None => None
      end
  | BCollect =>
      match main s with
      | MCollect ch a =>
          c ← chans (pipe s) !! ch;
          match buf c with
          | x :: _ => Some (collected ch x a (with_pipe s (set_chan ch (chan_tail c) (pipe s))))
          | [] => None
          end
      | _ => None
      end
  | BCollectHand i =>
      match main s with
      | MCollect (S k) a =>
          c ← chans (pipe s) !! S k;
          w ← worker_at k i (pipe s);
          match w with
          | WSend y =>
              if chan_waiting c
              then Some (collected (S k) y a (with_pipe s (set_worker k i WRecv (pipe s))))
              else None
          | _ => None
          end
      | _ => None
      end
  | BCollectEnd =>
      match main s with
      | MCollect ch a =>
          c ← chans (pipe s) !! ch;
          if bool_decide (buf c = []) && closed c
          then Some (Next (BState (fpos s) (pipe s) (MDone (finish a))))
          else None
      | _ => None
      end
  end.

(** The state right after [go func() { ... }()] has started the
    feeder: [itemsCh] is empty, with capacity [len(items)]. *)
Definition binit (actions : list Action) : bstate :=
  BState 0 (Pipeline [make_chan (length items)] [] actions) MProcess.

Definition bstep (c c' : outcome bstate) : Prop :=
  ∃ s e, c = Next s ∧ bexec e s = Some c'.

Definition bresult (c : outcome bstate) : option Res :=
  match c with
  | Next (BState _ _ (MDone r)) => Some r
  | _ => None
  end.

Definition bounded_call (actions : list Action) : call Res :=
  Call Res (outcome bstate) (Next (binit actions)) bstep bresult (λ c, c = Panic).

(** Running a schedule. *)
Fixpoint brun (es : list bevent) (c : outcome bstate) : option (outcome bstate) :=
  match es, c with
  | [], _ => Some c
  | e :: es', Next s => c' ← bexec e s; brun es' c'
  | _ :: _, Panic => None
  end.
(** The cases of [bexec]. *)
Inductive bexec_spec (s : bstate) : bevent → outcome bstate → Prop :=
  | bs_feed x c :
      items !! fpos s = Some x → chans (pipe s) !! 0 = Some c →
      closed c = false → length (buf c) < cap c →
      bexec_spec s BFeed
        (Next (BState (S (fpos s))
                      (set_chan 0 (chan_push (stamp (fpos s) x) c) (pipe s))
                      (main s)))
  | bs_feed_closed x c :
      items !! fpos s = Some x → chans (pipe s) !! 0 = Some c →
      closed c = true →
      bexec_spec s BFeed Panic
  | bs_feed_hand j x c pl y :
      items !! fpos s = Some x → chans (pipe s) !! 0 = Some c →
      buf c = [] → closed c = false →
      pools (pipe s) !! 0 = Some pl → wks pl !! j = Some WRecv →
      work (act pl) (stamp (fpos s) x) = Some y →
      bexec_spec s (BFeedHand j)
        (Next (BState (S (fpos s)) (set_worker 0 j (WSend y) (pipe s)) (main s)))
  | bs_feed_hand_panic j x c pl :
      items !! fpos s = Some x → chans (pipe s) !! 0 = Some c →
      buf c = [] → closed c = false →
      pools (pipe s) !! 0 = Some pl → wks pl !! j = Some WRecv →
      work (act pl) (stamp (fpos s) x) = None →
      bexec_spec s (BFeedHand j) Panic
  | bs_feed_close c :
      chans (pipe s) !! 0 = Some c → length items ≤ fpos s →
      closed c = false →
      bexec_spec s BFeedClose
        (Next (with_pipe s (set_chan 0 (chan_close c) (pipe s))))
  | bs_create p' :
      main s = MProcess → create workers (pipe s) = Some p' →
      bexec_spec s BCreate (Next (with_pipe s p'))
  | bs_return :
      main s = MProcess → todo (pipe s) = [] → pools (pipe s) ≠ [] →
      bexec_spec s BProcessReturn
        (Next (BState (fpos s) (pipe s)
                      (MCollect (length (pools (pipe s))) (acc0 (length items)))))
  | bs_return_panic :
      main s = MProcess → todo (pipe s) = [] → pools (pipe s) = [] →
      bexec_spec s BProcessReturn Panic
  | bs_pipe e p' :
      pexec work e (pipe s) = Some (Next p') →
      bexec_spec s (BPipe e) (Next (with_pipe s p'))
  | bs_pipe_panic e :
      pexec work e (pipe s) = Some Panic →
      bexec_spec s (BPipe e) Panic
  | bs_collect ch a c x b :
      main s = MCollect ch a → chans (pipe s) !! ch = Some c →
      buf c = x :: b →
      bexec_spec s BCollect
        (collected ch x a (with_pipe s (set_chan ch (chan_tail c) (pipe s))))
  | bs_collect_hand k a c i pl y :
      main s = MCollect (S k) a → chans (pipe s) !! S k = Some c →
      buf c = [] → closed c = false →
      pools (pipe s) !! k = Some pl → wks pl !! i = Some (WSend y) →
      bexec_spec s (BCollectHand i)
        (collected (S k) y a (with_pipe s (set_worker k i WRecv (pipe s))))
  | bs_collect_end ch a c :
      main s = MCollect ch a → chans (pipe s) !! ch = Some c →
      buf c = [] → closed c = true →
      bexec_spec s BCollectEnd
        (Next (BState (fpos s) (pipe s) (MDone (finish a)))).

(** *** What holds of a bounded call at all times *)

(** The collecting loop over the items [l], in the order received. *)
Fixpoint collect_all (l : list Item) (a : Acc) : coutcome Acc Res :=
  match l with
  | [] => CNext a
  | e :: l' =>
      match collect e a with
      | CNext a' => collect_all l' a'
      | o => o
      end
  end.

(** What the feeder sends, in order. *)
Definition stamped : list Item := imap stamp items.

(** The collector's control point against the items [seen] it has
    received so far. *)
Definition main_ok (actions : list Action) (seen : list Item)
  (p : pipeline Item Action) (m : mstate) : Prop :=
  match m with
  | MProcess => seen = []
  | MCollect ch a =>
      todo p = [] ∧ ch = length (pools p) ∧ 0 < ch ∧
      collect_all seen (acc0 (length items)) = CNext a
  | MDone r =>
      todo p = [] ∧ 0 < length (pools p) ∧
      (collect_all seen (acc0 (length items)) = CReturn r ∨
       ∃ a, collect_all seen (acc0 (length items)) = CNext a ∧
            r = finish a ∧
            (0 < Z.to_nat workers →
             run work actions <$> stamped ≡ₚ Some <$> seen))
  end.

(** Every item the feeder has sent is either still in flight or has
    been seen by the collector. *)
Record binv (actions : list Action) (seen : list Item) (s : bstate) : Prop := {
  bi_pinv : pinv workers (pipe s);
  bi_acts : acts (pipe s) = actions;
  bi_fpos : fpos s ≤ length items;
  bi_closed : ∀ c, chans (pipe s) !! 0 = Some c → closed c = true →
                   fpos s = length items;
  bi_flow : run work actions <$> take (fpos s) stamped
            ≡ₚ residual work (pipe s) ++ (Some <$> seen);
  bi_idle : Z.to_nat workers = 0 →
            seen = [] ∧ ∀ e, e ∈ flight (pipe s) → e.1 = 0;
  bi_main : main_ok actions seen (pipe s) (main s)
}.

(** An item is between two pools when a worker of a pool other than
    the last holds it for sending, or when it sits in the channel
    between two pools; [n] is the number of actions. *)
Definition between_pools (n : nat) (s : bstate) (x : Item) : Prop :=
  ∃ pos, (pos, x) ∈ flight (pipe s) ∧ 1 ≤ pos ≤ 2 * n - 2.

Definition main_weight (m : mstate) : nat :=
  match m with
  | MProcess => 2
  | MCollect _ _ => 1
  | MDone _ => 0
  end.

Definition bmeasure (c : outcome bstate) : nat :=
  match c with
  | Panic => 0
  | Next s =>
      1 + pmeasure workers (pipe s)
      + (length items - fpos s) * (2 * length (acts (pipe s)) + 4)
      + main_weight (main s)
  end.
End Bounded.


Arguments mstate : clear implicits.

Arguments bstate : clear implicits.
Arguments MProcess {Acc Res}.
Arguments MCollect {Acc Res} ch a.
Arguments MDone {Acc Res} r.

(** ** The streaming API: [TransformChannels] and
    [TransformChannelsWithError]

    The caller hands over a channel [items] on which it (or anyone
    else) still sends [prod] before closing it, and reads the returned
    channels until they are closed.  A feeder goroutine copies [items]
    to [itemsCh], [process] builds the pools, and a forwarding goroutine
    ranges over the last channel.  The item type, the worker, the body
    of the forwarding loop and the presence of the errors channel are
    the parameters of this section. *)

(** What the forwarding loop does with one received item. *)
Inductive foutcome `{GoValues} : Type :=
  | FValue (v : value)        (* transformedItems <- v *)
  | FError (e : goerror)      (* errors <- e; return *)
  | FPanic.

Section Streaming.
Context `{GoValues} {Item Action : Type}.
Variable work : Action → Item → option Item.
Variable workers : Z.
Variable wrap : value → Item.         (* what the feeder sends for an input *)
Variable forward : Item → foutcome.
Variable with_errors : bool.

(** Control point of the feeder:
    [defer close(itemsCh); for item := range items { itemsCh <- item }]. *)
Inductive fstate :=
  | FRecv
  | FSend (y : Item)
  | FDone.

(** Control point of the forwarder. *)
Inductive xstate :=
  | XNone                     (* not started yet *)
  | XRecv                     (* at the head of the loop *)
  | XSend (v : value)         (* at [transformedItems <- v] *)
  | XFail (e : goerror)       (* at [errors <- e] *)
  | XLeave                    (* at the deferred close(errors) *)
  | XLeaveOut                 (* at the deferred close(transformedItems) *)
  | XDone.

(** Control point of the calling goroutine. *)
Inductive cstate :=
  | CProcess                  (* inside process *)
  | CReturned.

Record sstate := SState {
  prod : list value;          (* what is still to be sent on items *)
  items_ch : chan value;      (* the caller's channel, items *)
  feeder : fstate;
  spipe : pipeline Item Action;
  caller : cstate;
  fwd : xstate;
  out_ch : chan value;        (* transformedItems *)
  err_ch : chan goerror;      (* errors; no event touches it when
                                 with_errors is false *)
  got : list value;           (* received from transformedItems *)
  gote : list goerror         (* received from errors *)
}.

Inductive sevent :=
  | SProduce                  (* caller side: buffered send on items *)
  | SProduceHand              (* caller side: send straight to the feeder *)
  | SProduceClose             (* caller side: close(items) *)
  | SFeedRecv                 (* feeder: one turn of range, or its end *)
  | SFeedSend                 (* feeder: buffered send on itemsCh *)
  | SFeedHand (j : nat)       (* feeder: send straight to worker j of pool 0 *)
  | SCreate                   (* process: one turn of its loop *)
  | SReturn                   (* process returns, the forwarder is started *)
  | SPipe (e : pevent)        (* a worker or a closer *)
  | SFwdRecv                  (* forwarder: one turn of range, or its end *)
  | SFwdHand (i : nat)        (* forwarder: receive straight from worker i *)
  | SFwdSend                  (* forwarder: buffered send on transformedItems *)
  | SFwdGive                  (* forwarder: send straight to the consumer *)
  | SFwdErr                   (* forwarder: errors <- err *)
  | SFwdCloseErr              (* forwarder: deferred close(errors) *)
  | SFwdCloseOut              (* forwarder: deferred close(transformedItems) *)
  | SConsume                  (* consumer: receive from transformedItems *)
  | SConsumeErr.              (* consumer: receive from errors *)

Definition set_prod (s : sstate) (l : list value) (c : chan value) (f : fstate)
  : sstate :=
  SState l c f (spipe s) (caller s) (fwd s) (out_ch s) (err_ch s) (got s) (gote s).

Definition set_feed (s : sstate) (f : fstate) (p : pipeline Item Action) : sstate :=
  SState (prod s) (items_ch s) f p (caller s) (fwd s) (out_ch s) (err_ch s)
         (got s) (gote s).

Definition set_fwd (s : sstate) (p : pipeline Item Action) (x : xstate) : sstate :=
  SState (prod s) (items_ch s) (feeder s) p (caller s) x (out_ch s) (err_ch s)
         (got s) (gote s).

Definition set_out (s : sstate) (x : xstate) (o : chan value) (e : chan goerror)
  (g : list value) (ge : list goerror) : sstate :=
  SState (prod s) (items_ch s) (feeder s) (spipe s) (caller s) x o e g ge.

(** The forwarder's control point after the loop. *)
Definition leave : xstate := if with_errors then XLeave else XLeaveOut.

(** The forwarder got [x]. *)
Definition forwarded (x : Item) : outcome xstate :=
  match forward x with
  | FValue v => Next (XSend v)
  | FError e => Next (XFail e)
  | FPanic => Panic
  end.

Definition sexec (e : sevent) (s : sstate) : option (outcome sstate) :=
  match e with
  | SProduce =>
      match prod s with
      | x :: rest =>
          if closed (items_ch s) then Some Panic
          else if chan_room (items_ch s)
          then Some (Next (set_prod s rest (chan_push x (items_ch s)) (feeder s)))
          else None
      | [] => None
      end
  | SProduceHand =>
      match prod s, feeder s with
      | x :: rest, FRecv =>
          if chan_waiting (items_ch s)
          then Some (Next (set_prod s rest (items_ch s) (FSend (wrap x))))
          else None
      | _, _ => None
      end
  | SProduceClose =>
      match prod s with
      | [] =>
          if closed (items_ch s) then None
          else Some (Next (set_prod s [] (chan_close (items_ch s)) (feeder s)))
      | _ => None
      end
  | SFeedRecv =>
      match feeder s, buf (items_ch s) with
      | FRecv, x :: _ =>
          Some (Next (set_prod s (prod s) (chan_tail (items_ch s)) (FSend (wrap x))))
      | FRecv, [] =>
          c ← chans (spipe s) !! 0;
          if closed (items_ch s)
          then Some (Next (set_feed s FDone (set_chan 0 (chan_close c) (spipe s))))
          else None
      | _, _ => None
      end
  | SFeedSend =>
      c ← chans (spipe s) !! 0;
      match feeder s with
      | FSend y =>
          if closed c then Some Panic
          else if chan_room c
          then Some (Next (set_feed s FRecv (set_chan 0 (chan_push y c) (spipe s))))
          else None
      | _ => None
      end
  | SFeedHand j =>
      c ← chans (spipe s) !! 0;
      pl ← pools (spipe s) !! 0;
      w ← wks pl !! j;
      match feeder s, w with
      | FSend y, WRecv =>
          if chan_waiting c then
            match took work (act pl) y with
            | Next w' => Some (Next (set_feed s FRecv (set_worker 0 j w' (spipe s))))
            | Panic => Some Panic
            end
          else None
      | _, _ => None
      end
  | SCreate =>
      match caller s with
      | CProcess => p ← create workers (spipe s); Some (Next (set_feed s (feeder s) p))
      | _ => None
      end
  | SReturn =>
      match caller s, todo (spipe s) with
      | CProcess, [] =>
          match pools (spipe s) with
          | [] => Some Panic        (* index out of range [-1] *)
          | _ =>
              Some (Next (SState (prod s) (items_ch s) (feeder s) (spipe s)
                                 CReturned XRecv
                                 (make_chan (length (buf (items_ch s))))
                                 (make_chan 1) (got s) (gote s)))
          end
      | _, _ => None
      end
  | SPipe e =>
      match pexec work e (spipe s) with
      | Some (Next p) => Some (Next (set_feed s (feeder s) p))
      | Some Panic => Some Panic
      | None => None
      end
  | SFwdRecv =>
      c ← chans (spipe s) !! length (pools (spipe s));
      match fwd s, buf c with
      | XRecv, x :: _ =>
          match forwarded x with
          | Next x' =>
              Some (Next (set_fwd s (set_chan (length (pools (spipe s)))
                                              (chan_tail c) (spipe s)) x'))
          | Panic => Some Panic
          end
      | XRecv, [] =>
          if closed c then Some (Next (set_fwd s (spipe s) leave)) else None
      | _, _ => None
      end
  | SFwdHand i =>
      c ← chans (spipe s) !! length (pools (spipe s));
      w ← worker_at (pred (length (pools (spipe s)))) i (spipe s);
      match fwd s, w with
      | XRecv, WSend y =>
          if chan_waiting c then
            match forwarded y with
            | Next x' =>
                Some (Next (set_fwd s (set_worker (pred (length (pools (spipe s))))
                                                  i WRecv (spipe s)) x'))
            | Panic => Some Panic
            end
          else None
      | _, _ => None
      end
  | SFwdSend =>
      match fwd s with
      | XSend v =>
          if closed (out_ch s) then Some Panic
          else if chan_room (out_ch s)
          then Some (Next (set_out s XRecv (chan_push v (out_ch s)) (err_ch s)
                                   (got s) (gote s)))
          else None
      | _ => None
      end
  | SFwdGive =>
      match fwd s with
      | XSend v =>
          if chan_waiting (out_ch s)
          then Some (Next (set_out s XRecv (out_ch s) (err_ch s)
                                   (got s ++ [v]) (gote s)))
          else None
      | _ => None
      end
  | SFwdErr =>
      match fwd s with
      | XFail e =>
          if closed (err_ch s) then Some Panic
          else if chan_room (err_ch s)
          then Some (Next (set_out s XLeave (out_ch s) (chan_push e (err_ch s))
                                   (got s) (gote s)))
          else None
      | _ => None
      end
  | SFwdCloseErr =>
      match fwd s with
      | XLeave =>
          Some (Next (set_out s XLeaveOut (out_ch s) (chan_close (err_ch s))
                              (got s) (gote s)))
      | _ => None
      end
  | SFwdCloseOut =>
      match fwd s with
      | XLeaveOut =>
          Some (Next (set_out s XDone (chan_close (out_ch s)) (err_ch s)
                              (got s) (gote s)))
      | _ => None
      end
  | SConsume =>
      match caller s, buf (out_ch s) with
      | CReturned, v :: _ =>
          Some (Next (set_out s (fwd s) (chan_tail (out_ch s)) (err_ch s)
                              (got s ++ [v]) (gote s)))
      | _, _ => None
      end
  | SConsumeErr =>
      match caller s, buf (err_ch s) with
      | CReturned, e :: _ =>
          Some (Next (set_out s (fwd s) (out_ch s) (chan_tail (err_ch s))
                              (got s) (gote s ++ [e])))
      | _, _ => None
      end
  end.

(** The state right after the feeder has been started: [itemsCh] has the
    capacity [len(items)] of that moment. *)
Definition sinit (actions : list Action) (items : chan value) (producer : list value)
  : sstate :=
  SState producer items FRecv
         (Pipeline [make_chan (length (buf items))] [] actions)
         CProcess XNone (make_chan 0) (make_chan 1) [] [].

Definition sstep (c c' : outcome sstate) : Prop :=
  ∃ s e, c = Next s ∧ sexec e s = Some c'.

Definition drained {A} (c : chan A) : bool := closed c && bool_decide (buf c = []).

(** What the consumer has received once it finds the returned channels
    closed and drained. *)
Definition sresult (c : outcome sstate) : option (list value * list goerror) :=
  match c with
  | Next s =>
      match caller s with
      | CReturned =>
          if drained (out_ch s) && (negb with_errors || drained (err_ch s))
          then Some (got s, gote s)
          else None
      | CProcess => None
      end
  | Panic => None
  end.

Definition streaming_call (actions : list Action) (items : chan value)
  (producer : list value) : call (list value * list goerror) :=
  Call _ (outcome sstate) (Next (sinit actions items producer)) sstep sresult
       (λ c, c = Panic).

Fixpoint srun (es : list sevent) (c : outcome sstate) : option (outcome sstate) :=
  match es, c with
  | [], _ => Some c
  | e :: es', Next s => c' ← sexec e s; srun es' c'
  | _ :: _, Panic => None
  end.
(** The cases of [sexec]. *)
Inductive sexec_spec (s : sstate) : sevent → outcome sstate → Prop :=
  | ss_produce x rest :
      prod s = x :: rest → closed (items_ch s) = false →
      length (buf (items_ch s)) < cap (items_ch s) →
      sexec_spec s SProduce
        (Next (set_prod s rest (chan_push x (items_ch s)) (feeder s)))
  | ss_produce_closed x rest :
      prod s = x :: rest → closed (items_ch s) = true →
      sexec_spec s SProduce Panic
  | ss_produce_hand x rest :
      prod s = x :: rest → feeder s = FRecv →
      buf (items_ch s) = [] → closed (items_ch s) = false →
      sexec_spec s SProduceHand
        (Next (set_prod s rest (items_ch s) (FSend (wrap x))))
  | ss_produce_close :
      prod s = [] → closed (items_ch s) = false →
      sexec_spec s SProduceClose
        (Next (set_prod s [] (chan_close (items_ch s)) (feeder s)))
  | ss_feed_recv x b :
      feeder s = FRecv → buf (items_ch s) = x :: b →
      sexec_spec s SFeedRecv
        (Next (set_prod s (prod s) (chan_tail (items_ch s)) (FSend (wrap x))))
  | ss_feed_end c :
      feeder s = FRecv → buf (items_ch s) = [] → closed (items_ch s) = true →
      chans (spipe s) !! 0 = Some c →
      sexec_spec s SFeedRecv
        (Next (set_feed s FDone (set_chan 0 (chan_close c) (spipe s))))
  | ss_feed_send c y :
      feeder s = FSend y → chans (spipe s) !! 0 = Some c →
      closed c = false → length (buf c) < cap c →
      sexec_spec s SFeedSend
        (Next (set_feed s FRecv (set_chan 0 (chan_push y c) (spipe s))))
  | ss_feed_send_closed c y :
      feeder s = FSend y → chans (spipe s) !! 0 = Some c → closed c = true →
      sexec_spec s SFeedSend Panic
  | ss_feed_hand j c pl y y' :
      feeder s = FSend y → chans (spipe s) !! 0 = Some c →
      buf c = [] → closed c = false →
      pools (spipe s) !! 0 = Some pl → wks pl !! j = Some WRecv →
      work (act pl) y = Some y' →
      sexec_spec s (SFeedHand j)
        (Next (set_feed s FRecv (set_worker 0 j (WSend y') (spipe s))))
  | ss_feed_hand_panic j c pl y :
      feeder s = FSend y → chans (spipe s) !! 0 = Some c →
      buf c = [] → closed c = false →
      pools (spipe s) !! 0 = Some pl → wks pl !! j = Some WRecv →
      work (act pl) y = None →
      sexec_spec s (SFeedHand j) Panic
  | ss_create p' :
      caller s = CProcess → create workers (spipe s) = Some p' →
      sexec_spec s SCreate (Next (set_feed s (feeder s) p'))
  | ss_return :
      caller s = CProcess → todo (spipe s) = [] → pools (spipe s) ≠ [] →
      sexec_spec s SReturn
        (Next (SState (prod s) (items_ch s) (feeder s) (spipe s)
                      CReturned XRecv
                      (make_chan (length (buf (items_ch s))))
                      (make_chan 1) (got s) (gote s)))
  | ss_return_panic :
      caller s = CProcess → todo (spipe s) = [] → pools (spipe s) = [] →
      sexec_spec s SReturn Panic
  | ss_pipe e p' :
      pexec work e (spipe s) = Some (Next p') →
      sexec_spec s (SPipe e) (Next (set_feed s (feeder s) p'))
  | ss_pipe_panic e :
      pexec work e (spipe s) = Some Panic →
      sexec_spec s (SPipe e) Panic
  | ss_fwd_recv c x b x' :
      fwd s = XRecv → chans (spipe s) !! length (pools (spipe s)) = Some c →
      buf c = x :: b → forwarded x = Next x' →
      sexec_spec s SFwdRecv
        (Next (set_fwd s (set_chan (length (pools (spipe s))) (chan_tail c) (spipe s)) x'))
  | ss_fwd_recv_panic c x b :
      fwd s = XRecv → chans (spipe s) !! length (pools (spipe s)) = Some c →
      buf c = x :: b → forwarded x = Panic →
      sexec_spec s SFwdRecv Panic
  | ss_fwd_end c :
      fwd s = XRecv → chans (spipe s) !! length (pools (spipe s)) = Some c →
      buf c = [] → closed c = true →
      sexec_spec s SFwdRecv (Next (set_fwd s (spipe s) leave))
  | ss_fwd_hand i c pl y x' :
      fwd s = XRecv → chans (spipe s) !! length (pools (spipe s)) = Some c →
      buf c = [] → closed c = false →
      pools (spipe s) !! pred (length (pools (spipe s))) = Some pl →
      wks pl !! i = Some (WSend y) → forwarded y = Next x' →
      sexec_spec s (SFwdHand i)
        (Next (set_fwd s (set_worker (pred (length (pools (spipe s)))) i WRecv (spipe s)) x'))
  | ss_fwd_hand_panic i c pl y :
      fwd s = XRecv → chans (spipe s) !! length (pools (spipe s)) = Some c →
      buf c = [] → closed c = false →
      pools (spipe s) !! pred (length (pools (spipe s))) = Some pl →
      wks pl !! i = Some (WSend y) → forwarded y = Panic →
      sexec_spec s (SFwdHand i) Panic
  | ss_fwd_send v :
      fwd s = XSend v → closed (out_ch s) = false →
      length (buf (out_ch s)) < cap (out_ch s) →
      sexec_spec s SFwdSend
        (Next (set_out s XRecv (chan_push v (out_ch s)) (err_ch s) (got s) (gote s)))
  | ss_fwd_send_closed v :
      fwd s = XSend v → closed (out_ch s) = true →
      sexec_spec s SFwdSend Panic
  | ss_fwd_give v :
      fwd s = XSend v → buf (out_ch s) = [] → closed (out_ch s) = false →
      sexec_spec s SFwdGive
        (Next (set_out s XRecv (out_ch s) (err_ch s) (got s ++ [v]) (gote s)))
  | ss_fwd_err e :
      fwd s = XFail e → closed (err_ch s) = false →
      length (buf (err_ch s)) < cap (err_ch s) →
      sexec_spec s SFwdErr
        (Next (set_out s XLeave (out_ch s) (chan_push e (err_ch s)) (got s) (gote s)))
  | ss_fwd_err_closed e :
      fwd s = XFail e → closed (err_ch s) = true →
      sexec_spec s SFwdErr Panic
  | ss_fwd_close_err :
      fwd s = XLeave →
      sexec_spec s SFwdCloseErr
        (Next (set_out s XLeaveOut (out_ch s) (chan_close (err_ch s)) (got s) (gote s)))
  | ss_fwd_close_out :
      fwd s = XLeaveOut →
      sexec_spec s SFwdCloseOut
        (Next (set_out s XDone (chan_close (out_ch s)) (err_ch s) (got s) (gote s)))
  | ss_consume v b :
      caller s = CReturned → buf (out_ch s) = v :: b →
      sexec_spec s SConsume
        (Next (set_out s (fwd s) (chan_tail (out_ch s)) (err_ch s) (got s ++ [v]) (gote s)))
  | ss_consume_err e b :
      caller s = CReturned → buf (err_ch s) = e :: b →
      sexec_spec s SConsumeErr
        (Next (set_out s (fwd s) (out_ch s) (chan_tail (err_ch s)) (got s) (gote s ++ [e]))).

(** *** What holds of a streaming call at all times *)

(** What the forwarder makes of what the pipeline leaves of an item. *)
Definition post (r : option Item) : foutcome :=
  match r with
  | Some y => forward y
  | None => FPanic
  end.

(** What becomes of an input value. *)
Definition fate (actions : list Action) (x : value) : foutcome :=
  post (run work actions (wrap x)).

Definition held_feed (f : fstate) : list Item :=
  match f with
  | FSend y => [y]
  | _ => []
  end.

Definition held_fwd (x : xstate) : list foutcome :=
  match x with
  | XSend v => [FValue v]
  | XFail e => [FError e]
  | _ => []
  end.

Definition past_loop (x : xstate) : bool :=
  match x with
  | XLeave | XLeaveOut | XDone => true
  | _ => false
  end.

(** The errors sent so far. *)
Definition errs (s : sstate) : list goerror := gote s ++ buf (err_ch s).

(** The values sent so far. *)
Definition vals (s : sstate) : list value := got s ++ buf (out_ch s).

Definition exit_drained (s : sstate) : Prop := pipe_drained (spipe s).

Record sinv (actions : list Action) (inputs : list value) (s : sstate) : Prop := {
  si_pinv : pinv workers (spipe s);
  si_acts : acts (spipe s) = actions;
  (* nobody sends on items after closing it *)
  si_env : closed (items_ch s) = true → prod s = [];
  (* itemsCh is closed by the feeder when it leaves its loop *)
  si_feed : ∀ c, chans (spipe s) !! 0 = Some c →
                 (closed c = true ↔ feeder s = FDone);
  si_feed_done : feeder s = FDone →
                 closed (items_ch s) = true ∧ buf (items_ch s) = [];
  (* every input is somewhere *)
  si_flow :
    fate actions <$> inputs
    ≡ₚ (fate actions <$> (buf (items_ch s) ++ prod s))
       ++ (post ∘ run work actions <$> held_feed (feeder s))
       ++ (post <$> residual work (spipe s))
       ++ held_fwd (fwd s)
       ++ (FValue <$> vals s)
       ++ (FError <$> errs s);
  si_caller :
    match caller s with
    | CProcess => fwd s = XNone ∧ vals s = []
    | CReturned =>
        todo (spipe s) = [] ∧ 0 < length (pools (spipe s)) ∧ fwd s ≠ XNone
    end;
  si_out : closed (out_ch s) = true ↔ fwd s = XDone;
  si_err_cap : cap (err_ch s) = 1;
  si_err : closed (err_ch s) = true ↔
           with_errors = true ∧ (fwd s = XLeaveOut ∨ fwd s = XDone);
  (* at most one error, and the forwarder stops after it *)
  si_errs : length (errs s) ≤ 1;
  si_errs_past : errs s ≠ [] → with_errors = true ∧ past_loop (fwd s) = true;
  si_fail : (∃ e, fwd s = XFail e) ∨ fwd s = XLeave → with_errors = true;
  si_past : past_loop (fwd s) = true → errs s ≠ [] ∨ exit_drained s
}.

Definition feeder_weight (f : fstate) : nat :=
  match f with
  | FDone => 0
  | _ => 1
  end.

Definition fwd_weight (x : xstate) : nat :=
  match x with
  | XLeave => 2
  | XLeaveOut => 1
  | XDone => 0
  | _ => 3
  end.

Definition caller_weight (c : cstate) : nat :=
  match c with
  | CProcess => 1
  | CReturned => 0
  end.

Definition smeasure (c : outcome sstate) : nat :=
  match c with
  | Panic => 0
  | Next s =>
      let n := length (acts (spipe s)) in
      1 + pmeasure workers (spipe s)
      + (2 * n + 6) * length (prod s)
      + (2 * n + 5) * length (buf (items_ch s))
      + (2 * n + 4) * length (held_feed (feeder s))
      + 2 * length (held_fwd (fwd s))
      + length (buf (out_ch s)) + length (buf (err_ch s))
      + (if closed (items_ch s) then 0 else 1)
      + feeder_weight (feeder s) + fwd_weight (fwd s) + caller_weight (caller s)
  end.
End Streaming.

Arguments fstate : clear implicits.
Arguments FRecv {Item}.
Arguments FDone {Item}.
Arguments sstate {_} Item Action.
Arguments xstate {_}.

(** ** The package [concurrent] *)

Section Concurrent.
Context `{GoValues}.

(** The type parameters of [Transformer[Input, Output]]. *)
Variable Input Output : gotype.

Record transformer := { workers : Z }.

(** [NewTransformer] stores the width and does nothing else. *)
Definition NewTransformer (workers : Z) : transformer :=
  {| workers := workers |}.

(** [func(Input) Output] and [func(Input) (Output, error)]; a nil
    [error] is [None]. *)
Definition TransformAction : Type := value → value.
Definition TransformActionWithError : Type := value → value * option goerror.

(** What static typing gives for an action. *)
Definition action_typed (f : TransformAction) : Prop :=
  ∀ v, typeof v = Input → typeof (f v) = Output.
Definition action_typed_err (f : TransformActionWithError) : Prop :=
  ∀ v, typeof v = Input → typeof (f v).1 = Output.

Record IndexedItem := mkIndexedItem {
  Index : nat;
  Item : value
}.

Record IndexedItemWithError := mkIndexedItemWithError {
  IndexWE : nat;
  ItemWE : value;
  ErrWE : option goerror
}.

Record ItemWithError := mkItemWithError {
  ItemE : value;
  Err : option goerror
}.

(** The type assertion [x.(T)] on a non-nil [any]. *)
Definition assert (T : gotype) (x : value) : option value :=
  if decide (typeof x = T) then Some x else None.

(** *** [Transform] *)

(** [output := action(indexedInput.Item.(Input))], then the item that is
    sent on [outputChan]. *)
Definition Transform_worker (action : TransformAction) (indexedInput : IndexedItem)
  : option IndexedItem :=
  x ← assert Input (Item indexedInput);
  Some {| Index := Index indexedInput; Item := action x |}.

(** [transformedItems[indexedItem.Index] = indexedItem.Item.(Output)] *)
Definition Transform_collect (indexedItem : IndexedItem) (transformedItems : list value)
  : coutcome (list value) (list value) :=
  match assert Output (Item indexedItem) with
  | Some v =>
      if decide (Index indexedItem < length transformedItems)
      then CNext (<[Index indexedItem := v]> transformedItems)
      else CPanic
  | None => CPanic
  end.

Definition Transform (t : transformer) (items : list value)
  (actions : list TransformAction) : call (list value) :=
  bounded_call Transform_worker (workers t) mkIndexedItem
    (λ n, replicate n (zero Output)) Transform_collect id items actions.

(** The composition of the actions, first action first. *)
Definition apply_all (actions : list TransformAction) (x : value) : value :=
  foldl (λ v f, f v) x actions.

(** *** [TransformWithError] *)

(** [output, err := action(indexedInput.Item.(Input))]; the item sent
    carries [err], whatever [indexedInput.Err] was. *)
Definition TransformWithError_worker (action : TransformActionWithError)
  (indexedInput : IndexedItemWithError) : option IndexedItemWithError :=
  x ← assert Input (ItemWE indexedInput);
  Some {| IndexWE := IndexWE indexedInput;
          ItemWE := (action x).1;
          ErrWE := (action x).2 |}.

(** The result pair [([]Output, error)]; [None] is nil. *)
Definition result_with_error : Type := option (list value) * option goerror.

Definition TransformWithError_collect (indexedItem : IndexedItemWithError)
  (transformedItems : list value) : coutcome (list value) result_with_error :=
  match ErrWE indexedItem with
  | Some err => CReturn (None, Some err)
  | None =>
      match assert Output (ItemWE indexedItem) with
      | Some v =>
          if decide (IndexWE indexedItem < length transformedItems)
          then CNext (<[IndexWE indexedItem := v]> transformedItems)
          else CPanic
      | None => CPanic
      end
  end.

Definition TransformWithError (t : transformer) (items : list value)
  (actions : list TransformActionWithError) : call result_with_error :=
  bounded_call TransformWithError_worker (workers t)
    (λ i item, mkIndexedItemWithError i item None)
    (λ n, replicate n (zero Output)) TransformWithError_collect
    (λ transformedItems, (Some transformedItems, None)) items actions.

(** *** [TransformChannels] *)

(** [output := action(indexedInput.(Input))], sent as it is. *)
Definition TransformChannels_worker (action : TransformAction) (input : value)
  : option value :=
  x ← assert Input input; Some (action x).

(** [transformedItems <- item.(Output)] *)
Definition TransformChannels_forward (item : value) : foutcome :=
  match assert Output item with
  | Some v => FValue v
  | None => FPanic
  end.

(** The caller's channel [items] with what is still to be sent on it,
    and the values received from the returned channel. *)
Definition TransformChannels (t : transformer) (items : chan value)
  (producer : list value) (actions : list TransformAction)
  : call (list value * list goerror) :=
  streaming_call TransformChannels_worker (workers t) id
    TransformChannels_forward false actions items producer.

(** *** [TransformChannelsWithError] *)

(** [output, err := action(indexedInput.Item.(Input))]; the item sent
    carries [err], whatever [indexedInput.Err] was. *)
Definition TransformChannelsWithError_worker (action : TransformActionWithError)
  (indexedInput : ItemWithError) : option ItemWithError :=
  x ← assert Input (ItemE indexedInput);
  Some {| ItemE := (action x).1; Err := (action x).2 |}.

(** [if item.Err != nil { errors <- item.Err; return }] and
    [transformedItems <- item.Item.(Output)] *)
Definition TransformChannelsWithError_forward (item : ItemWithError) : foutcome :=
  match Err item with
  | Some err => FError err
  | None =>
      match assert Output (ItemE item) with
      | Some v => FValue v
      | None => FPanic
      end
  end.

Definition TransformChannelsWithError (t : transformer) (items : chan value)
  (producer : list value) (actions : list TransformActionWithError)
  : call (list value * list goerror) :=
  streaming_call TransformChannelsWithError_worker (workers t)
    (λ item, mkItemWithError item None)
    TransformChannelsWithError_forward true actions items producer.

(** What the stages make of one item: every stage calls its action on
    the value it received and replaces the error by the action's. *)
Definition apply_all_err (actions : list TransformActionWithError)
  (r : value * option goerror) : value * option goerror :=
  foldl (λ r f, f r.1) r actions.

(** The pair a chain of stages leaves for the item [x]. *)
Definition final (actions : list TransformActionWithError) (x : value)
  : value * option goerror :=
  apply_all_err actions (x, None).

(** What the forwarding loop of [TransformChannelsWithError] makes of
    the pair the stages leave for [x]. *)
Definition forwarded_as (actions : list TransformActionWithError) (x : value)
  : foutcome :=
  match (final actions x).2 with
  | Some err => FError err
  | None => FValue (final actions x).1
  end.
End Concurrent.

(** ** The values of the test suite: strings and ints *)

Inductive gval :=
  | VStr (s : string)
  | VInt (n : Z).

Inductive gty := TStr | TInt.

#[export] Instance gty_eq_dec : EqDecision gty.
Proof. solve_decision. Defined.

Definition gval_typeof (v : gval) : gty :=
  match v with
  | VStr _ => TStr
  | VInt _ => TInt
  end.

Definition gval_zero (t : gty) : gval :=
  match t with
  | TStr => VStr ""
  | TInt => VInt 0
  end.

#[export] Instance test_values : GoValues := {|
  value := gval;
  gotype := gty;
  goerror := string;
  typeof := gval_typeof;
  zero := gval_zero;
  typeof_zero := λ t, match t with TStr => eq_refl | TInt => eq_refl end
|}.

Definition upper_ascii (c : ascii) : ascii :=
  let n := nat_of_ascii c in
  if (97 <=? n) && (n <=? 122) then ascii_of_nat (n - 32) else c.

Definition lower_ascii (c : ascii) : ascii :=
  let n := nat_of_ascii c in
  if (65 <=? n) && (n <=? 90) then ascii_of_nat (n + 32) else c.

Fixpoint map_string (f : ascii → ascii) (s : string) : string :=
  match s with
  | EmptyString => EmptyString
  | String c s' => String (f c) (map_string f s')
  end.

(** [strings.ToUpper] and [strings.ToLower] as actions on [any]. *)
Definition ToUpper (v : gval) : gval :=
  match v with
  | VStr s => VStr (map_string upper_ascii s)
  | _ => v
  end.

Definition ToLower (v : gval) : gval :=
  match v with
  | VStr s => VStr (map_string lower_ascii s)
  | _ => v
  end.

(** The helpers of the test file. *)
Definition upperCase (item : gval) : gval * option string := (ToUpper item, None).
Definition lowerCase (item : gval) : gval * option string := (ToLower item, None).
Definition errorFunc (item : gval) : gval * option string := (item, Some "error"%string).
(** The action of [TestTransformChannelsWithError]:
    [if item%5 == 0 { return 0, errors.New(...) }; return item * 2, nil]. *)
Definition double_unless_five (item : gval) : gval * option string :=
  match item with
  | VInt n =>
      if (Z.rem n 5 =? 0)%Z then (VInt 0, Some "item is divisible by 5"%string)
      else (VInt (n * 2), None)
  | _ => (item, None)
  end.

(** The action of [TestTransformChannels]: [return item * 2]. *)
Definition double (item : gval) : gval :=
  match item with
  | VInt n => VInt (n * 2)
  | _ => item
  end.

(** * The singly linked list of [datanalgo/lists]

    [SinglyLinkedList[T]] implements the [LinkedList[T]] interface.  Its
    fields are unexported and no method hands out a node, so two lists
    never share a node and no chain of [next] pointers comes back to
    where it started: a [*Node[T]] is modelled by the chain it points
    to, and a method that writes into a node by the function that
    rebuilds the chain.  A method is a function from the receiver's
    state to the new state and the results; where it can dereference
    nil, the result is an [outcome]. *)

(** [int], 64 bits wide. *)
Definition max_int : Z := (2 ^ 63 - 1)%Z.

Definition int_wrap (z : Z) : Z := ((z + 2 ^ 63) `mod` 2 ^ 64 - 2 ^ 63)%Z.

Module Lists.
Section SinglyLinkedList.
Context {T : Type} `{EqDecision T}.    (* [T comparable] *)

(** The zero value of [T], which the named result [val] holds when a
    method returns an error. *)
Variable zero : T.

(** What [fmt] writes for the verb [%v] and a [T]. *)
Variable format : T → string.

(** A [*Node[T]]: nil, or a node with its [value] and [next]. *)
Inductive Node :=
  | nil_node
  | node (value : T) (next : Node).

Record SinglyLinkedList := mkSinglyLinkedList {
  head : Node;
  size : Z
}.

(** [&SinglyLinkedList[T]{}] *)
Definition new_list : SinglyLinkedList := mkSinglyLinkedList nil_node 0.

Definition error : Type := string.
Definition index_out_of_range : error := "index out of range"%string.
Definition list_is_empty : error := "list is empty"%string.

(** [list.size++] and [list.size--] *)
Definition incr (n : Z) : Z := int_wrap (n + 1).
Definition decr (n : Z) : Z := int_wrap (n - 1).

Definition InsertFirst (value : T) (list : SinglyLinkedList) : SinglyLinkedList :=
  mkSinglyLinkedList (node value (head list)) (incr (size list)).

(** [for current.next != nil { current = current.next }] and then
    [current.next = newNode], for [current] the node of [value] and
    [next]. *)
Fixpoint link_last (value : T) (next : Node) (newNode : Node) : Node :=
  match next with
  | nil_node => node value newNode
  | node value' next' => node value (link_last value' next' newNode)
  end.

Definition InsertLast (value : T) (list : SinglyLinkedList) : SinglyLinkedList :=
  let newNode := node value nil_node in
  match head list with
  | nil_node => mkSinglyLinkedList newNode (incr (size list))
  | node v next => mkSinglyLinkedList (link_last v next newNode) (incr (size list))
  end.

(** [steps] turns of [current = current.next], then
    [newNode.next = current.next; current.next = newNode]. *)
Fixpoint link_after (steps : nat) (current : Node) (value : T) : outcome Node :=
  match current with
  | nil_node => Panic                 (* nil pointer dereference *)
  | node v next =>
      match steps with
      | 0 => Next (node v (node value next))
      | S k =>
          match link_after k next value with
          | Next next' => Next (node v next')
          | Panic => Panic
          end
      end
  end.

Definition InsertAt (value : T) (index : Z) (list : SinglyLinkedList)
  : outcome (SinglyLinkedList * option error) :=
  if decide (index < 0 ∨ index > size list)%Z
  then Next (list, Some index_out_of_range)
  else if decide (index = 0)%Z
  then Next (InsertFirst value list, None)
  else
    (* for i := 1; i < index; i++ *)
    match link_after (Z.to_nat (index - 1)) (head list) value with
    | Next h => Next (mkSinglyLinkedList h (incr (size list)), None)
    | Panic => Panic
    end.

Definition DeleteFirst (list : SinglyLinkedList)
  : SinglyLinkedList * (T * option error) :=
  match head list with
  | nil_node => (list, (zero, Some list_is_empty))
  | node value next =>
      (mkSinglyLinkedList next (decr (size list)), (value, None))
  end.

(** [for current.next.next != nil { current = current.next }], then
    [value := current.next.value; current.next = nil], for [current]
    the node of [value] whose [next] is the node of [value'] and
    [next']. *)
Fixpoint cut_last (value value' : T) (next' : Node) : T * Node :=
  match next' with
  | nil_node => (value', node value nil_node)
  | node value'' next'' =>
      let '(last, rest) := cut_last value' value'' next'' in
      (last, node value rest)
  end.

Definition DeleteLast (list : SinglyLinkedList)
  : SinglyLinkedList * (T * option error) :=
  match head list with
  | nil_node => (list, (zero, Some list_is_empty))
  | node value nil_node =>
      (mkSinglyLinkedList nil_node (decr (size list)), (value, None))
  | node value (node value' next') =>
      let '(last, h) := cut_last value value' next' in
      (mkSinglyLinkedList h (decr (size list)), (last, None))
  end.

(** [steps] turns of [current = current.next], then
    [value := current.next.value; current.next = current.next.next]. *)
Fixpoint unlink_after (steps : nat) (current : Node) : outcome (T * Node) :=
  match current with
  | nil_node => Panic                 (* nil pointer dereference *)
  | node v next =>
      match steps with
      | 0 =>
          match next with
          | nil_node => Panic         (* nil pointer dereference *)
          | node value next' => Next (value, node v next')
          end
      | S k =>
          match unlink_after k next with
          | Next (value, next') => Next (value, node v next')
          | Panic => Panic
          end
      end
  end.

Definition DeleteAt (index : Z) (list : SinglyLinkedList)
  : outcome (SinglyLinkedList * (T * option error)) :=
  if decide (index < 0 ∨ index >= size list)%Z
  then Next (list, (zero, Some index_out_of_range))
  else if decide (index = 0)%Z
  then Next (DeleteFirst list)
  else
    match unlink_after (Z.to_nat (index - 1)) (head list) with
    | Next (value, h) => Next (mkSinglyLinkedList h (decr (size list)), (value, None))
    | Panic => Panic
    end.

(** [for current.next != nil && current.next.value != value
    { current = current.next }] from a [current] whose [next] is given;
    the new [current.next] of the node the loop stops at, when it has
    one to unlink. *)
Fixpoint unlink_value (next : Node) (value : T) : option Node :=
  match next with
  | nil_node => None
  | node v next' =>
      if decide (v = value) then Some next'
      else node v <$> unlink_value next' value
  end.

Definition DeleteValue (value : T) (list : SinglyLinkedList)
  : SinglyLinkedList * (bool * option error) :=
  match head list with
  | nil_node => (list, (false, Some list_is_empty))
  | node v next =>
      if decide (v = value)
      then (mkSinglyLinkedList next (decr (size list)), (true, None))
      else
        match unlink_value next value with
        | None => (list, (false, None))
        | Some next' =>
            (mkSinglyLinkedList (node v next') (decr (size list)), (true, None))
        end
  end.

(** The loop of [Search] from [current] with the counter at [index]. *)
Fixpoint search_from (current : Node) (index : Z) (value : T) : Z :=
  match current with
  | nil_node => (-1)%Z
  | node v next =>
      if decide (v = value) then index
      else search_from next (int_wrap (index + 1)) value
  end.

Definition Search (value : T) (list : SinglyLinkedList) : Z * option error :=
  match head list with
  | nil_node => ((-1)%Z, Some list_is_empty)
  | _ => (search_from (head list) 0 value, None)
  end.

(** [fn] is a closure: [S] is the state it captures, and it does not
    reach the list it is called on. *)
Fixpoint traverse {S : Type} (fn : T → S → S * option error)
  (current : Node) (s : S) : S * option error :=
  match current with
  | nil_node => (s, None)
  | node value next =>
      match fn value s with
      | (s', Some err) => (s', Some err)
      | (s', None) => traverse fn next s'
      end
  end.

Definition Traversal {S : Type} (fn : T → S → S * option error)
  (list : SinglyLinkedList) (s : S) : S * option error :=
  traverse fn (head list) s.

(** [panic("ReverseTraversal is not applicable to Singly Linked Lists")] *)
Definition ReverseTraversal {S : Type} (fn : T → S → S * option error)
  (list : SinglyLinkedList) (s : S) : outcome (S * option error) :=
  Panic.

Definition Size (list : SinglyLinkedList) : Z := size list.

Definition IsEmpty (list : SinglyLinkedList) : bool :=
  bool_decide (size list = 0%Z).

(** The loop of [String], writing to the builder [sb]. *)
Fixpoint write_nodes (sb : string) (current : Node) : string :=
  match current with
  | nil_node => sb
  | node value next => write_nodes (sb +:+ format value +:+ " -> ") next
  end.

Definition String (list : SinglyLinkedList) : string :=
  write_nodes "" (head list) +:+ "nil".

(** *** What a list holds *)

(** The values of the nodes from [current] on. *)
Fixpoint values (current : Node) : list T :=
  match current with
  | nil_node => []
  | node value next => value :: values next
  end.

(** The list [l] holds the values [xs], and its [size] field counts
    them. *)
Definition holds (l : SinglyLinkedList) (xs : list T) : Prop :=
  values (head l) = xs ∧ size l = Z.of_nat (length xs) ∧
  (size l ≤ max_int)%Z.

(** *** The methods as calls on a list *)

Inductive method :=
  | CallInsertFirst (value : T)
  | CallInsertLast (value : T)
  | CallInsertAt (value : T) (index : Z)
  | CallDeleteFirst
  | CallDeleteLast
  | CallDeleteAt (index : Z)
  | CallDeleteValue (value : T)
  | CallSearch (value : T)
  | CallSize
  | CallIsEmpty
  | CallString.

(** The receiver after the call; the results are dropped. *)
Definition call_method (m : method) (list : SinglyLinkedList)
  : outcome SinglyLinkedList :=
  match m with
  | CallInsertFirst value => Next (InsertFirst value list)
  | CallInsertLast value => Next (InsertLast value list)
  | CallInsertAt value index =>
      match InsertAt value index list with
      | Next (list', _) => Next list'
      | Panic => Panic
      end
  | CallDeleteFirst => Next (DeleteFirst list).1
  | CallDeleteLast => Next (DeleteLast list).1
  | CallDeleteAt index =>
      match DeleteAt index list with
      | Next (list', _) => Next list'
      | Panic => Panic
      end
  | CallDeleteValue value => Next (DeleteValue value list).1
  | CallSearch _ | CallSize | CallIsEmpty | CallString => Next list
  end.

Fixpoint call_methods (ms : list method) (list : SinglyLinkedList)
  : outcome SinglyLinkedList :=
  match ms with
  | [] => Next list
  | m :: ms' =>
      match call_method m list with
      | Next list' => call_methods ms' list'
      | Panic => Panic
      end
  end.
End SinglyLinkedList.
End Lists.

(** The list of the tests: [InsertFirst(1)], [InsertFirst(2)] and
    [InsertFirst(3)] on a new list of [int]. *)
Definition test_list : Lists.SinglyLinkedList (T:=Z) :=
  Lists.InsertFirst 3%Z (Lists.InsertFirst 2%Z (Lists.InsertFirst 1%Z Lists.new_list)).

(** [%v] for an [int]. *)
Definition format_int (n : Z) : string := pretty n.

(** * The earlier revisions of the package

    Before [process] was factored out, [Transform] and
    [TransformWithError] built the pools themselves (the file
    [concurrent_transformer.go]), and the first revision was a single
    function [Transform] with one pool.  The goroutines are the same as
    above: a feeder, pools of workers with their closers, and the
    calling goroutine collecting from the last channel.  What differs
    is that every channel is made with a capacity fixed in advance and
    that the loop over the actions indexes [channels] by
    [len(actions)], which an empty [actions] leaves at the first
    channel.  A goroutine that has been started and has not taken a
    step cannot be told from one that is not started yet: the state
    holds the feeder from the beginning. *)

Section Inline.
Context `{GoValues} {Item Action Acc Res : Type}.
Variable work : Action → Item → option Item.
Variable workers : Z.
Variable stamp : nat → value → Item.        (* what the feeder sends *)
Variable acc0 : nat → Acc.                  (* make([]Output, len(items)) *)
Variable collect : Item → Acc → coutcome Acc Res.
Variable finish : Acc → Res.                (* the return after the loop *)
Variable items : list value.
Variable cap0 : nat.                        (* capacity of the first channel *)
Variable capk : nat.                        (* capacity of a pool's output *)

(** One turn of [for i, action := range actions]: [outputCh] is made
    with its fixed capacity, the workers are started on it, and the
    goroutine that closes it after [wg.Wait()]. *)
Definition create_with (p : pipeline Item Action) : option (pipeline Item Action) :=
  match todo p with
  | [] => None
  | a :: rest =>
      Some (Pipeline (chans p ++ [make_chan capk])
                     (pools p ++ [Pool a (replicate (Z.to_nat workers) WRecv)])
                     rest)
  end.

(** The feeder, the workers, the closers and the collecting loop are
    those of [bexec]; [BCreate] is a turn of the loop over the actions
    and [BProcessReturn] its end, from where the caller ranges over
    [channels[len(channels)-1]]. *)
Definition iexec (e : bevent) (s : bstate Item Action Acc Res)
  : option (outcome (bstate Item Action Acc Res)) :=
  match e with
  | BCreate =>
      match main s with
      | MProcess => p ← create_with (pipe s); Some (Next (with_pipe s p))
      | _ => None
      end
  | BProcessReturn =>
      match main s, todo (pipe s) with
      | MProcess, [] =>
          Some (Next (BState (fpos s) (pipe s)
                             (MCollect (length (pools (pipe s)))
                                       (acc0 (length items)))))
      | _, _ => None
      end
  | _ => bexec work workers stamp acc0 collect finish items e s
  end.

Definition iinit (actions : list Action) : bstate Item Action Acc Res :=
  BState 0 (Pipeline [make_chan cap0] [] actions) MProcess.

Definition istep (c c' : outcome (bstate Item Action Acc Res)) : Prop :=
  ∃ s e, c = Next s ∧ iexec e s = Some c'.

Definition inline_call (actions : list Action) : call Res :=
  Call Res (outcome (bstate Item Action Acc Res)) (Next (iinit actions)) istep
       (bresult (Item:=Item) (Action:=Action)) (λ c, c = Panic).

(** Running a schedule. *)
Fixpoint irun (es : list bevent) (c : outcome (bstate Item Action Acc Res))
  : option (outcome (bstate Item Action Acc Res)) :=
  match es, c with
  | [], _ => Some c
  | e :: es', Next s => c' ← iexec e s; irun es' c'
  | _ :: _, Panic => None
  end.

(** *** What holds of such a call at all times *)

(** Every channel has the capacity it was made with. *)
Definition caps_ok (p : pipeline Item Action) : Prop :=
  (∀ c, chans p !! 0 = Some c → cap c = cap0) ∧
  (∀ k c, chans p !! S k = Some c → cap c = capk).

Definition imain_ok (actions : list Action) (seen : list Item)
  (p : pipeline Item Action) (m : mstate Acc Res) : Prop :=
  match m with
  | MProcess => seen = []
  | MCollect ch a =>
      todo p = [] ∧ ch = length (pools p) ∧
      collect_all collect seen (acc0 (length items)) = CNext a
  | MDone r =>
      todo p = [] ∧
      (collect_all collect seen (acc0 (length items)) = CReturn r ∨
       ∃ a, collect_all collect seen (acc0 (length items)) = CNext a ∧
            r = finish a ∧
            (0 < Z.to_nat workers ∨ actions = [] →
             run work actions <$> stamped stamp items ≡ₚ Some <$> seen))
  end.

(** Every item the feeder has sent is either still in flight or has
    been seen by the collector, and every channel has the capacity it
    was made with. *)
Record iinv (actions : list Action) (seen : list Item)
  (s : bstate Item Action Acc Res) : Prop := {
  ii_pinv : pinv workers (pipe s);
  ii_acts : acts (pipe s) = actions;
  ii_fpos : fpos s ≤ length items;
  ii_closed : ∀ c, chans (pipe s) !! 0 = Some c → closed c = true →
                   fpos s = length items;
  ii_flow : run work actions <$> take (fpos s) (stamped stamp items)
            ≡ₚ residual work (pipe s) ++ (Some <$> seen);
  ii_idle : Z.to_nat workers = 0 → actions ≠ [] →
            seen = [] ∧ ∀ e, e ∈ flight (pipe s) → e.1 = 0;
  ii_caps : caps_ok (pipe s);
  ii_main : imain_ok actions seen (pipe s) (main s)
}.
End Inline.

(** ** [concurrent_transformer.go]: the pools built in the methods *)

Module ConcurrentV2.
Section Methods.
Context `{GoValues}.
Variable Input Output : gotype.

(** [indexedItem[any]{Index, Item, Err}] is [IndexedItemWithError]. *)

(** [worker]: [output := action(indexedInput.Item.(Input))], sent with
    the index and a nil [Err]. *)
Definition worker (action : TransformAction) (indexedInput : IndexedItemWithError)
  : option IndexedItemWithError :=
  x ← assert Input (ItemWE indexedInput);
  Some {| IndexWE := IndexWE indexedInput; ItemWE := action x; ErrWE := None |}.

(** [workerWithError]: [output, err := action(indexedInput.Item.(Input))],
    sent with the index and [err]. *)
Definition workerWithError (action : TransformActionWithError)
  (indexedInput : IndexedItemWithError) : option IndexedItemWithError :=
  x ← assert Input (ItemWE indexedInput);
  Some {| IndexWE := IndexWE indexedInput;
          ItemWE := (action x).1;
          ErrWE := (action x).2 |}.

(** [results[indexedItem.Index] = indexedItem.Item.(Output)] *)
Definition Transform_collect (indexedItem : IndexedItemWithError)
  (results : list value) : coutcome (list value) (list value) :=
  match assert Output (ItemWE indexedItem) with
  | Some v =>
      if decide (IndexWE indexedItem < length results)
      then CNext (<[IndexWE indexedItem := v]> results)
      else CPanic
  | None => CPanic
  end.

Definition Transform (t : transformer) (items : list value)
  (actions : list TransformAction) : call (list value) :=
  inline_call worker (workers t)
    (λ i item, mkIndexedItemWithError i item None)
    (λ n, replicate n (zero Output)) Transform_collect id items
    (length items) (length items) actions.

(** The collecting loop is the one of the later revision. *)
Definition TransformWithError (t : transformer) (items : list value)
  (actions : list TransformActionWithError) : call (result_with_error) :=
  inline_call workerWithError (workers t)
    (λ i item, mkIndexedItemWithError i item None)
    (λ n, replicate n (zero Output)) (TransformWithError_collect Output)
    (λ results, (Some results, None)) items
    (length items) (length items) actions.
End Methods.
End ConcurrentV2.

(** ** The first revision: one function, one pool *)

Module ConcurrentV1.
Section Function.
Context `{GoValues}.

(** [type Transformer[Input, Output] func(Input) (Output, error)] *)
Definition Transformer : Type := value → value * option goerror.

(** [indexedItem[Input]] on [inputCh] and [indexedResult[Output]] on
    [outputCh]: the former is the latter with a nil [Err]. *)

(** [worker]: [output, err := transformer(indexedInput.Item)], sent
    with the index and [err].  The channels are typed: there is no
    assertion to fail. *)
Definition worker (transformer : Transformer) (indexedInput : IndexedItemWithError)
  : option IndexedItemWithError :=
  Some {| IndexWE := IndexWE indexedInput;
          ItemWE := (transformer (ItemWE indexedInput)).1;
          ErrWE := (transformer (ItemWE indexedInput)).2 |}.

(** [if indexedResult.Err != nil { return nil, indexedResult.Err }] and
    [results[indexedResult.Index] = indexedResult.Item] *)
Definition Transform_collect (indexedResult : IndexedItemWithError)
  (results : list value) : coutcome (list value) result_with_error :=
  match ErrWE indexedResult with
  | Some err => CReturn (None, Some err)
  | None =>
      if decide (IndexWE indexedResult < length results)
      then CNext (<[IndexWE indexedResult := ItemWE indexedResult]> results)
      else CPanic
  end.

(** [inputCh] is unbuffered and [outputCh] has room for every item;
    the zero value of [Output] fills [results]. *)
Definition Transform (Output : gotype) (items : list value)
  (transformer : Transformer) (workers : Z) : call result_with_error :=
  inline_call worker workers
    (λ i item, mkIndexedItemWithError i item None)
    (λ n, replicate n (zero Output)) Transform_collect
    (λ results, (Some results, None)) items
    0 (length items) [transformer].
End Function.
End ConcurrentV1.

(** * Proofs *)

#[local] Arguments Nat.mul : simpl never.
#[local] Arguments Nat.div2 : simpl never.

Section ProcessFacts.
Context {Item Action : Type}.
Variable work : Action → Item → option Item.
Variable workers : Z.
Implicit Types (p : pipeline Item Action) (c : chan Item) (w : wstate Item).

Lemma flight_chans_insert o (cs : list (chan Item)) k c :
  cs !! k = Some c →
  ∃ Q, flight_chans o cs ≡ₚ (pair (2 * (o + k)) <$> buf c) ++ Q ∧
       ∀ c', flight_chans o (<[k := c']> cs) ≡ₚ (pair (2 * (o + k)) <$> buf c') ++ Q.
Proof.
  revert o k. induction cs as [|c0 cs IH]; intros o k Hk; [done|].
  destruct k as [|k]; simpl in *.
  - simplify_eq. exists (flight_chans (S o) cs). rewrite Nat.add_0_r. done.
  - destruct (IH (S o) k Hk) as (Q & HQ & HQ').
    exists ((pair (2 * o) <$> buf c0) ++ Q). 
    replace (o + S k) with (S o + k) by lia. split.
    + rewrite HQ. by rewrite !(assoc app), (comm app _ (_ <$> buf c)).
    + intros c'. rewrite HQ'.  by rewrite !(assoc app), (comm app _ (_ <$> buf c')).
Qed.

Lemma omap_sent_insert k (ws : list (wstate Item)) j w :
  ws !! j = Some w →
  ∃ Q, omap (sent k) ws ≡ₚ option_list (sent k w) ++ Q ∧
       ∀ w', omap (sent k) (<[j := w']> ws) ≡ₚ option_list (sent k w') ++ Q.
Proof.
  revert j. induction ws as [|w0 ws IH]; intros j Hj; [done|].
  destruct j as [|j]; simpl in *.
  - simplify_eq. exists (omap (sent k) ws). split; [by destruct (sent k w)|].
    intros w'. by destruct (sent k w').
  - destruct (IH j Hj) as (Q & HQ & HQ').
    exists (option_list (sent k w0) ++ Q). split.
    + destruct (sent k w0); simpl; rewrite HQ; [|done].
      by rewrite Permutation_middle.
    + intros w'. destruct (sent k w0); simpl; rewrite HQ'; [|done].
      by rewrite Permutation_middle.
Qed.

Lemma flight_pools_alter o (pls : list (pool Item Action)) k pl j w :
  pls !! k = Some pl → wks pl !! j = Some w →
  ∃ Q, flight_pools o pls ≡ₚ option_list (sent (o + k) w) ++ Q ∧
       ∀ w', flight_pools o (alter (λ pl, Pool (act pl) (<[j := w']> (wks pl))) k pls)
             ≡ₚ option_list (sent (o + k) w') ++ Q.
Proof.
  revert o k. induction pls as [|pl0 pls IH]; intros o k Hk Hj; [done|].
  destruct k as [|k]; simpl in *.
  - simplify_eq. destruct (omap_sent_insert o _ _ _ Hj) as (Q & HQ & HQ').
    exists (Q ++ flight_pools (S o) pls). rewrite Nat.add_0_r. split.
    + by rewrite HQ, (assoc app).
    + intros w'. simpl. by rewrite HQ', (assoc app).
  - destruct (IH (S o) k Hk Hj) as (Q & HQ & HQ').
    exists (omap (sent o) (wks pl0) ++ Q).
    replace (o + S k) with (S o + k) by lia. split.
    + rewrite HQ. by rewrite !(assoc app), (comm app (omap _ _)).
    + intros w'. specialize (HQ' w'). simpl in HQ' |- *. rewrite HQ'.
      by rewrite !(assoc app), (comm app (omap _ _)).
Qed.

Lemma sum_list_fmap_insert {A} (f : A → nat) (l : list A) k x x' :
  l !! k = Some x →
  sum_list (f <$> <[k := x']> l) + f x = sum_list (f <$> l) + f x'.
Proof.
  revert k. induction l as [|x0 l IH]; intros [|k] Hk; simplify_eq/=; [lia|].
  specialize (IH _ Hk). lia.
Qed.

Lemma sum_list_fmap_alter {A} (f : A → nat) (g : A → A) (l : list A) k x :
  l !! k = Some x →
  sum_list (f <$> alter g k l) + f x = sum_list (f <$> l) + f (g x).
Proof.
  revert k. induction l as [|x0 l IH]; intros [|k] Hk; simplify_eq/=; [lia|].
  specialize (IH _ Hk). lia.
Qed.

Lemma busy_set_worker (pls : list (pool Item Action)) k pl j w w' :
  pls !! k = Some pl → wks pl !! j = Some w →
  sum_list (busy <$> alter (λ pl, Pool (act pl) (<[j := w']> (wks pl))) k pls) + bz w
  = sum_list (busy <$> pls) + bz w'.
Proof.
  intros Hk Hj.
  pose proof (sum_list_fmap_alter busy (λ pl, Pool (act pl) (<[j := w']> (wks pl))) _ _ _ Hk) as E.
  pose proof (sum_list_fmap_insert bz (wks pl) j w w' Hj) as E'.
  unfold busy in *. simpl in *. unfold bz in *. lia.
Qed.

Lemma open_set_chan (cs : list (chan Item)) k c c' :
  cs !! k = Some c →
  open_chans (<[k := c']> cs) + oc c = open_chans cs + oc c'.
Proof. intros Hk. unfold open_chans. by apply (sum_list_fmap_insert oc). Qed.

Lemma acts_set_worker k j w p : acts (set_worker k j w p) = acts p.
Proof.
  unfold acts, set_worker; simpl. f_equal.
  apply list_eq; intros i. rewrite !list_lookup_fmap.
  destruct (decide (k = i)) as [->|].
  - rewrite list_lookup_alter_eq. by destruct (pools p !! i).
  - by rewrite list_lookup_alter_ne.
Qed.

Lemma acts_lookup p k pl : pools p !! k = Some pl → acts p !! k = Some (act pl).
Proof.
  intros Hk. unfold acts. apply lookup_app_l_Some.
  by rewrite list_lookup_fmap, Hk.
Qed.

Lemma pools_lt_acts p k pl : pools p !! k = Some pl → k < length (acts p).
Proof. intros Hk. apply lookup_lt_Some with (act pl). by apply acts_lookup. Qed.

Lemma div2_S_double k : Nat.div2 (S (2 * k)) = k.
Proof. apply Nat.div2_succ_double. Qed.

Lemma div2_double_S k : Nat.div2 (S (S (2 * k))) = S k.
Proof. replace (S (S (2 * k))) with (2 * S k) by lia. apply Nat.div2_double. Qed.

Lemma rest_of_chan (l : list Action) k a x :
  l !! k = Some a →
  rest_of work l (2 * k, x) = y ← work a x; rest_of work l (S (2 * k), y).
Proof.
  intros Hk. unfold rest_of; simpl. rewrite div2_S_double, div2_double_S.
  by rewrite (drop_S _ _ _ Hk).
Qed.

Lemma rest_of_sent (l : list Action) k y :
  rest_of work l (S (2 * k), y) = rest_of work l (2 * S k, y).
Proof. unfold rest_of; simpl. by rewrite div2_S_double, div2_double_S. Qed.

Lemma pexec_cases e p o : pexec work e p = Some o ↔ pexec_spec work p e o.
Proof.
  split.
  - intros He. destruct e as [k j|k j|k i j|k];
      unfold pexec, worker_at, took in He; simplify_option_eq;
      repeat (case_match; simplify_eq); try (econstructor; by eauto).
    + eapply ps_send; eauto. unfold chan_room in *. by case_bool_decide.
    + unfold chan_waiting in *.
      destruct (closed _) eqn:?; [by rewrite andb_false_r in *|].
      case_bool_decide; [|done]. eapply ps_hand; eauto.
    + unfold chan_waiting in *.
      destruct (closed _) eqn:?; [by rewrite andb_false_r in *|].
      case_bool_decide; [|done]. eapply ps_hand_panic; eauto.
    + destruct (closed _) eqn:?; [by rewrite andb_false_r in *|].
      rewrite andb_true_r in *. eapply ps_close; eauto.
  - intros Hs. destruct Hs; unfold pexec, worker_at, took, chan_room, chan_waiting;
      repeat (match goal with H : ?l = _ |- context [?l] => rewrite H end; simpl);
      try done.
    by rewrite bool_decide_eq_true_2.
Qed.

Lemma flight_set_chan p k c :
  chans p !! k = Some c →
  ∃ Q, flight p ≡ₚ (pair (2 * k) <$> buf c) ++ Q ∧
       ∀ c', flight (set_chan k c' p) ≡ₚ (pair (2 * k) <$> buf c') ++ Q.
Proof.
  intros Hk. destruct (flight_chans_insert 0 _ _ _ Hk) as (Q & HQ & HQ').
  exists (Q ++ flight_pools 0 (pools p)). unfold flight, set_chan; simpl. split.
  - by rewrite HQ, (assoc app).
  - intros c'. by rewrite HQ', (assoc app).
Qed.

Lemma flight_set_worker p k j pl w :
  pools p !! k = Some pl → wks pl !! j = Some w →
  ∃ Q, flight p ≡ₚ option_list (sent k w) ++ Q ∧
       ∀ w', flight (set_worker k j w' p) ≡ₚ option_list (sent k w') ++ Q.
Proof.
  intros Hk Hj. destruct (flight_pools_alter 0 _ _ _ _ _ Hk Hj) as (Q & HQ & HQ').
  exists (flight_chans 0 (chans p) ++ Q). unfold flight, set_worker; simpl. split.
  - rewrite HQ. by rewrite !(assoc app), (comm app (flight_chans _ _)).
  - intros w'. rewrite HQ'. by rewrite !(assoc app), (comm app (flight_chans _ _)).
Qed.

Lemma crowd_set_worker p k j pl w w' :
  pools p !! k = Some pl → wks pl !! j = Some w →
  crowd (set_worker k j w' p) + bz w = crowd p + bz w'.
Proof.
  intros Hk Hj. pose proof (busy_set_worker _ _ _ _ _ w' Hk Hj).
  unfold crowd, set_worker; simpl. lia.
Qed.

Lemma crowd_set_chan p k c c' :
  chans p !! k = Some c →
  crowd (set_chan k c' p) + oc c = crowd p + oc c'.
Proof.
  intros Hk. pose proof (open_set_chan _ _ _ c' Hk).
  unfold crowd, set_chan; simpl. lia.
Qed.

Ltac pexec_inv He :=
  apply pexec_cases in He;
  inversion He as
    [ k j pl c x b y Hpl Hw Hc Hb Hwk E1 E2
    | k j pl c x b Hpl Hw Hc Hb Hwk E1 E2
    | k j pl c Hpl Hw Hc Hb Hcl E1 E2
    | k j pl c y Hpl Hw Hc Hcl Hroom E1 E2
    | k j pl c y Hpl Hw Hc Hcl E1 E2
    | k i j pl c pl' y y' Hpl Hw Hc Hb Hcl Hpl' Hw' Hwk E1 E2
    | k i j pl c pl' y Hpl Hw Hc Hb Hcl Hpl' Hw' Hwk E1 E2
    | k pl c Hpl Hdone Hc Hcl E1 E2 ]; subst; clear He.

Lemma pexec_flight e p p' :
  pexec work e p = Some (Next p') →
  acts p' = acts p ∧ todo p' = todo p ∧
  ∃ Q, (flight p ≡ₚ Q ∧ flight p' ≡ₚ Q ∧ crowd p' < crowd p) ∨
       (∃ a b, flight p ≡ₚ a :: Q ∧ flight p' ≡ₚ b :: Q ∧
               moves work (acts p) a b ∧ crowd p' = crowd p).
Proof.
  intros He. pexec_inv He.
  - (* receive *)
    split; [by rewrite acts_set_worker|]. split; [done|].
    destruct (flight_set_chan _ _ _ Hc) as (Q1 & HQ1 & HQ1').
    pose proof (crowd_set_chan _ _ _ (chan_tail c) Hc) as Hc1.
    assert (pools (set_chan k (chan_tail c) p) !! k = Some pl) as Hk1 by done.
    destruct (flight_set_worker _ _ _ _ _ Hk1 Hw) as (Q2 & HQ2 & HQ2').
    pose proof (crowd_set_worker _ _ _ _ _ (WSend y) Hk1 Hw) as Hc2.
    exists Q2. right. exists (2 * k, x), (S (2 * k), y).
    split; [|split; [|split]].
    + rewrite HQ1. rewrite <-HQ2; simpl. rewrite (HQ1' (chan_tail c)). simpl.
      by rewrite Hb.
    + by rewrite HQ2'.
    + split; [simpl; lia|]. split; [simpl; apply pools_lt_acts in Hpl; lia|].
      rewrite (rest_of_chan _ _ (act pl)); [|by apply acts_lookup].
      by rewrite Hwk.
    + unfold oc, bz in *. simpl in *. lia.
  - (* the loop ends *)
    split; [by rewrite acts_set_worker|]. split; [done|].
    destruct (flight_set_worker _ _ _ _ _ Hpl Hw) as (Q & HQ & HQ').
    pose proof (crowd_set_worker _ _ _ _ _ WDone Hpl Hw) as Hc2.
    exists Q. left. split; [done|]. split; [by rewrite HQ'|].
    unfold bz in *. lia.
  - (* buffered send *)
    split; [by rewrite acts_set_worker|]. split; [done|].
    destruct (flight_set_worker _ _ _ _ _ Hpl Hw) as (Q1 & HQ1 & HQ1').
    pose proof (crowd_set_worker _ _ _ _ _ WRecv Hpl Hw) as Hc1.
    assert (chans (set_worker k j WRecv p) !! S k = Some c) as Hk1 by done.
    destruct (flight_set_chan _ _ _ Hk1) as (Q2 & HQ2 & HQ2').
    pose proof (crowd_set_chan _ _ _ (chan_push y c) Hk1) as Hc2.
    exists Q1. right. exists (S (2 * k), y), (2 * S k, y).
    split; [done|]. split; [|split].
    + change (set_worker k j WRecv (set_chan (S k) (chan_push y c) p))
        with (set_chan (S k) (chan_push y c) (set_worker k j WRecv p)).
      rewrite HQ2'. simpl. rewrite fmap_app. simpl.
      rewrite <-(assoc app). simpl. rewrite <-Permutation_middle.
      by rewrite <-HQ2, (HQ1' WRecv).
    + split; [simpl; lia|]. split; [simpl; apply pools_lt_acts in Hpl; lia|].
      apply rest_of_sent.
    + change (set_worker k j WRecv (set_chan (S k) (chan_push y c) p))
        with (set_chan (S k) (chan_push y c) (set_worker k j WRecv p)).
      unfold oc, bz in *. simpl in *. lia.
  - (* direct send *)
    split; [by rewrite !acts_set_worker|]. split; [done|].
    destruct (flight_set_worker _ _ _ _ _ Hpl Hw) as (Q1 & HQ1 & HQ1').
    pose proof (crowd_set_worker _ _ _ _ _ WRecv Hpl Hw) as Hc1.
    assert (pools (set_worker k i WRecv p) !! S k = Some pl') as Hk1.
    { unfold set_worker; simpl. rewrite list_lookup_alter_ne by lia. done. }
    destruct (flight_set_worker _ _ _ _ _ Hk1 Hw') as (Q2 & HQ2 & HQ2').
    pose proof (crowd_set_worker _ _ _ _ _ (WSend y') Hk1 Hw') as Hc2.
    exists Q2. right. exists (S (2 * k), y), (S (2 * S k), y').
    split; [|split; [|split]].
    + rewrite HQ1. simpl. by rewrite <-HQ2, (HQ1' WRecv).
    + by rewrite HQ2'.
    + split; [simpl; lia|]. split; [simpl; apply pools_lt_acts in Hpl; lia|].
      rewrite rest_of_sent.
      rewrite (rest_of_chan _ _ (act pl')); [|by apply acts_lookup].
      by rewrite Hwk.
    + unfold bz in *. lia.
  - (* close *)
    split; [done|]. split; [done|].
    destruct (flight_set_chan _ _ _ Hc) as (Q & HQ & HQ').
    pose proof (crowd_set_chan _ _ _ (chan_close c) Hc) as Hc1.
    exists ((pair (2 * S k) <$> buf c) ++ Q). left. split; [done|].
    split; [by rewrite HQ'|].
    unfold oc in *. simpl in *. rewrite Hcl in *. lia.
Qed.

Lemma moves_weight (l : list Action) a b :
  moves work l a b → weight (length l) b < weight (length l) a.
Proof. intros (? & ? & _). unfold weight. lia. Qed.

Lemma moves_rest (l : list Action) a b :
  moves work l a b → rest_of work l a = rest_of work l b.
Proof. by intros (_ & _ & ?). Qed.

Lemma pexec_residual e p p' :
  pexec work e p = Some (Next p') → residual work p' ≡ₚ residual work p.
Proof.
  intros He. destruct (pexec_flight _ _ _ He) as (Ha & _ & Q & [H|H]).
  - destruct H as (H1 & H2 & _). unfold residual. by rewrite Ha, H1, H2.
  - destruct H as (a & b & H1 & H2 & Hm & _). unfold residual.
    rewrite Ha, H1, H2. simpl. by rewrite (moves_rest _ _ _ Hm).
Qed.

Lemma pexec_measure e p p' :
  pexec work e p = Some (Next p') → pmeasure workers p' < pmeasure workers p.
Proof.
  intros He. destruct (pexec_flight _ _ _ He) as (Ha & Ht & Q & [H|H]).
  - destruct H as (H1 & H2 & ?). unfold pmeasure. rewrite Ha, Ht, H1, H2. lia.
  - destruct H as (a & b & H1 & H2 & Hm & ?). unfold pmeasure.
    rewrite Ha, Ht, H1, H2. simpl. apply moves_weight in Hm. lia.
Qed.

(** Preservation of [pinv] by the two updates. *)
Lemma all_done_Forall (pl : pool Item Action) :
  all_done pl = true ↔ ∀ j w, wks pl !! j = Some w → w = WDone.
Proof.
  unfold all_done. rewrite <-Is_true_true, forallb_True, Forall_lookup. split.
  - intros Hf j w Hj. specialize (Hf _ _ Hj). by destruct w.
  - intros Hf j w Hj. by rewrite (Hf _ _ Hj).
Qed.

Lemma pinv_set_worker p k j pl w w' :
  pinv workers p → pools p !! k = Some pl → wks pl !! j = Some w →
  w ≠ WDone →
  (w' = WDone → ∃ c, chans p !! k = Some c ∧ closed c = true ∧ buf c = []) →
  pinv workers (set_worker k j w' p).
Proof.
  intros [Hlen Hwks Hcl Hdn] Hk Hj Hw Hw'. split; simpl.
  - by rewrite length_alter.
  - intros k' pl'. destruct (decide (k = k')) as [<-|Hne].
    + rewrite list_lookup_alter_eq, Hk. intros [= <-]. simpl.
      rewrite length_insert. eauto.
    + rewrite list_lookup_alter_ne by done. eauto.
  - intros k' pl' c. destruct (decide (k = k')) as [<-|Hne].
    + rewrite list_lookup_alter_eq, Hk. intros [= <-] Hc Hclosed.
      specialize (Hcl _ _ _ Hk Hc Hclosed).
      rewrite all_done_Forall in Hcl. by specialize (Hcl _ _ Hj).
    + rewrite list_lookup_alter_ne by done. eauto.
  - intros k' pl' c. destruct (decide (k = k')) as [<-|Hne].
    + rewrite list_lookup_alter_eq, Hk. intros [= <-] Hc. simpl.
      intros Hin. apply list_elem_of_lookup in Hin as [j' Hj'].
      destruct (decide (j = j')) as [<-|Hnej].
      * rewrite list_lookup_insert_eq in Hj' by (by eapply lookup_lt_Some).
        simplify_eq. destruct Hw' as (c' & ? & ? & ?); [done|]. by simplify_eq.
      * rewrite list_lookup_insert_ne in Hj' by done.
        eapply Hdn; eauto. apply list_elem_of_lookup. eauto.
    + rewrite list_lookup_alter_ne by done. eauto.
Qed.

Lemma pinv_set_chan p k c c' :
  pinv workers p → chans p !! k = Some c →
  (closed c' = true → closed c = true ∨
     ∀ k' pl, k = S k' → pools p !! k' = Some pl → all_done pl = true) →
  (closed c = true → buf c = [] → closed c' = true ∧ buf c' = []) →
  pinv workers (set_chan k c' p).
Proof.
  intros [Hlen Hwks Hcl Hdn] Hk H1 H2. split; simpl.
  - by rewrite length_insert.
  - done.
  - intros k' pl c''. destruct (decide (k = S k')) as [->|Hne].
    + rewrite list_lookup_insert_eq by (by eapply lookup_lt_Some).
      intros Hpl [= <-] Hclosed. destruct (H1 Hclosed) as [?|Hall]; eauto.
    + rewrite list_lookup_insert_ne by done. eauto.
  - intros k' pl c''. destruct (decide (k = k')) as [->|Hne].
    + rewrite list_lookup_insert_eq by (by eapply lookup_lt_Some).
      intros Hpl [= <-] Hin. destruct (Hdn _ _ _ Hpl Hk Hin). eauto.
    + rewrite list_lookup_insert_ne by done. eauto.
Qed.

Lemma pexec_pinv e p p' :
  pinv workers p → pexec work e p = Some (Next p') → pinv workers p'.
Proof.
  intros Hp He. pexec_inv He.
  - apply (pinv_set_worker _ k j pl WRecv); try done.
    apply (pinv_set_chan _ k c); try done; simpl; [by left|].
    intros _ Hnil. by rewrite Hnil in Hb.
  - apply (pinv_set_worker _ k j pl WRecv); try done. eauto.
  - apply (pinv_set_worker _ k j pl (WSend y)); try done.
    apply (pinv_set_chan _ (S k) c); try done; simpl; [by left|congruence].
  - apply (pinv_set_worker _ (S k) j pl' WRecv); try done.
    + apply (pinv_set_worker _ k i pl (WSend y)); try done.
    + simpl. by rewrite list_lookup_alter_ne by lia.
  - apply (pinv_set_chan _ (S k) c); try done. simpl. intros _. right.
    intros k' pl'' [= <-] ?. by simplify_eq.
Qed.

Lemma flight_chans_app o (cs cs' : list (chan Item)) :
  flight_chans o (cs ++ cs') = flight_chans o cs ++ flight_chans (o + length cs) cs'.
Proof.
  revert o. induction cs as [|c cs IH]; intros o; simpl.
  - by rewrite Nat.add_0_r.
  - rewrite IH, (assoc app). do 2 f_equal. lia.
Qed.

Lemma flight_pools_app o (pls pls' : list (pool Item Action)) :
  flight_pools o (pls ++ pls') = flight_pools o pls ++ flight_pools (o + length pls) pls'.
Proof.
  revert o. induction pls as [|c cs IH]; intros o; simpl.
  - by rewrite Nat.add_0_r.
  - rewrite IH, (assoc app). do 2 f_equal. lia.
Qed.

Lemma omap_sent_replicate k n : omap (sent k) (replicate n (@WRecv Item)) = [].
Proof. induction n; simpl; auto. Qed.

Lemma busy_replicate n : sum_list (bz <$> replicate n (@WRecv Item)) = n.
Proof. induction n; simpl; auto. Qed.

Lemma create_facts p p' :
  create workers p = Some p' →
  acts p' = acts p ∧ flight p' = flight p ∧
  crowd p' = crowd p + Z.to_nat workers + 1 ∧
  S (length (todo p')) = length (todo p) ∧
  length (pools p') = S (length (pools p)).
Proof.
  unfold create. destruct (todo p) as [|a rest] eqn:Ht; [done|].
  intros [= <-]. unfold acts, flight, crowd; simpl. rewrite Ht.
  rewrite fmap_app, <-(assoc app). split; [done|].
  rewrite flight_chans_app, flight_pools_app; simpl.
  rewrite omap_sent_replicate, !app_nil_r. split; [done|].
  unfold open_chans, busy. rewrite !fmap_app, !sum_list_with_app; simpl.
  rewrite length_app; simpl. split; [|split; [done|lia]].
  rewrite busy_replicate. unfold oc; simpl. lia.
Qed.

Lemma create_measure p p' :
  create workers p = Some p' → pmeasure workers p' < pmeasure workers p.
Proof.
  intros Hc. destruct (create_facts _ _ Hc) as (Ha & Hf & Hcr & Ht & _).
  unfold pmeasure. rewrite Ha, Hf, Hcr, <-Ht. lia.
Qed.

Lemma create_residual p p' :
  create workers p = Some p' → residual work p' = residual work p.
Proof.
  intros Hc. destruct (create_facts _ _ Hc) as (Ha & Hf & _).
  unfold residual. by rewrite Ha, Hf.
Qed.

Lemma create_pinv p p' :
  pinv workers p → create workers p = Some p' → pinv workers p'.
Proof.
  intros [Hlen Hwks Hcl Hdn]. unfold create.
  destruct (todo p) as [|a rest] eqn:Ht; [done|]. intros [= <-]. split; simpl.
  - rewrite !length_app; simpl. lia.
  - intros k pl [[_ Hk]|[_ <-]]%lookup_snoc_Some; [by eauto|].
    simpl. by rewrite length_replicate.
  - intros k pl c [[? Hk]|[Hk <-]]%lookup_snoc_Some.
    + rewrite lookup_app_l by lia. eauto.
    + rewrite lookup_app_r by lia. rewrite Hlen, Hk.
      replace (S (length (pools p)) - S (length (pools p))) with 0 by lia.
      simpl. by intros [= <-].
  - intros k pl c [[? Hk]|[Hk <-]]%lookup_snoc_Some.
    + rewrite lookup_app_l by lia. eauto.
    + simpl. intros _ Hin. by apply elem_of_replicate_inv in Hin.
Qed.

Lemma worker_at_Some p k j w :
  worker_at k j p = Some w ↔ ∃ pl, pools p !! k = Some pl ∧ wks pl !! j = Some w.
Proof.
  unfold worker_at. destruct (pools p !! k) as [pl|]; simpl.
  - split; [by eauto|]. by intros (? & [= <-] & ?).
  - split; [done|]. by intros (? & ? & ?).
Qed.

Lemma not_all_done (pl : pool Item Action) :
  all_done pl = false → ∃ i w, wks pl !! i = Some w ∧ w ≠ WDone.
Proof.
  unfold all_done. induction (wks pl) as [|w ws IH]; simpl; [done|].
  destruct w; simpl.
  - intros _. by exists 0, WRecv.
  - intros _. by exists 0, (WSend y).
  - intros (i & w & ? & ?)%IH. by exists (S i), w.
Qed.

(** Someone can move whenever a receiver waits on channel [k]: a worker
    or a closer upstream, the sender that would serve an outside
    receiver, or else the source channel is itself waiting. *)
Lemma pipe_progress p k :
  pinv workers p → k ≤ length (pools p) →
  (∃ c, chans p !! k = Some c ∧ buf c = [] ∧ closed c = false) →
  (k < length (pools p) → ∃ j, worker_at k j p = Some WRecv) →
  (∃ e o, pexec work e p = Some o)
  ∨ (∃ k' i y, k = S k' ∧ k = length (pools p) ∧ worker_at k' i p = Some (WSend y))
  ∨ (∃ c0, chans p !! 0 = Some c0 ∧ buf c0 = [] ∧ closed c0 = false ∧
           (0 < length (pools p) → ∃ j, worker_at 0 j p = Some WRecv)).
Proof.
  intros Hp. induction k as [|k IH]; intros Hk (c & Hc & Hb & Hcl) Hrecv.
  { right; right. eauto 10. }
  destruct (lookup_lt_is_Some_2 (pools p) k) as [pl Hpl]; [lia|].
  destruct (all_done pl) eqn:Hall.
  { left. exists (PClose k), (Next (set_chan (S k) (chan_close c) p)).
    apply pexec_cases. by eapply ps_close. }
  apply not_all_done in Hall as (i & w & Hw & Hne).
  destruct w as [|y|]; [| |done].
  - (* worker i of pool k is receiving *)
    destruct (lookup_lt_is_Some_2 (chans p) k) as [c' Hc'].
    { rewrite (pinv_len _ _ Hp). lia. }
    destruct (buf c') as [|x b] eqn:Hb'.
    + destruct (closed c') eqn:Hcl'.
      * left. eexists (PRecv k i), _. apply pexec_cases. by eapply ps_recv_done.
      * destruct IH as [?|[(k' & ? & ? & ? & ? & ?)|?]]; eauto; [lia| |lia].
        intros _. exists i. apply worker_at_Some. eauto.
    + left. destruct (work (act pl) x) as [y|] eqn:Hwk.
      * eexists (PRecv k i), _. apply pexec_cases. by eapply ps_recv.
      * eexists (PRecv k i), _. apply pexec_cases. by eapply ps_recv_panic.
  - (* worker i of pool k is sending *)
    destruct (decide (S k = length (pools p))) as [Heq|Hne'].
    { right; left. exists k, i, y. split; [done|]. split; [done|].
      apply worker_at_Some. eauto. }
    destruct Hrecv as [j Hj]; [lia|].
    apply worker_at_Some in Hj as (pl' & Hpl' & Hj).
    left. destruct (work (act pl') y) as [y'|] eqn:Hwk.
    + eexists (PHand k i j), _. apply pexec_cases. by eapply ps_hand.
    + eexists (PHand k i j), _. apply pexec_cases. by eapply ps_hand_panic.
Qed.

Lemma flight_chans_nil o (cs : list (chan Item)) :
  (∀ k c, cs !! k = Some c → buf c = []) → flight_chans o cs = [].
Proof.
  revert o. induction cs as [|c cs IH]; intros o H; simpl; [done|].
  rewrite (H 0 c eq_refl). simpl. apply IH. intros k c'. apply (H (S k)).
Qed.

Lemma omap_sent_done k (ws : list (wstate Item)) :
  (∀ j w, ws !! j = Some w → w = WDone) → omap (sent k) ws = [].
Proof.
  induction ws as [|w ws IH]; intros H; simpl; [done|].
  rewrite (H 0 w eq_refl). simpl. apply IH. intros j w'. apply (H (S j)).
Qed.

Lemma flight_pools_nil o (pls : list (pool Item Action)) :
  (∀ k pl, pls !! k = Some pl → all_done pl = true) → flight_pools o pls = [].
Proof.
  revert o. induction pls as [|pl pls IH]; intros o H; simpl; [done|].
  rewrite omap_sent_done by (apply all_done_Forall, (H 0); done). simpl.
  apply IH. intros k pl'. apply (H (S k)).
Qed.

(** Once a channel is closed and drained, so is everything upstream of
    it, provided the pools have workers at all. *)
Lemma drained_upstream p k c :
  pinv workers p → 0 < Z.to_nat workers → k ≤ length (pools p) →
  chans p !! k = Some c → closed c = true → buf c = [] →
  (∀ k' c', k' ≤ k → chans p !! k' = Some c' → closed c' = true ∧ buf c' = []) ∧
  (∀ k' pl, k' < k → pools p !! k' = Some pl → all_done pl = true).
Proof.
  intros Hp HW. revert c. induction k as [|k IH]; intros c Hk Hc Hcl Hb.
  { split; [|intros; lia]. intros k' c' Hle Hc'.
    assert (k' = 0) as -> by lia. by simplify_eq. }
  destruct (lookup_lt_is_Some_2 (pools p) k) as [pl Hpl]; [lia|].
  pose proof (pinv_closed _ _ Hp _ _ _ Hpl Hc Hcl) as Hall.
  destruct (lookup_lt_is_Some_2 (chans p) k) as [c0 Hc0].
  { rewrite (pinv_len _ _ Hp). lia. }
  destruct (lookup_lt_is_Some_2 (wks pl) 0) as [w Hw].
  { rewrite (pinv_wks _ _ Hp _ _ Hpl). lia. }
  assert (w = WDone) as -> by (eapply all_done_Forall; eauto).
  destruct (pinv_done _ _ Hp _ _ _ Hpl Hc0) as [Hcl0 Hb0].
  { apply list_elem_of_lookup. eauto. }
  destruct (IH c0) as [IH1 IH2]; [lia|done..|]. split.
  - intros k' c' Hle Hc'. destruct (decide (k' = S k)) as [->|].
    + by simplify_eq.
    + apply (IH1 k'); [lia|done].
  - intros k' pl' Hlt Hpl'. destruct (decide (k' = k)) as [->|].
    + by simplify_eq.
    + apply (IH2 k'); [lia|done].
Qed.

Lemma drained_flight p c :
  pinv workers p → 0 < Z.to_nat workers →
  chans p !! length (pools p) = Some c → closed c = true → buf c = [] →
  flight p = [].
Proof.
  intros Hp HW Hc Hcl Hb.
  destruct (drained_upstream _ _ _ Hp HW (le_n _) Hc Hcl Hb) as [H1 H2].
  unfold flight. rewrite flight_chans_nil, flight_pools_nil; [done| |].
  - intros k pl Hpl. eapply H2; [|done]. by eapply lookup_lt_Some.
  - intros k c' Hc'. eapply H1; [|done].
    apply lookup_lt_Some in Hc'. rewrite (pinv_len _ _ Hp) in Hc'. lia.
Qed.

(** The effect on [flight] of the channel operations of a goroutine
    outside the pools. *)
Lemma flight_push p k c x :
  chans p !! k = Some c →
  flight (set_chan k (chan_push x c) p) ≡ₚ (2 * k, x) :: flight p.
Proof.
  intros Hc. destruct (flight_set_chan _ _ _ Hc) as (Q & HQ & HQ').
  rewrite HQ', HQ. simpl. rewrite fmap_app, <-(assoc app). simpl.
  by rewrite <-Permutation_middle.
Qed.

Lemma flight_pop p k c x b :
  chans p !! k = Some c → buf c = x :: b →
  flight p ≡ₚ (2 * k, x) :: flight (set_chan k (chan_tail c) p).
Proof.
  intros Hc Hb. destruct (flight_set_chan _ _ _ Hc) as (Q & HQ & HQ').
  rewrite HQ', HQ. simpl. by rewrite Hb.
Qed.

Lemma flight_close p k c :
  chans p !! k = Some c → flight (set_chan k (chan_close c) p) ≡ₚ flight p.
Proof.
  intros Hc. destruct (flight_set_chan _ _ _ Hc) as (Q & HQ & HQ').
  by rewrite HQ', HQ.
Qed.

Lemma flight_take p k j pl y :
  pools p !! k = Some pl → wks pl !! j = Some WRecv →
  flight (set_worker k j (WSend y) p) ≡ₚ (S (2 * k), y) :: flight p.
Proof.
  intros Hk Hj. destruct (flight_set_worker _ _ _ _ _ Hk Hj) as (Q & HQ & HQ').
  by rewrite HQ', HQ.
Qed.

Lemma flight_give p k j pl y :
  pools p !! k = Some pl → wks pl !! j = Some (WSend y) →
  flight p ≡ₚ (S (2 * k), y) :: flight (set_worker k j WRecv p).
Proof.
  intros Hk Hj. destruct (flight_set_worker _ _ _ _ _ Hk Hj) as (Q & HQ & HQ').
  by rewrite HQ', HQ.
Qed.

Lemma flight_chan_elem p k c x :
  chans p !! k = Some c → x ∈ buf c → (2 * k, x) ∈ flight p.
Proof.
  intros Hc Hx. destruct (flight_set_chan _ _ _ Hc) as (Q & HQ & _).
  rewrite HQ. apply elem_of_app. left. by apply list_elem_of_fmap_2.
Qed.

Lemma flight_worker_elem p k j pl y :
  pools p !! k = Some pl → wks pl !! j = Some (WSend y) →
  (S (2 * k), y) ∈ flight p.
Proof.
  intros Hk Hj. rewrite (flight_give _ _ _ _ _ Hk Hj). by left.
Qed.

Lemma rest_of_exit (l : list Action) k x :
  length l ≤ k → rest_of work l (2 * k, x) = Some x.
Proof.
  intros Hk. unfold rest_of; simpl. rewrite div2_S_double.
  by rewrite drop_ge.
Qed.

Lemma rest_of_source (l : list Action) x :
  rest_of work l (0, x) = run work l x.
Proof. done. Qed.

Lemma residual_push p k c x :
  chans p !! k = Some c →
  residual work (set_chan k (chan_push x c) p)
  ≡ₚ rest_of work (acts p) (2 * k, x) :: residual work p.
Proof. intros Hc. unfold residual. by rewrite (flight_push _ _ _ _ Hc). Qed.

Lemma residual_pop p k c x b :
  chans p !! k = Some c → buf c = x :: b →
  residual work p
  ≡ₚ rest_of work (acts p) (2 * k, x) :: residual work (set_chan k (chan_tail c) p).
Proof. intros Hc Hb. unfold residual. by rewrite (flight_pop _ _ _ _ _ Hc Hb). Qed.

Lemma residual_close p k c :
  chans p !! k = Some c →
  residual work (set_chan k (chan_close c) p) ≡ₚ residual work p.
Proof. intros Hc. unfold residual. by rewrite (flight_close _ _ _ Hc). Qed.

Lemma residual_take p k j pl y :
  pools p !! k = Some pl → wks pl !! j = Some WRecv →
  residual work (set_worker k j (WSend y) p)
  ≡ₚ rest_of work (acts p) (S (2 * k), y) :: residual work p.
Proof.
  intros Hk Hj. unfold residual.
  by rewrite acts_set_worker, (flight_take _ _ _ _ _ Hk Hj).
Qed.

Lemma residual_give p k j pl y :
  pools p !! k = Some pl → wks pl !! j = Some (WSend y) →
  residual work p
  ≡ₚ rest_of work (acts p) (S (2 * k), y) :: residual work (set_worker k j WRecv p).
Proof.
  intros Hk Hj. unfold residual.
  by rewrite acts_set_worker, (flight_give _ _ _ _ _ Hk Hj).
Qed.

(** A worker or closer never opens or closes the source channel. *)
Lemma pexec_source e p p' c' :
  pexec work e p = Some (Next p') →
  chans p' !! 0 = Some c' →
  ∃ c, chans p !! 0 = Some c ∧ closed c = closed c'.
Proof.
  intros He. pexec_inv He; simpl; eauto.
  - destruct (decide (k = 0)) as [->|].
    + rewrite list_lookup_insert_eq by (by eapply lookup_lt_Some).
      intros [= <-]. eauto.
    + rewrite list_lookup_insert_ne by done. eauto.
  - rewrite list_lookup_insert_ne by done. eauto.
  - rewrite list_lookup_insert_ne by done. eauto.
Qed.

Lemma pexec_pools_length e p p' :
  pexec work e p = Some (Next p') →
  length (pools p') = length (pools p) ∧ length (chans p') = length (chans p).
Proof.
  intros He. pexec_inv He; simpl;
    rewrite ?length_alter, ?length_insert; done.
Qed.

Lemma pmeasure_flight p p' Q Q' :
  acts p' = acts p → todo p' = todo p → crowd p' = crowd p →
  flight p' ++ Q ≡ₚ flight p ++ Q' →
  pmeasure workers p' + sum_list (weight (length (acts p)) <$> Q)
  = pmeasure workers p + sum_list (weight (length (acts p)) <$> Q').
Proof.
  intros Ha Ht Hc Hf. unfold pmeasure. rewrite Ha, Ht, Hc.
  assert (sum_list (weight (length (acts p)) <$> (flight p' ++ Q))
          = sum_list (weight (length (acts p)) <$> (flight p ++ Q'))) as E
    by (by rewrite Hf).
  rewrite !fmap_app, !sum_list_with_app in E. lia.
Qed.

Lemma pmeasure_push p k c x :
  chans p !! k = Some c →
  pmeasure workers (set_chan k (chan_push x c) p)
  = pmeasure workers p + weight (length (acts p)) (2 * k, x).
Proof.
  intros Hc.
  assert (crowd (set_chan k (chan_push x c) p) = crowd p) as Hcr.
  { pose proof (crowd_set_chan _ _ _ (chan_push x c) Hc). unfold oc in *. simpl in *. lia. }
  assert (flight (set_chan k (chan_push x c) p) ++ [] ≡ₚ flight p ++ [(2 * k, x)]) as Hfl.
  { rewrite app_nil_r, (flight_push _ _ _ _ Hc). by rewrite Permutation_cons_append. }
  pose proof (pmeasure_flight p (set_chan k (chan_push x c) p) [] [(2 * k, x)] eq_refl eq_refl Hcr Hfl) as E.
  simpl in E. lia.
Qed.

Lemma pmeasure_pop p k c x b :
  chans p !! k = Some c → buf c = x :: b →
  pmeasure workers p
  = pmeasure workers (set_chan k (chan_tail c) p) + weight (length (acts p)) (2 * k, x).
Proof.
  intros Hc Hb.
  assert (crowd (set_chan k (chan_tail c) p) = crowd p) as Hcr.
  { pose proof (crowd_set_chan _ _ _ (chan_tail c) Hc). unfold oc in *. simpl in *. lia. }
  assert (flight (set_chan k (chan_tail c) p) ++ [(2 * k, x)] ≡ₚ flight p ++ []) as Hfl.
  { rewrite app_nil_r, (flight_pop _ _ _ _ _ Hc Hb). symmetry. apply Permutation_cons_append. }
  pose proof (pmeasure_flight p (set_chan k (chan_tail c) p) [(2 * k, x)] [] eq_refl eq_refl Hcr Hfl) as E.
  simpl in E. lia.
Qed.

Lemma pmeasure_close p k c :
  chans p !! k = Some c → closed c = false →
  S (pmeasure workers (set_chan k (chan_close c) p)) = pmeasure workers p.
Proof.
  intros Hc Hcl. unfold pmeasure.
  pose proof (crowd_set_chan _ _ _ (chan_close c) Hc) as E.
  unfold oc in E. simpl in E. rewrite Hcl in E.
  rewrite (flight_close _ _ _ Hc).
  change (acts (set_chan k (chan_close c) p)) with (acts p).
  change (todo (set_chan k (chan_close c) p)) with (todo p). lia.
Qed.

Lemma pmeasure_take p k j pl y :
  pools p !! k = Some pl → wks pl !! j = Some WRecv →
  pmeasure workers (set_worker k j (WSend y) p)
  = pmeasure workers p + weight (length (acts p)) (S (2 * k), y).
Proof.
  intros Hk Hj.
  assert (crowd (set_worker k j (WSend y) p) = crowd p) as Hcr.
  { pose proof (crowd_set_worker _ _ _ _ _ (WSend y) Hk Hj). unfold bz in *. lia. }
  assert (flight (set_worker k j (WSend y) p) ++ [] ≡ₚ flight p ++ [(S (2 * k), y)]) as Hfl.
  { rewrite app_nil_r, (flight_take _ _ _ _ _ Hk Hj). by rewrite Permutation_cons_append. }
  pose proof (pmeasure_flight p (set_worker k j (WSend y) p) [] [(S (2 * k), y)] (acts_set_worker _ _ _ _) eq_refl Hcr Hfl) as E.
  simpl in E. lia.
Qed.

Lemma pmeasure_give p k j pl y :
  pools p !! k = Some pl → wks pl !! j = Some (WSend y) →
  pmeasure workers p
  = pmeasure workers (set_worker k j WRecv p) + weight (length (acts p)) (S (2 * k), y).
Proof.
  intros Hk Hj.
  assert (crowd (set_worker k j WRecv p) = crowd p) as Hcr.
  { pose proof (crowd_set_worker _ _ _ _ _ WRecv Hk Hj). unfold bz in *. lia. }
  assert (flight (set_worker k j WRecv p) ++ [(S (2 * k), y)] ≡ₚ flight p ++ []) as Hfl.
  { rewrite app_nil_r, (flight_give _ _ _ _ _ Hk Hj). symmetry. apply Permutation_cons_append. }
  pose proof (pmeasure_flight p (set_worker k j WRecv p) [(S (2 * k), y)] [] (acts_set_worker _ _ _ _) eq_refl Hcr Hfl) as E.
  simpl in E. lia.
Qed.

(** A worker panics only on an item that would not have made it through
    the rest of the pipeline. *)
Lemma pexec_panic e p :
  pinv workers p → pexec work e p = Some Panic → None ∈ residual work p.
Proof.
  intros Hp He. apply pexec_cases in He. unfold residual.
  inversion He as
    [ | k j pl c x b Hpl Hw Hc Hb Hwk E1 E2 | |
    | k j pl c y Hpl Hw Hc Hcl E1 E2 |
    | k i j pl c pl' y Hpl Hw Hc Hb Hcl Hpl' Hw' Hwk E1 E2 | ]; subst.
  - apply list_elem_of_fmap. exists (2 * k, x). split.
    + rewrite (rest_of_chan _ _ (act pl)) by (by apply acts_lookup).
      by rewrite Hwk.
    + eapply flight_chan_elem; [done|]. rewrite Hb. by left.
  - pose proof (pinv_closed _ _ Hp _ _ _ Hpl Hc Hcl) as Hall.
    rewrite all_done_Forall in Hall. by specialize (Hall _ _ Hw).
  - apply list_elem_of_fmap. exists (S (2 * k), y). split.
    + rewrite rest_of_sent.
      rewrite (rest_of_chan _ _ (act pl')) by (by apply acts_lookup).
      by rewrite Hwk.
    + by eapply flight_worker_elem.
Qed.

Lemma pexec_panic_worker e p :
  pinv workers p → pexec work e p = Some Panic → 0 < Z.to_nat workers.
Proof.
  intros Hp He. apply pexec_cases in He.
  inversion He as
    [ | k j pl c x b Hpl Hw Hc Hb Hwk E1 E2 | |
    | k j pl c y Hpl Hw Hc Hcl E1 E2 |
    | k i j pl c pl' y Hpl Hw Hc Hb Hcl Hpl' Hw' Hwk E1 E2 | ]; subst;
    apply lookup_lt_Some in Hw; rewrite (pinv_wks _ _ Hp _ _ Hpl) in Hw; lia.
Qed.

(** A closed and drained last channel stays so. *)
Lemma pipe_drained_set_chan p k c c' :
  pipe_drained p → chans p !! k = Some c →
  (closed c = true → buf c = [] → closed c' = true ∧ buf c' = []) →
  pipe_drained (set_chan k c' p).
Proof.
  intros (c0 & Hc0 & Hcl & Hb) Hc H1. unfold pipe_drained; simpl.
  destruct (decide (k = length (pools p))) as [->|Hne].
  - simplify_eq. exists c'. rewrite list_lookup_insert_eq by (by eapply lookup_lt_Some).
    destruct H1; auto.
  - exists c0. by rewrite list_lookup_insert_ne.
Qed.

Lemma pipe_drained_set_worker p k j w :
  pipe_drained p → pipe_drained (set_worker k j w p).
Proof.
  intros (c0 & Hc0 & Hcl & Hb). exists c0. simpl. by rewrite length_alter.
Qed.

Lemma pexec_drained e p p' :
  pipe_drained p → pexec work e p = Some (Next p') → pipe_drained p'.
Proof.
  intros Hd He. pexec_inv He.
  - apply pipe_drained_set_worker. apply (pipe_drained_set_chan _ k c); [done..|].
    simpl. intros _ Hnil. by rewrite Hnil in Hb.
  - by apply pipe_drained_set_worker.
  - apply pipe_drained_set_worker. apply (pipe_drained_set_chan _ (S k) c); [done..|].
    simpl. congruence.
  - by do 2 apply pipe_drained_set_worker.
  - apply (pipe_drained_set_chan _ (S k) c); [done..|]. simpl. congruence.
Qed.

(** Pools without workers move nothing. *)
Lemma pexec_idle e p p' :
  pinv workers p → Z.to_nat workers = 0 →
  pexec work e p = Some (Next p') → flight p' ≡ₚ flight p.
Proof.
  intros Hp HW He.
  assert (∀ k j pl w, pools p !! k = Some pl → wks pl !! j = Some w → False) as Hno.
  { intros k j pl w Hpl Hw. apply lookup_lt_Some in Hw.
    rewrite (pinv_wks _ _ Hp _ _ Hpl) in Hw. lia. }
  pexec_inv He; try (exfalso; by eauto).
  by apply flight_close.
Qed.
End ProcessFacts.

Section BoundedFacts.
Context `{GoValues} {Item Action Acc Res : Type}.
Variable work : Action → Item → option Item.
Variable workers : Z.
Variable stamp : nat → value → Item.
Variable acc0 : nat → Acc.
Variable collect : Item → Acc → coutcome Acc Res.
Variable finish : Acc → Res.
Variable items : list value.

#[local] Abbreviation bexec := (bexec work workers stamp acc0 collect finish items).
#[local] Abbreviation bexec_spec := (bexec_spec work workers stamp acc0 collect finish items).
#[local] Abbreviation binv := (binv work workers stamp acc0 collect finish items).
#[local] Abbreviation bmeasure := (bmeasure workers items).
#[local] Abbreviation collect_all := (collect_all collect).
#[local] Abbreviation stamped := (stamped stamp items).
#[local] Abbreviation collected := (collected collect).
Implicit Types (s : bstate Item Action Acc Res).

Lemma bexec_cases e s o : bexec e s = Some o ↔ bexec_spec s e o.
Proof.
  split.
  - intros He. destruct e; unfold bexec, worker_at, took, chan_room, chan_waiting in He;
      repeat (first [progress simplify_option_eq | case_match]);
      repeat match goal with
      | H : _ && _ = true |- _ => apply andb_true_iff in H as [? ?]
      | H : negb _ = true |- _ => apply negb_true_iff in H
      | H : bool_decide _ = true |- _ => apply bool_decide_eq_true in H
      end;
      try (econstructor; by eauto).
    replace (S (length l)) with (length (pools (pipe s)))
      by (by match goal with H : pools _ = _ |- _ => rewrite H end).
    apply bs_return; try done. congruence.
  - intros Hs. destruct Hs; unfold bexec, worker_at, took, chan_room, chan_waiting;
      repeat (match goal with H : ?l = _ |- context [?l] => rewrite H end; simpl);
      rewrite ?bool_decide_eq_true_2 by done; try done.
    + by destruct (pools (pipe s)).
Qed.

Ltac bexec_inv He :=
  apply bexec_cases in He;
  inversion He as
    [ x c Hx Hc Hcl Hroom E1 E2
    | x c Hx Hc Hcl E1 E2
    | j x c pl y Hx Hc Hb Hcl Hpl Hw Hwk E1 E2
    | j x c pl Hx Hc Hb Hcl Hpl Hw Hwk E1 E2
    | c Hc Hlen Hcl E1 E2
    | p' Hm Hcr E1 E2
    | Hm Ht Hpl E1 E2
    | Hm Ht Hpl E1 E2
    | e' p' Hpe E1 E2
    | e' Hpe E1 E2
    | ch a c x b Hm Hc Hb E1 E2
    | k a c i pl y Hm Hc Hb Hcl Hpl Hw E1 E2
    | ch a c Hm Hc Hb Hcl E1 E2 ]; subst; clear He.

Lemma collect_all_app (l l' : list Item) a0 :
  collect_all (l ++ l') a0 =
  match collect_all l a0 with
  | CNext a => collect_all l' a
  | o => o
  end.
Proof.
  revert a0. induction l as [|e l IH]; intros a0; simpl; [done|].
  by destruct (collect e a0).
Qed.

Lemma collect_all_snoc (l : list Item) a0 a e :
  collect_all l a0 = CNext a → collect_all (l ++ [e]) a0 = collect e a.
Proof.
  intros Hl. rewrite collect_all_app, Hl. simpl. by destruct (collect e a).
Qed.

Lemma stamped_lookup i x : items !! i = Some x → stamped !! i = Some (stamp i x).
Proof. intros Hi. unfold stamped. by rewrite list_lookup_imap, Hi. Qed.

Lemma stamped_length : length stamped = length items.
Proof. apply length_imap. Qed.

Lemma binv_init actions : binv actions [] (binit items actions).
Proof.
  split; simpl.
  - by split.
  - done.
  - lia.
  - by intros c [= <-].
  - done.
  - intros _. split; [done|]. unfold flight; simpl. by intros e ?%elem_of_nil.
  - done.
Qed.

#[local] Abbreviation main_ok := (main_ok work workers stamp acc0 collect finish items).

Lemma main_ok_pipe actions seen (p p' : pipeline Item Action) m :
  todo p' = todo p → length (pools p') = length (pools p) →
  main_ok actions seen p m → main_ok actions seen p' m.
Proof. unfold main_ok. by intros -> ->. Qed.

Lemma idle_no_worker (p : pipeline Item Action) k j pl w :
  pinv workers p → Z.to_nat workers = 0 →
  pools p !! k = Some pl → wks pl !! j = Some w → False.
Proof.
  intros Hp HW Hpl Hw. apply lookup_lt_Some in Hw.
  rewrite (pinv_wks _ _ Hp _ _ Hpl) in Hw. lia.
Qed.

Lemma residual_perm (p p' : pipeline Item Action) Q :
  acts p' = acts p → flight p' ≡ₚ Q ++ flight p →
  residual work p' ≡ₚ (rest_of work (acts p) <$> Q) ++ residual work p.
Proof. intros Ha Hf. unfold residual. by rewrite Ha, Hf, fmap_app. Qed.

Lemma binv_step actions seen s e s' :
  binv actions seen s → bexec e s = Some (Next s') →
  ∃ seen', binv actions seen' s'.
Proof.
  intros Hinv He. bexec_inv He;
    destruct Hinv as [Hp Ha Hf Hcl0 Hflow Hidle Hmain]; simpl in *.
  - (* feeder: buffered send *)
    exists seen. split; simpl.
    + apply (pinv_set_chan _ _ 0 c); try done; simpl; [by left|congruence].
    + exact Ha.
    + apply lookup_lt_Some in Hx. lia.
    + intros c'. rewrite list_lookup_insert_eq by (by eapply lookup_lt_Some).
      intros [= <-]. simpl. congruence.
    + rewrite (take_S_r _ _ _ (stamped_lookup _ _ Hx)), fmap_app. simpl.
      rewrite Hflow, (residual_push _ _ 0 c) by done.
      rewrite Ha, rest_of_source. simpl.
      by rewrite <-Permutation_cons_append.
    + intros HW. destruct (Hidle HW) as [-> Hfl]. split; [done|].
      intros e. rewrite (flight_push _ 0 c) by done.
      intros [->|?]%elem_of_cons; eauto.
    + by apply (main_ok_pipe _ _ (pipe s)).
  - (* feeder: direct send *)
    exists seen. split; simpl.
    + apply (pinv_set_worker _ _ 0 j pl WRecv); done.
    + rewrite acts_set_worker. exact Ha.
    + apply lookup_lt_Some in Hx. lia.
    + intros c' Hc' Hcl'. congruence.
    + rewrite (take_S_r _ _ _ (stamped_lookup _ _ Hx)), fmap_app. simpl.
      rewrite Hflow, (residual_take _ _ 0 j pl) by done.
      rewrite <-rest_of_source, <-Ha.
      rewrite (rest_of_chan _ _ 0 (act pl)) by (by apply acts_lookup).
      rewrite Hwk. simpl. by rewrite <-Permutation_cons_append.
    + intros HW. destruct (idle_no_worker _ _ _ _ _ Hp HW Hpl Hw).
    + apply (main_ok_pipe _ _ (pipe s)); simpl; [done| |done]. by rewrite length_alter.
  - (* feeder: close *)
    exists seen. split; simpl.
    + apply (pinv_set_chan _ _ 0 c); [done|done| |]; simpl; [|congruence].
      intros _. right. intros; lia.
    + exact Ha.
    + done.
    + intros; lia.
    + by rewrite (residual_close _ _ 0 c).
    + intros HW. destruct (Hidle HW) as [-> Hfl]. split; [done|].
      intros e. rewrite (flight_close _ 0 c) by done. eauto.
    + by apply (main_ok_pipe _ _ (pipe s)).
  - (* process: one more pool *)
    destruct (create_facts _ _ _ Hcr) as (Ha' & Hfl' & _ & Ht' & Hpl').
    exists seen. split; simpl.
    + by eapply create_pinv.
    + by rewrite Ha'.
    + done.
    + intros c Hc. apply Hcl0. unfold create in Hcr.
      destruct (todo (pipe s)); [done|]. simplify_eq. simpl in Hc.
      rewrite lookup_app_l in Hc; [done|]. rewrite (pinv_len _ _ Hp). lia.
    + by rewrite (create_residual _ _ _ _ Hcr).
    + rewrite Hfl'. done.
    + rewrite Hm in *. done.
  - (* process returns the last channel *)
    exists seen. split; simpl; try done.
    rewrite Hm in Hmain. simpl in Hmain. subst seen.
    split; [done|]. split; [done|]. split; [|done].
    destruct (pools (pipe s)); simpl; [done|lia].
  - (* a worker or a closer *)
    destruct (pexec_flight _ _ _ _ Hpe) as (Ha' & Ht' & _).
    destruct (pexec_pools_length _ _ _ _ Hpe) as [Hpl' _].
    exists seen. split; simpl.
    + by eapply pexec_pinv.
    + by rewrite Ha'.
    + done.
    + intros c' Hc' Hcl'.
      destruct (pexec_source _ _ _ _ _ Hpe Hc') as (c & Hc & Heq).
      apply (Hcl0 c); congruence.
    + by rewrite (pexec_residual _ _ _ _ Hpe).
    + intros HW. destruct (Hidle HW) as [-> Hfl]. split; [done|].
      intros e. rewrite (pexec_idle _ _ _ _ _ Hp HW Hpe). eauto.
    + by apply (main_ok_pipe _ _ (pipe s)).
  - (* collector: from the buffer *)
    rewrite Hm in Hmain. destruct Hmain as (Ht & -> & Hpos & Hall).
    assert (length (acts (pipe s)) ≤ length (pools (pipe s))) as Hexit.
    { unfold acts. rewrite Ht, app_nil_r, length_fmap. done. }
    exists (seen ++ [x]). unfold collected in E2.
    destruct (collect x a) as [a'|r|] eqn:Hcol; simplify_eq; split; simpl;
      try exact Ha; try done;
      try (apply (pinv_set_chan _ _ _ c); try done; simpl; [by left|];
           by intros _ Hnil; rewrite Hnil in Hb);
      try (intros c'; rewrite list_lookup_insert_ne by lia; by apply Hcl0);
      try (rewrite Hflow, (residual_pop _ _ _ c x b) by done;
           rewrite rest_of_exit by done; rewrite fmap_app; simpl;
           rewrite (assoc app); by rewrite <-Permutation_cons_append);
      try (intros HW; destruct (Hidle HW) as [_ Hfl];
           specialize (Hfl (2 * length (pools (pipe s)), x)); simpl in Hfl;
           exfalso; cut (2 * length (pools (pipe s)) = 0); [lia|];
           apply Hfl; eapply flight_chan_elem; [done|]; rewrite Hb; by left).
    + split; [done|]. split; [done|].
      split; [done|]. by rewrite (collect_all_snoc _ _ _ _ Hall).
    + split; [done|]. split; [done|].
      left. by rewrite (collect_all_snoc _ _ _ _ Hall).
  - (* collector: straight from a worker *)
    rewrite Hm in Hmain. destruct Hmain as (Ht & Hch & Hpos & Hall).
    assert (length (acts (pipe s)) ≤ S k) as Hexit.
    { unfold acts. rewrite Ht, app_nil_r, length_fmap. lia. }
    exists (seen ++ [y]). unfold collected in E2.
    destruct (collect y a) as [a'|r|] eqn:Hcol; simplify_eq; split; simpl;
      try apply acts_set_worker; try done;
      try (by apply (pinv_set_worker _ _ k i pl (WSend y)));
      try (rewrite Hflow, (residual_give _ _ k i pl y) by done;
           rewrite rest_of_sent, rest_of_exit by done; rewrite fmap_app; simpl;
           rewrite (assoc app); by rewrite <-Permutation_cons_append);
      try (intros HW; destruct (idle_no_worker _ _ _ _ _ Hp HW Hpl Hw)).
    + split; [done|]. rewrite length_alter. split; [done|].
      split; [done|]. by rewrite (collect_all_snoc _ _ _ _ Hall).
    + split; [done|]. rewrite length_alter. split; [lia|].
      left. by rewrite (collect_all_snoc _ _ _ _ Hall).
  - (* collector: the channel is closed and drained *)
    exists seen. split; simpl; try done.
    rewrite Hm in Hmain. destruct Hmain as (Ht & -> & Hpos & Hall).
    split; [done|]. split; [done|].
    right. exists a. split; [done|]. split; [done|]. intros HW.
    destruct (drained_upstream _ _ _ _ Hp HW (le_n _) Hc Hcl Hb) as [H0 _].
    destruct (lookup_lt_is_Some_2 (chans (pipe s)) 0) as [c0 Hc0].
    { rewrite (pinv_len _ _ Hp). lia. }
    destruct (H0 0 c0) as [Hcl0' _]; [lia|done|].
    rewrite (Hcl0 _ Hc0 Hcl0') in Hflow.
    rewrite take_ge in Hflow by (by rewrite stamped_length).
    rewrite Hflow. unfold residual.
    by rewrite (drained_flight _ _ _ Hp HW Hc Hcl Hb).
Qed.

Lemma weight_exit (n k : nat) (x : Item) : k ≤ n → 0 < weight n (2 * k, x).
Proof. unfold weight; simpl. lia. Qed.

Lemma bmeasure_step actions seen s e o :
  binv actions seen s → bexec e s = Some o →
  bmeasure o < bmeasure (Next s).
Proof.
  intros Hinv He. destruct o as [s'|]; [|unfold bmeasure; nia].
  unfold bmeasure.
  bexec_inv He; destruct Hinv as [Hp Ha Hf Hcl0 Hflow Hidle Hmain]; simpl in *.
  - rewrite (pmeasure_push _ _ 0 c) by done.
    change (acts (set_chan 0 _ (pipe s))) with (acts (pipe s)).
    apply lookup_lt_Some in Hx. unfold weight; simpl.
    replace (length items - fpos s) with (S (length items - S (fpos s))) by lia.
    lia.
  - rewrite (pmeasure_take _ _ 0 j pl) by done. rewrite acts_set_worker.
    apply lookup_lt_Some in Hx. unfold weight; simpl.
    replace (length items - fpos s) with (S (length items - S (fpos s))) by lia.
    lia.
  - rewrite <-(pmeasure_close _ (pipe s) 0 c) by done.
    change (acts (set_chan 0 _ (pipe s))) with (acts (pipe s)). lia.
  - pose proof (create_measure _ _ _ Hcr).
    destruct (create_facts _ _ _ Hcr) as (-> & _). lia.
  - rewrite Hm. simpl. lia.
  - pose proof (pexec_measure _ workers _ _ _ Hpe).
    destruct (pexec_flight _ _ _ _ Hpe) as (-> & _). lia.
  - rewrite Hm in *. destruct Hmain as (Ht & -> & Hpos & Hall).
    rewrite (pmeasure_pop _ (pipe s) _ c x b) by done.
    pose proof (weight_exit (length (acts (pipe s))) (length (pools (pipe s))) x) as Hwt.
    unfold acts in Hwt at 1. rewrite Ht, app_nil_r, length_fmap in Hwt.
    specialize (Hwt (le_n _)). unfold collected in E2.
    destruct (collect x a); simplify_eq; simpl;
      change (acts (set_chan _ _ (pipe s))) with (acts (pipe s)); lia.
  - rewrite Hm in *. destruct Hmain as (Ht & Hch & Hpos & Hall).
    rewrite (pmeasure_give _ (pipe s) k i pl y) by done.
    assert (0 < weight (length (acts (pipe s))) (S (2 * k), y)) as Hwt.
    { unfold acts. rewrite Ht, app_nil_r, length_fmap.
      unfold weight; simpl. lia. }
    unfold collected in E2.
    destruct (collect y a); simplify_eq; simpl;
      rewrite acts_set_worker; lia.
  - rewrite Hm. simpl. lia.
Qed.

Lemma bprogress actions seen s :
  binv actions seen s → bresult (Next s) = None →
  ∃ e o, bexec e s = Some o.
Proof.
  intros [Hp Ha Hf Hcl0 Hflow Hidle Hmain] Hres.
  destruct s as [n p m]; simpl in *. destruct m as [|ch a|r]; [| |done].
  - (* inside process *)
    destruct (todo p) as [|a rest] eqn:Ht.
    + exists BProcessReturn. destruct (pools p) eqn:Hpl.
      * eexists. apply bexec_cases. by apply bs_return_panic.
      * eexists. apply bexec_cases. apply bs_return; simpl; congruence.
    + exists BCreate. eexists. apply bexec_cases. apply bs_create; [done|].
      simpl. unfold create. by rewrite Ht.
  - (* collecting *)
    destruct Hmain as (Ht & -> & Hpos & Hall).
    destruct (lookup_lt_is_Some_2 (chans p) (length (pools p))) as [c Hc].
    { rewrite (pinv_len _ _ Hp). lia. }
    destruct (buf c) as [|x b] eqn:Hb.
    2:{ exists BCollect. eexists. apply bexec_cases. by eapply bs_collect. }
    destruct (closed c) eqn:Hcl.
    { exists BCollectEnd. eexists. apply bexec_cases. by eapply bs_collect_end. }
    destruct (pipe_progress work workers p (length (pools p)) Hp (le_n _))
      as [(e & o & He)|[(k & i & y & Hk & _ & Hw)|(c0 & Hc0 & Hb0 & Hcl0' & Hj)]].
    + eauto.
    + intros; lia.
    + exists (BPipe e). destruct o as [p'|].
      * eexists. apply bexec_cases. by apply bs_pipe.
      * eexists. apply bexec_cases. by apply bs_pipe_panic.
    + apply worker_at_Some in Hw as (pl & Hpl & Hw).
      exists (BCollectHand i). eexists. apply bexec_cases.
      eapply bs_collect_hand with (k := k) (c := c) (a := a); simpl; eauto;
        by rewrite <-Hk.
    + destruct (Hj Hpos) as [j Hw].
      apply worker_at_Some in Hw as (pl & Hpl & Hw).
      destruct (items !! n) as [x|] eqn:Hx.
      * exists (BFeedHand j).
        destruct (work (act pl) (stamp n x)) as [y|] eqn:Hwk.
        -- eexists. apply bexec_cases. by eapply bs_feed_hand.
        -- eexists. apply bexec_cases. by eapply bs_feed_hand_panic.
      * exists BFeedClose. eexists. apply bexec_cases.
        eapply bs_feed_close; simpl; [done| |done].
        by apply lookup_ge_None.
Qed.

Lemma flow_elem actions seen s r :
  binv actions seen s → r ∈ residual work (pipe s) →
  ∃ i x, items !! i = Some x ∧ r = run work actions (stamp i x).
Proof.
  intros Hinv Hr.
  assert (r ∈ run work actions <$> take (fpos s) stamped) as Hin.
  { rewrite (bi_flow _ _ _ _ _ _ _ _ _ _ Hinv). apply elem_of_app. by left. }
  apply list_elem_of_fmap in Hin as (y & -> & Hy).
  apply list_elem_of_lookup in Hy as [i Hi].
  apply lookup_take_Some in Hi as [Hi _].
  unfold stamped in Hi. rewrite list_lookup_imap in Hi.
  destruct (items !! i) as [x|] eqn:Hx; simplify_eq/=. eauto.
Qed.

(** The only ways a bounded call can panic. *)
Lemma bexec_panic actions seen s e :
  binv actions seen s → bexec e s = Some Panic →
  actions = [] ∨
  0 < Z.to_nat workers ∧
  ((∃ i x, items !! i = Some x ∧ run work actions (stamp i x) = None) ∨
   (∃ i x y a, items !! i = Some x ∧ run work actions (stamp i x) = Some y ∧
               collect_all seen (acc0 (length items)) = CNext a ∧
               collect y a = CPanic)).
Proof.
  intros Hinv He. apply bexec_cases in He.
  inversion He as
    [ | x c Hx Hc Hcl E1 E2 |
    | j x c pl Hx Hc Hb Hcl Hpl Hw Hwk E1 E2 | | |
    | Hm Ht Hpl E1 E2 |
    | e' Hpe E1 E2
    | ch a c x b Hm Hc Hb E1 E2
    | k a c i pl y Hm Hc Hb Hcl Hpl Hw E1 E2 | ]; subst;
    pose proof Hinv as [Hp Ha Hf Hcl0 Hflow Hidle Hmain].
  - apply lookup_lt_Some in Hx. specialize (Hcl0 _ Hc Hcl). lia.
  - right. split.
    { apply lookup_lt_Some in Hw. rewrite (pinv_wks _ _ Hp _ _ Hpl) in Hw. lia. }
    left. exists (fpos s), x. split; [done|].
    rewrite <-Ha, <-rest_of_source.
    rewrite (rest_of_chan _ _ 0 (act pl)) by (by apply acts_lookup).
    by rewrite Hwk.
  - left. rewrite <-Ha. unfold acts. by rewrite Ht, Hpl.
  - right. split; [by eapply pexec_panic_worker|].
    left. apply (pexec_panic _ _ _ _ Hp) in Hpe.
    destruct (flow_elem _ _ _ _ Hinv Hpe) as (i & x & ? & ?). eauto.
  - rewrite Hm in Hmain. destruct Hmain as (Ht & -> & Hpos & Hall).
    assert ((2 * length (pools (pipe s)), x) ∈ flight (pipe s)) as Hfl.
    { eapply flight_chan_elem; [done|]. rewrite Hb. by left. }
    right. split.
    { destruct (Z.to_nat workers) eqn:HW; [|lia].
      destruct (Hidle eq_refl) as [_ Hz]. specialize (Hz _ Hfl). simpl in Hz. lia. }
    right. unfold collected in E2.
    destruct (collect x a) eqn:Hcol; try done.
    destruct (flow_elem actions seen s (Some x) Hinv) as (i & x0 & ? & ?).
    { unfold residual. apply list_elem_of_fmap.
      exists (2 * length (pools (pipe s)), x). split.
      - rewrite rest_of_exit; [done|].
        unfold acts. by rewrite Ht, app_nil_r, length_fmap.
      - eapply flight_chan_elem; [done|]. rewrite Hb. by left. }
    exists i, x0, x, a. eauto.
  - rewrite Hm in Hmain. destruct Hmain as (Ht & Hch & Hpos & Hall).
    right. split.
    { apply lookup_lt_Some in Hw. rewrite (pinv_wks _ _ Hp _ _ Hpl) in Hw. lia. }
    right. unfold collected in E2.
    destruct (collect y a) eqn:Hcol; try done.
    destruct (flow_elem actions seen s (Some y) Hinv) as (i' & x0 & ? & ?).
    { unfold residual. apply list_elem_of_fmap.
      exists (S (2 * k), y). split.
      - rewrite rest_of_sent, rest_of_exit; [done|].
        unfold acts. rewrite Ht, app_nil_r, length_fmap. lia.
      - by eapply flight_worker_elem. }
    exists i', x0, y, a. eauto.
Qed.

(** Every reachable state that has not panicked satisfies the invariant. *)
Lemma reachable_binv actions c :
  reachable (bounded_call work workers stamp acc0 collect finish items actions) c →
  c = Panic ∨ ∃ s seen, c = Next s ∧ binv actions seen s.
Proof.
  unfold reachable. revert c. apply rtc_ind_r.
  - right. exists (binit items actions), []. split; [done|]. apply binv_init.
  - intros c c' Hr Hstep IH. destruct Hstep as (s & e & -> & He).
    destruct IH as [?|(s0 & seen & [= <-] & Hinv)]; [done|].
    destruct c' as [s'|]; [|by left]. right.
    destruct (binv_step _ _ _ _ _ Hinv He) as [seen' ?]. eauto.
Qed.

#[local] Abbreviation bounded_call :=
  (bounded_call work workers stamp acc0 collect finish items).

Lemma seen_elem actions seen s e :
  binv actions seen s → e ∈ seen →
  ∃ i x, items !! i = Some x ∧ run work actions (stamp i x) = Some e.
Proof.
  intros Hinv He.
  assert (Some e ∈ run work actions <$> take (fpos s) stamped) as Hin.
  { rewrite (bi_flow _ _ _ _ _ _ _ _ _ _ Hinv). apply elem_of_app. right.
    by apply list_elem_of_fmap_2. }
  apply list_elem_of_fmap in Hin as (y & Hy & Hin).
  apply list_elem_of_lookup in Hin as [i Hi].
  apply lookup_take_Some in Hi as [Hi _].
  unfold stamped in Hi. rewrite list_lookup_imap in Hi.
  destruct (items !! i) as [x|] eqn:Hx; simplify_eq/=. eauto.
Qed.

Lemma bounded_measure actions c c' :
  reachable (bounded_call actions) c → step (bounded_call actions) c c' →
  bmeasure c' < bmeasure c.
Proof.
  intros Hr (s & e & -> & He).
  destruct (reachable_binv _ _ Hr) as [?|(s0 & seen & [= <-] & Hinv)]; [done|].
  by eapply bmeasure_step.
Qed.

Lemma bounded_progress actions c :
  reachable (bounded_call actions) c → c ≠ Panic →
  result (bounded_call actions) c = None →
  ∃ c', step (bounded_call actions) c c'.
Proof.
  intros Hr Hc Hres.
  destruct (reachable_binv _ _ Hr) as [?|(s & seen & -> & Hinv)]; [done|].
  destruct (bprogress _ _ _ Hinv Hres) as (e & o & He).
  exists o, s, e. done.
Qed.

(** A bounded call returns in every run when no item makes a worker or
    the collector panic. *)
Lemma bounded_returns actions (P : Res → Prop) :
  actions ≠ [] →
  (0 < Z.to_nat workers →
   ∀ i x, items !! i = Some x → run work actions (stamp i x) ≠ None) →
  (0 < Z.to_nat workers →
   ∀ seen s i x y a,
     binv actions seen s → items !! i = Some x →
     run work actions (stamp i x) = Some y →
     collect_all seen (acc0 (length items)) = CNext a →
     collect y a ≠ CPanic) →
  (∀ seen s r, binv actions seen s → main s = MDone r → P r) →
  returns (bounded_call actions) P.
Proof.
  intros Hne Hrun Hcol HP.
  assert (∀ c, reachable (bounded_call actions) c → c ≠ Panic) as Hsafe.
  { unfold reachable. apply rtc_ind_r; [done|].
    intros c c' Hr (s & e & -> & He) _ ->.
    destruct (reachable_binv _ _ Hr) as [?|(s0 & seen & [= <-] & Hinv)]; [done|].
    destruct (bexec_panic _ _ _ _ Hinv He)
      as [?|[HW [(i & x & Hx & Hnone)|(i & x & y & a & Hx & Hy & Hall & Hp)]]].
    - done.
    - by eapply Hrun.
    - by eapply (Hcol HW seen). }
  split.
  - intros c Hr. split; [by apply Hsafe|]. split.
    + intros r Hres.
      destruct (reachable_binv _ _ Hr) as [->|(s & seen & -> & Hinv)]; [done|].
      simpl in Hres. destruct s as [n p [| |r']]; simplify_eq/=.
      by eapply (HP seen).
    + intros Hres. apply bounded_progress; auto.
  - exists bmeasure. apply bounded_measure.
Qed.

(** With no action at all, [process] indexes an empty slice. *)
Lemma bounded_panics : panics (bounded_call []).
Proof.
  assert (∀ c, reachable (bounded_call []) c →
               c = Panic ∨ ∃ s, c = Next s ∧ main s = MProcess) as Hinv.
  { intros c Hr.
    destruct (reachable_binv _ _ Hr) as [->|(s & seen & -> & Hinv)]; [by left|].
    right. exists s. split; [done|].
    pose proof (bi_acts _ _ _ _ _ _ _ _ _ _ Hinv) as Ha.
    pose proof (bi_main _ _ _ _ _ _ _ _ _ _ Hinv) as Hm.
    unfold acts in Ha. apply app_eq_nil in Ha as [Hpl%fmap_nil_inv _].
    destruct (main s) as [|ch a|r]; [done|..]; simpl in Hm; rewrite Hpl in Hm;
      simpl in Hm; lia. }
  split.
  - intros c Hr. destruct (Hinv c Hr) as [->|(s & -> & Hm)].
    + split; [done|]. by intros [].
    + split; [by destruct s; simplify_eq/=|]. intros _.
      apply bounded_progress; [done..|]. by destruct s; simplify_eq/=.
  - exists bmeasure. apply bounded_measure.
Qed.

#[local] Abbreviation brun := (brun work workers stamp acc0 collect finish items).

Lemma brun_rtc actions es c c' :
  brun es c = Some c' → rtc (step (bounded_call actions)) c c'.
Proof.
  revert c. induction es as [|e es IH]; intros c; simpl.
  - intros [= <-]. done.
  - destruct c as [s|]; [|done]. destruct (bexec e s) as [c1|] eqn:He; [|done].
    simpl. intros Hrun. eapply rtc_l; [|by apply IH]. by exists s, e.
Qed.

(** A schedule that brings the first item to the second pool. *)
Lemma run_to_second_pool a a' rest x0 y :
  0 < Z.to_nat workers → items !! 0 = Some x0 →
  work a (stamp 0 x0) = Some y →
  brun [BCreate; BFeedHand 0; BCreate; BPipe (PHand 0 0 0)]
       (Next (binit items (a :: a' :: rest)))
  = Some (match work a' y with
          | Some y' =>
              Next (BState 1
                     (Pipeline [make_chan (length items); make_chan 0; make_chan 0]
                        [Pool a (<[0 := WRecv]> (replicate (Z.to_nat workers) WRecv));
                         Pool a' (<[0 := WSend y']> (replicate (Z.to_nat workers) WRecv))]
                        rest)
                     MProcess)
          | None => Panic
          end).
Proof.
  intros HW Hx Hy. destruct (Z.to_nat workers) as [|n] eqn:Hn; [lia|].
  unfold brun, bexec, create, len_items, pexec, worker_at, took,
    chan_waiting, with_pipe; simpl.
  rewrite Hn; simpl. rewrite Hx; simpl. rewrite Hy; simpl.
  by destruct (work a' y).
Qed.

(** A schedule that makes the first pool hold its first result. *)
Lemma run_to_first_pool a rest x0 y :
  0 < Z.to_nat workers → items !! 0 = Some x0 →
  work a (stamp 0 x0) = Some y →
  brun [BCreate; BFeedHand 0] (Next (binit items (a :: rest)))
  = Some (Next (BState 1
                  (Pipeline [make_chan (length items); make_chan 0]
                     [Pool a (<[0 := WSend y]> (replicate (Z.to_nat workers) WRecv))]
                     rest)
                  MProcess)).
Proof.
  intros HW Hx Hy. destruct (Z.to_nat workers) as [|n] eqn:Hn; [lia|].
  unfold brun, bexec, create, len_items, pexec, worker_at, took,
    chan_waiting, with_pipe; simpl.
  rewrite Hn; simpl. rewrite Hx; simpl. by rewrite Hy.
Qed.

(** Without workers the call returns what the collector makes of
    nothing. *)
Lemma bounded_idle_returns actions :
  Z.to_nat workers = 0 → actions ≠ [] →
  returns (bounded_call actions) (λ r, r = finish (acc0 (length items))).
Proof.
  intros HW Hne. apply bounded_returns; [done|intros; lia..|].
  intros seen s r Hinv Hm.
  destruct (bi_idle _ _ _ _ _ _ _ _ _ _ Hinv HW) as [-> _].
  pose proof (bi_main _ _ _ _ _ _ _ _ _ _ Hinv) as Hmain.
  rewrite Hm in Hmain. simpl in Hmain.
  destruct Hmain as (_ & _ & [?|(a & [= <-] & -> & _)]); done.
Qed.

Lemma bounded_idle_flight actions s e :
  Z.to_nat workers = 0 →
  reachable (bounded_call actions) (Next s) → e ∈ flight (pipe s) → e.1 = 0.
Proof.
  intros HW Hr He.
  destruct (reachable_binv _ _ Hr) as [?|(s0 & seen & [= <-] & Hinv)]; [done|].
  destruct (bi_idle _ _ _ _ _ _ _ _ _ _ Hinv HW) as [_ Hfl]. auto.
Qed.

(** When every item makes it through the pipeline, the next worker
    accepts whatever it finds between two pools. *)
Lemma intermediate_accepted actions s pos x :
  (∀ i x, items !! i = Some x → run work actions (stamp i x) ≠ None) →
  reachable (bounded_call actions) (Next s) → actions ≠ [] →
  (pos, x) ∈ flight (pipe s) → pos ≤ 2 * length actions - 2 →
  ∃ a, a ∈ actions ∧ work a x ≠ None.
Proof.
  intros Hrun Hr Hne He Hpos.
  assert (0 < length actions) by (destruct actions; simpl; [done|lia]).
  destruct (reachable_binv _ _ Hr) as [?|(s0 & seen & [= <-] & Hinv)]; [done|].
  destruct (flow_elem actions seen s (rest_of work (acts (pipe s)) (pos, x)) Hinv)
    as (i & x0 & Hx0 & Hrest).
  { unfold residual. by apply list_elem_of_fmap_2. }
  rewrite (bi_acts _ _ _ _ _ _ _ _ _ _ Hinv) in Hrest.
  unfold rest_of in Hrest; simpl in Hrest.
  destruct (drop (Nat.div2 (S pos)) actions) as [|a l] eqn:Hdrop.
  - apply (f_equal length) in Hdrop. rewrite length_drop in Hdrop. simpl in Hdrop.
    assert (Nat.div2 (S pos) < length actions); [|lia].
    destruct (Nat.even (S pos)) eqn:Hev.
    + apply Nat.even_spec in Hev as [k Hk]. rewrite Hk, Nat.div2_double. lia.
    + rewrite <-Nat.negb_odd in Hev. apply negb_false_iff, Nat.odd_spec in Hev as [k Hk].
      rewrite Hk. replace (2 * k + 1) with (S (2 * k)) by lia.
      rewrite Nat.div2_succ_double. lia.
  - exists a. split.
    + apply list_elem_of_lookup. exists (Nat.div2 (S pos) + 0).
      by rewrite <-lookup_drop, Hdrop.
    + simpl in Hrest. intros Hnone. rewrite Hnone in Hrest. simpl in Hrest.
      by eapply Hrun.
Qed.

(** When the second pool rejects what the first pool makes of the first
    item, some run panics, and some run has that item between the two
    pools. *)
Lemma second_pool_rejects a a' rest x0 y :
  0 < Z.to_nat workers → items !! 0 = Some x0 →
  work a (stamp 0 x0) = Some y → work a' y = None →
  reachable (bounded_call (a :: a' :: rest)) Panic ∧
  ∃ s, reachable (bounded_call (a :: a' :: rest)) (Next s) ∧
       between_pools (length (a :: a' :: rest)) s y.
Proof.
  intros HW Hx Hy Hy'. split.
  - eapply (brun_rtc _ [BCreate; BFeedHand 0; BCreate; BPipe (PHand 0 0 0)]).
    etrans; [by apply (run_to_second_pool a a' rest x0 y)|]. by rewrite Hy'.
  - eexists. split.
    + eapply (brun_rtc _ [BCreate; BFeedHand 0]).
      by apply (run_to_first_pool a (a' :: rest) x0 y).
    + exists 1. split; [|simpl; lia].
      apply (flight_worker_elem _ 0 0 (Pool a (<[0:=WSend y]> (replicate (Z.to_nat workers) WRecv)))); [done|].
      simpl. apply list_lookup_insert_eq. by rewrite length_replicate.
Qed.
End BoundedFacts.

(** ** A collecting loop that stores by index *)
Section Storing.
Context `{GoValues} {Item Res : Type}.
Variable idx : Item → nat.
Variable val : Item → value.
Variable collect : Item → list value → coutcome (list value) Res.
Hypothesis collect_next :
  ∀ e a a', collect e a = CNext a' → a' = <[idx e := val e]> a.

Lemma collect_all_store seen a0 a :
  collect_all collect seen a0 = CNext a →
  length a = length a0 ∧
  ∀ i v, i < length a0 →
         (∃ e, e ∈ seen ∧ idx e = i) →
         (∀ e, e ∈ seen → idx e = i → val e = v) →
         a !! i = Some v.
Proof.
  revert a. induction seen as [|e seen IH] using rev_ind; intros a.
  - simpl. intros [= <-]. split; [done|]. by intros i v _ (e & ?%elem_of_nil & _).
  - rewrite collect_all_app.
    destruct (collect_all collect seen a0) as [a1| |] eqn:Hseen; try done.
    simpl. destruct (collect e a1) as [a'| |] eqn:He; try done.
    intros [= <-]. apply collect_next in He as ->.
    destruct (IH a1 eq_refl) as [Hlen IH']. split; [by rewrite length_insert|].
    intros i v Hi (e' & Hin & Hidx) Hval.
    destruct (decide (idx e = i)) as [<-|Hne].
    + rewrite list_lookup_insert_eq by lia. f_equal. apply Hval; [|done].
      apply elem_of_app. right. by left.
    + rewrite list_lookup_insert_ne by done. apply IH'; [done| |].
      * exists e'. split; [|done].
        apply elem_of_app in Hin as [?|Hin]; [done|].
        apply list_elem_of_singleton in Hin. by subst.
      * intros e'' Hin'' ?. apply Hval; [|done]. apply elem_of_app. by left.
Qed.

Lemma collect_all_seen_next seen a0 a e :
  collect_all collect seen a0 = CNext a → e ∈ seen →
  ∃ a1 a2, collect e a1 = CNext a2.
Proof.
  revert a0. induction seen as [|e' seen IH]; intros a0; simpl; [by intros _ ?%elem_of_nil|].
  destruct (collect e' a0) as [a1| |] eqn:He'; try done.
  intros Hall [->|Hin]%elem_of_cons; eauto.
Qed.

Lemma collect_all_return seen a0 r :
  collect_all collect seen a0 = CReturn r →
  ∃ e a1, e ∈ seen ∧ collect e a1 = CReturn r.
Proof.
  revert a0. induction seen as [|e' seen IH]; intros a0; simpl; [done|].
  destruct (collect e' a0) as [a1|r'|] eqn:He'; try done.
  - intros (e & a2 & Hin & He)%IH. exists e, a2. split; [by right|done].
  - intros [= <-]. exists e', a0. split; [by left|done].
Qed.
End Storing.

(** ** [Transform] *)
Section TransformFacts.
Context `{GoValues}.
Variable Input Output : gotype.
Implicit Types (actions : list TransformAction) (items : list value).

Lemma assert_Some T (x : value) : typeof x = T → assert T x = Some x.
Proof. intros Hx. unfold assert. by rewrite decide_True. Qed.

Lemma assert_Some_inv T (x y : value) : assert T x = Some y → y = x ∧ typeof x = T.
Proof. unfold assert. case_decide; naive_solver. Qed.

Lemma Transform_worker_Some (f : TransformAction) e y :
  Transform_worker Input f e = Some y →
  typeof (Item e) = Input ∧ y = mkIndexedItem (Index e) (f (Item e)).
Proof.
  unfold Transform_worker. destruct (assert Input (Item e)) as [x|] eqn:Hx; [|done].
  apply assert_Some_inv in Hx as [-> ?]. simpl. by intros [= <-].
Qed.

Lemma Transform_worker_ok (f : TransformAction) e :
  typeof (Item e) = Input →
  Transform_worker Input f e = Some (mkIndexedItem (Index e) (f (Item e))).
Proof. intros He. unfold Transform_worker. by rewrite (assert_Some _ _ He). Qed.

Lemma Transform_worker_mismatch (f : TransformAction) e :
  typeof (Item e) ≠ Input → Transform_worker Input f e = None.
Proof.
  intros He. unfold Transform_worker, assert. by rewrite decide_False.
Qed.

(** A chain of well-typed stages passes an item when the types of
    adjacent stages agree. *)
Lemma run_Transform actions i x :
  Forall (action_typed Input Output) actions → typeof x = Input →
  length actions ≤ 1 ∨ Output = Input →
  run (Transform_worker Input) actions (mkIndexedItem i x)
  = Some (mkIndexedItem i (apply_all actions x)).
Proof.
  intros Hty Hx Hadj. revert x Hx.
  induction Hty as [|f actions Hf Hty IH]; intros x Hx; simpl; [done|].
  rewrite Transform_worker_ok by done. simpl.
  destruct actions as [|g actions]; [done|].
  destruct Hadj as [?|Heq]; [simpl in *; lia|].
  apply IH; [by right|]. rewrite <-Heq. by apply Hf.
Qed.

Lemma apply_all_typed actions x :
  Forall (action_typed Input Output) actions → typeof x = Input →
  length actions ≤ 1 ∨ Output = Input →
  actions ≠ [] → typeof (apply_all actions x) = Output.
Proof.
  intros Hty Hx Hadj. revert x Hx.
  induction Hty as [|f actions Hf Hty IH]; intros x Hx Hne; [done|].
  simpl. destruct actions as [|g actions]; [by apply Hf|].
  destruct Hadj as [?|Heq]; [simpl in *; lia|].
  apply IH; [by right| |done]. rewrite <-Heq. by apply Hf.
Qed.

Lemma Transform_collect_next e a a' :
  Transform_collect Output e a = CNext a' → a' = <[Index e := Item e]> a.
Proof.
  unfold Transform_collect.
  destruct (assert Output (Item e)) as [v|] eqn:Hv; [|done].
  apply assert_Some_inv in Hv as [-> _]. case_decide; [|done]. by intros [= <-].
Qed.

Lemma Transform_collect_ok e a :
  typeof (Item e) = Output → Index e < length a →
  Transform_collect Output e a = CNext (<[Index e := Item e]> a).
Proof.
  intros Ht Hi. unfold Transform_collect. rewrite (assert_Some _ _ Ht).
  by rewrite decide_True.
Qed.

Lemma Transform_collect_no_return e a r :
  Transform_collect Output e a ≠ CReturn r.
Proof.
  unfold Transform_collect. destruct (assert Output (Item e)); [|done].
  by case_decide.
Qed.

(** The array the collector ends with, whatever the order of arrival. *)
Lemma Transform_collected actions items seen a :
  (∀ i x, items !! i = Some x →
          mkIndexedItem i (apply_all actions x) ∈ seen) →
  (∀ e, e ∈ seen → ∃ i x, items !! i = Some x ∧
                          e = mkIndexedItem i (apply_all actions x)) →
  collect_all (Transform_collect Output) seen
    (replicate (length items) (zero Output)) = CNext a →
  a = apply_all actions <$> items.
Proof.
  intros Hall Hseen Hcol.
  destruct (collect_all_store Index Item _ Transform_collect_next _ _ _ Hcol)
    as [Hlen Hlook].
  rewrite length_replicate in Hlen, Hlook.
  apply list_eq. intros i. rewrite list_lookup_fmap.
  destruct (items !! i) as [x|] eqn:Hx; simpl.
  - apply Hlook.
    + by eapply lookup_lt_Some.
    + eexists. split; [by apply Hall|done].
    + intros e He Hi. destruct (Hseen e He) as (i' & x' & Hx' & ->).
      simpl in *. by simplify_eq.
  - apply lookup_ge_None. apply lookup_ge_None in Hx. lia.
Qed.

(** [Transform] returns the positional map of the composed actions in
    every run, for every positive worker count. *)
Lemma Transform_returns W items actions :
  (1 ≤ W)%Z → actions ≠ [] →
  Forall (λ x, typeof x = Input) items →
  Forall (action_typed Input Output) actions →
  length actions ≤ 1 ∨ Output = Input →
  returns (Transform Input Output (NewTransformer W) items actions)
    (λ r, r = apply_all actions <$> items).
Proof.
  intros HW Hne Hitems Hty Hadj.
  assert (∀ i x, items !! i = Some x → typeof x = Input) as Hin.
  { intros i x Hx. exact (Forall_lookup_1 _ _ _ _ Hitems Hx). }
  apply bounded_returns; [done|..].
  - intros _ i x Hx. by rewrite run_Transform by eauto.
  - intros _ seen s i x y a Hinv Hx Hy Hcol.
    rewrite run_Transform in Hy by eauto. simplify_eq.
    destruct (collect_all_store Index Item _ Transform_collect_next _ _ _ Hcol)
      as [Hlen _]. rewrite length_replicate in Hlen.
    rewrite Transform_collect_ok; [done|simpl..].
    + by apply apply_all_typed; eauto.
    + rewrite Hlen. by eapply lookup_lt_Some.
  - intros seen s r Hinv Hm.
    pose proof (bi_main _ _ _ _ _ _ _ _ _ _ Hinv) as Hmain.
    rewrite Hm in Hmain. destruct Hmain as (_ & _ & [Hret|(a & Hcol & -> & Hperm)]).
    { apply collect_all_return in Hret as (e & a1 & _ & He).
      by apply Transform_collect_no_return in He. }
    simpl. eapply Transform_collected; [| |done].
    + intros i x Hx. apply (list_elem_of_fmap_inj Some).
      rewrite <-Hperm by (simpl; lia).
      rewrite <-(run_Transform actions i x) by eauto.
      apply list_elem_of_fmap_2, list_elem_of_lookup. exists i.
      by apply stamped_lookup.
    + intros e He.
      destruct (seen_elem _ _ _ _ _ _ _ _ _ _ _ Hinv He) as (i & x & Hx & Hrun).
      rewrite run_Transform in Hrun by eauto. simplify_eq. eauto.
Qed.
End TransformFacts.

(** ** [TransformWithError] *)
Section TransformWithErrorFacts.
Context `{GoValues}.
Variable Input Output : gotype.
Implicit Types (actions : list TransformActionWithError) (items : list value).

Lemma TransformWithError_worker_ok (f : TransformActionWithError) e :
  typeof (ItemWE e) = Input →
  TransformWithError_worker Input f e
  = Some (mkIndexedItemWithError (IndexWE e) (f (ItemWE e)).1 (f (ItemWE e)).2).
Proof.
  intros He. unfold TransformWithError_worker. by rewrite (assert_Some _ _ He).
Qed.

Lemma TransformWithError_worker_Some (f : TransformActionWithError) e y :
  TransformWithError_worker Input f e = Some y → typeof (ItemWE e) = Input.
Proof.
  unfold TransformWithError_worker.
  destruct (assert Input (ItemWE e)) as [x|] eqn:Hx; [|done].
  by apply assert_Some_inv in Hx as [-> ?].
Qed.

Lemma TransformWithError_worker_mismatch (f : TransformActionWithError) e :
  typeof (ItemWE e) ≠ Input → TransformWithError_worker Input f e = None.
Proof.
  intros He. unfold TransformWithError_worker, assert. by rewrite decide_False.
Qed.

Lemma run_TransformWithError actions i x e0 :
  Forall (action_typed_err Input Output) actions → typeof x = Input →
  length actions ≤ 1 ∨ Output = Input →
  run (TransformWithError_worker Input) actions (mkIndexedItemWithError i x e0)
  = Some (mkIndexedItemWithError i (apply_all_err actions (x, e0)).1
                                   (apply_all_err actions (x, e0)).2).
Proof.
  intros Hty Hx Hadj. revert x e0 Hx.
  induction Hty as [|f actions Hf Hty IH]; intros x e0 Hx; simpl; [done|].
  rewrite TransformWithError_worker_ok by done. simpl.
  destruct actions as [|g actions]; [done|].
  destruct Hadj as [?|Heq]; [simpl in *; lia|].
  rewrite IH; [|by right|rewrite <-Heq; by apply Hf].
  by destruct (f x).
Qed.

Lemma apply_all_err_typed actions x e0 :
  Forall (action_typed_err Input Output) actions → typeof x = Input →
  length actions ≤ 1 ∨ Output = Input →
  actions ≠ [] → typeof (apply_all_err actions (x, e0)).1 = Output.
Proof.
  intros Hty Hx Hadj. revert x e0 Hx.
  induction Hty as [|f actions Hf Hty IH]; intros x e0 Hx Hne; [done|].
  simpl. destruct actions as [|g actions]; [by apply Hf|].
  destruct Hadj as [?|Heq]; [simpl in *; lia|].
  destruct (f x) as [y e1] eqn:Hfx.
  apply IH; [by right| |done]. rewrite <-Heq.
  specialize (Hf x Hx). by rewrite Hfx in Hf.
Qed.

Lemma TransformWithError_collect_next e a a' :
  TransformWithError_collect Output e a = CNext a' →
  a' = <[IndexWE e := ItemWE e]> a.
Proof.
  unfold TransformWithError_collect. destruct (ErrWE e); [done|].
  destruct (assert Output (ItemWE e)) as [v|] eqn:Hv; [|done].
  apply assert_Some_inv in Hv as [-> _]. case_decide; [|done]. by intros [= <-].
Qed.

Lemma TransformWithError_collect_next_err e a a' :
  TransformWithError_collect Output e a = CNext a' → ErrWE e = None.
Proof. unfold TransformWithError_collect. by destruct (ErrWE e). Qed.

Lemma TransformWithError_collect_return e a r :
  TransformWithError_collect Output e a = CReturn r →
  ∃ err, ErrWE e = Some err ∧ r = (None, Some err).
Proof.
  unfold TransformWithError_collect. destruct (ErrWE e) as [err|].
  - intros [= <-]. eauto.
  - destruct (assert Output (ItemWE e)); [|done]. by case_decide.
Qed.

Lemma TransformWithError_collect_no_panic e a :
  typeof (ItemWE e) = Output → IndexWE e < length a →
  TransformWithError_collect Output e a ≠ CPanic.
Proof.
  intros Ht Hi. unfold TransformWithError_collect. destruct (ErrWE e); [done|].
  rewrite (assert_Some _ _ Ht). by rewrite decide_True.
Qed.

(** In every run, [TransformWithError] returns either the error that
    the last stage left on some item, with a nil slice, or, when the
    last stage left no error on any item, the slice of the final values
    with a nil error. *)
Lemma TransformWithError_returns W items actions :
  (1 ≤ W)%Z → actions ≠ [] →
  Forall (λ x, typeof x = Input) items →
  Forall (action_typed_err Input Output) actions →
  length actions ≤ 1 ∨ Output = Input →
  returns (TransformWithError Input Output (NewTransformer W) items actions)
    (λ r, (∃ i x err, items !! i = Some x ∧ (final actions x).2 = Some err ∧
                      r = (None, Some err)) ∨
          ((∀ i x, items !! i = Some x → (final actions x).2 = None) ∧
           r = (Some ((λ x, (final actions x).1) <$> items), None))).
Proof.
  intros HW Hne Hitems Hty Hadj.
  assert (∀ i x, items !! i = Some x → typeof x = Input) as Hin.
  { intros i x Hx. exact (Forall_lookup_1 _ _ _ _ Hitems Hx). }
  apply bounded_returns; [done|..].
  - intros _ i x Hx. by rewrite run_TransformWithError by eauto.
  - intros _ seen s i x y a Hinv Hx Hy Hcol.
    rewrite run_TransformWithError in Hy by eauto. simplify_eq.
    destruct (collect_all_store IndexWE ItemWE _
                TransformWithError_collect_next _ _ _ Hcol) as [Hlen _].
    rewrite length_replicate in Hlen.
    apply TransformWithError_collect_no_panic; simpl.
    + by apply apply_all_err_typed; eauto.
    + rewrite Hlen. by eapply lookup_lt_Some.
  - intros seen s r Hinv Hm.
    pose proof (bi_main _ _ _ _ _ _ _ _ _ _ Hinv) as Hmain.
    rewrite Hm in Hmain. destruct Hmain as (_ & _ & [Hret|(a & Hcol & -> & Hperm)]).
    { left. apply collect_all_return in Hret as (e & a1 & He & Hr).
      apply TransformWithError_collect_return in Hr as (err & Herr & ->).
      destruct (seen_elem _ _ _ _ _ _ _ _ _ _ _ Hinv He) as (i & x & Hx & Hrun).
      rewrite run_TransformWithError in Hrun by eauto. simplify_eq.
      exists i, x, err. eauto. }
    right.
    assert (∀ i x, items !! i = Some x →
      mkIndexedItemWithError i (final actions x).1 (final actions x).2 ∈ seen)
      as Hall.
    { intros i x Hx. apply (list_elem_of_fmap_inj Some).
      rewrite <-Hperm by (simpl; lia). unfold final.
      rewrite <-(run_TransformWithError actions i x None) by eauto.
      apply list_elem_of_fmap_2, list_elem_of_lookup. exists i.
      by apply (stamped_lookup (λ i item, mkIndexedItemWithError i item None)). }
    split.
    + intros i x Hx.
      destruct (collect_all_seen_next _ _ _ _ _ Hcol (Hall i x Hx)) as (a1 & a2 & Hc).
      by apply TransformWithError_collect_next_err in Hc.
    + simpl. f_equal. f_equal.
      destruct (collect_all_store IndexWE ItemWE _
                  TransformWithError_collect_next _ _ _ Hcol) as [Hlen Hlook].
      rewrite length_replicate in Hlen, Hlook.
      apply list_eq. intros i. rewrite list_lookup_fmap.
      destruct (items !! i) as [x|] eqn:Hx; simpl.
      * apply Hlook.
        -- by eapply lookup_lt_Some.
        -- eexists. split; [by apply Hall|done].
        -- intros e He Hi.
           destruct (seen_elem _ _ _ _ _ _ _ _ _ _ _ Hinv He) as (i' & x' & Hx' & Hrun).
           rewrite run_TransformWithError in Hrun by eauto.
           simplify_eq. simpl in *. by simplify_eq.
      * apply lookup_ge_None. apply lookup_ge_None in Hx. lia.
Qed.
End TransformWithErrorFacts.

(** ** The claims about the bounded API *)

Lemma returns_impl {R} (c : call R) (P Q : R → Prop) :
  (∀ r, P r → Q r) → returns c P → returns c Q.
Proof.
  intros HPQ [Hsafe Hmeas]. split; [|done].
  intros s Hs. destruct (Hsafe s Hs) as (? & ? & ?). eauto.
Qed.

Lemma returns_panic_free {R} (c : call R) (P : R → Prop) :
  returns c P → panic_free c.
Proof. intros [Hsafe _] s Hs. by destruct (Hsafe s Hs). Qed.

Section Claims.
Context `{GoValues}.
Variable Input Output : gotype.

(** C1. For every input slice [xs], every single action [f] and every
    worker count [W >= 1], every run of [Transform(xs, f)] on
    [NewTransformer(W)] returns a slice of the length of [xs] whose
    element at position [i] is [f(xs[i])]: the result is [map f xs],
    whatever [W] and whatever the interleaving. *)
Theorem Transform_order_preserved (W : Z) (xs : list value) (f : TransformAction) :
  (1 ≤ W)%Z →
  Forall (λ x, typeof x = Input) xs →
  action_typed Input Output f →
  returns (Transform Input Output (NewTransformer W) xs [f])
    (λ r, length r = length xs ∧
          (∀ i x, xs !! i = Some x → r !! i = Some (f x)) ∧
          r = f <$> xs).
Proof.
  intros HW Hxs Hf.
  eapply returns_impl; [|apply (Transform_returns Input Output W xs [f])]; try done.
  - intros r ->. simpl. split; [by rewrite length_fmap|]. split; [|done].
    intros i x Hx. by rewrite list_lookup_fmap, Hx.
  - by constructor.
  - left. simpl. lia.
Qed.

(** C6. With [Input] and [Output] the same type, so that the stages
    compose, every run of [Transform(xs, f, g)] returns [map (g ∘ f) xs];
    and for every non-empty list of actions the result has the length of
    the input and holds at position [i] the composition of all the
    actions applied to [xs[i]], for every worker count [W >= 1]. *)
Theorem Transform_stage_composition (W : Z) (xs : list value) :
  (1 ≤ W)%Z →
  Forall (λ x, typeof x = Input) xs →
  Output = Input →
  (∀ f g : TransformAction,
     action_typed Input Output f → action_typed Input Output g →
     returns (Transform Input Output (NewTransformer W) xs [f; g])
       (λ r, r = (g ∘ f) <$> xs)) ∧
  (∀ actions : list TransformAction,
     actions ≠ [] → Forall (action_typed Input Output) actions →
     returns (Transform Input Output (NewTransformer W) xs actions)
       (λ r, length r = length xs ∧
             ∀ i x, xs !! i = Some x → r !! i = Some (apply_all actions x))).
Proof.
  intros HW Hxs Heq. split.
  - intros f g Hf Hg.
    eapply returns_impl; [|apply (Transform_returns Input Output W xs [f; g])];
      try done; [by repeat constructor|by right].
  - intros actions Hne Hty.
    eapply returns_impl; [|apply (Transform_returns Input Output W xs actions)];
      try done; [|by right].
    intros r ->. simpl. split; [by rewrite length_fmap|].
    intros i x Hx. by rewrite list_lookup_fmap, Hx.
Qed.

(** C10. [NewTransformer] accepts every width and stores it unchanged;
    with a width [W <= 0] and at least one action, every run of
    [Transform] returns, without panicking, a slice of the length of the
    input that holds only zero values of [Output], and no pool ever has
    a worker. *)
Theorem Transform_without_workers (W : Z) (items : list value)
  (actions : list TransformAction) :
  (W ≤ 0)%Z → actions ≠ [] →
  workers (NewTransformer W) = W ∧
  returns (Transform Input Output (NewTransformer W) items actions)
    (λ r, length r = length items ∧ r = replicate (length items) (zero Output)) ∧
  (∀ s pl, reachable (Transform Input Output (NewTransformer W) items actions) (Next s) →
           pl ∈ pools (pipe s) → wks pl = []).
Proof.
  intros HW Hne. split; [done|]. split.
  - eapply returns_impl; [|apply bounded_idle_returns; [simpl; lia|done]].
    intros r ->. simpl. split; [by rewrite length_replicate|done].
  - intros s pl Hr Hpl.
    destruct (reachable_binv _ _ _ _ _ _ _ _ _ Hr) as [?|(s0 & seen & [= <-] & Hinv)];
      [done|].
    apply list_elem_of_lookup in Hpl as [k Hk].
    pose proof (pinv_wks _ _ (bi_pinv _ _ _ _ _ _ _ _ _ _ Hinv) _ _ Hk) as Hlen.
    simpl in Hlen. apply nil_length_inv. lia.
Qed.

Lemma transformer_eta (t : transformer) : t = NewTransformer (workers t).
Proof. by destruct t. Qed.

Lemma Transform_assertions (t : transformer) (items : list value)
  (actions : list TransformAction) :
  2 ≤ length actions → items ≠ [] →
  Forall (λ x, typeof x = Input) items →
  Forall (action_typed Input Output) actions →
  (panic_free (Transform Input Output t items actions) ↔
   ∀ s x, reachable (Transform Input Output t items actions) (Next s) →
          between_pools (length actions) s x → typeof (Item x) = Input) ∧
  (Output = Input → panic_free (Transform Input Output t items actions)).
Proof.
  intros Hlen Hitems Hin Hty.
  assert (actions ≠ []) as Hne by (intros ->; simpl in *; lia).
  assert (∀ i x, items !! i = Some x → typeof x = Input) as Hin'.
  { intros i x Hx. exact (Forall_lookup_1 _ _ _ _ Hin Hx). }
  assert (Output = Input ∨ Z.to_nat (workers t) = 0 →
          panic_free (Transform Input Output t items actions)) as Hsafe.
  { intros Hor. destruct (Z.to_nat (workers t)) eqn:HW.
    - eapply returns_panic_free. by apply bounded_idle_returns.
    - destruct Hor as [Heq|?]; [|done].
      rewrite (transformer_eta t). eapply returns_panic_free.
      apply Transform_returns; try done; [lia|by right]. }
  assert (Output ≠ Input → 0 < Z.to_nat (workers t) →
          reachable (Transform Input Output t items actions) Panic ∧
          ∃ s x, reachable (Transform Input Output t items actions) (Next s) ∧
                 between_pools (length actions) s x ∧ typeof (Item x) ≠ Input)
    as Hbad.
  { intros Hneq HW. destruct items as [|x0 items']; [done|].
    destruct actions as [|f [|g rest]]; simpl in Hlen; try lia.
    apply Forall_inv in Hin, Hty.
    destruct (second_pool_rejects (Transform_worker Input) (workers t) mkIndexedItem
                (λ n, replicate n (zero Output)) (Transform_collect Output) id
                (x0 :: items') f g rest x0 (mkIndexedItem 0 (f x0)))
      as (Hp & s & Hs & Hb); try done.
    - by rewrite Transform_worker_ok.
    - apply Transform_worker_mismatch. simpl. by rewrite (Hty x0 Hin).
    - split; [done|]. exists s, (mkIndexedItem 0 (f x0)).
      split; [done|]. split; [done|]. simpl. by rewrite (Hty x0 Hin). }
  split; [|by auto]. split.
  - intros Hfree s x Hr (pos & Hpos & Hge & Hle).
    destruct (Z.to_nat (workers t)) eqn:HW.
    { pose proof (bounded_idle_flight _ _ _ _ _ _ _ _ _ _ HW Hr Hpos) as Hz.
      simpl in Hz. lia. }
    destruct (decide (Output = Input)) as [Heq|Hneq].
    + destruct (intermediate_accepted (Transform_worker Input) (workers t)
                  mkIndexedItem (λ n, replicate n (zero Output))
                  (Transform_collect Output) id items actions s pos x)
        as (f & _ & Hf); try done.
      * intros i x' Hx'. rewrite (run_Transform Input Output); eauto.
      * destruct (Transform_worker Input f x) as [y|] eqn:Hy; [|done].
        by apply Transform_worker_Some in Hy as [? _].
    + destruct Hbad as [Hp _]; [done|lia|]. by destruct (Hfree _ Hp).
  - intros Hall. destruct (Z.to_nat (workers t)) eqn:HW; [by auto|].
    destruct (decide (Output = Input)) as [Heq|Hneq]; [by auto|].
    destruct Hbad as (_ & s & x & Hs & Hb & Hx); [done|lia|].
    destruct Hx. by eapply Hall.
Qed.

Lemma TransformWithError_assertions (t : transformer) (items : list value)
  (actions : list TransformActionWithError) :
  2 ≤ length actions → items ≠ [] →
  Forall (λ x, typeof x = Input) items →
  Forall (action_typed_err Input Output) actions →
  (panic_free (TransformWithError Input Output t items actions) ↔
   ∀ s x, reachable (TransformWithError Input Output t items actions) (Next s) →
          between_pools (length actions) s x → typeof (ItemWE x) = Input) ∧
  (Output = Input → panic_free (TransformWithError Input Output t items actions)).
Proof.
  intros Hlen Hitems Hin Hty.
  assert (actions ≠ []) as Hne by (intros ->; simpl in *; lia).
  assert (∀ i x, items !! i = Some x → typeof x = Input) as Hin'.
  { intros i x Hx. exact (Forall_lookup_1 _ _ _ _ Hin Hx). }
  assert (Output = Input ∨ Z.to_nat (workers t) = 0 →
          panic_free (TransformWithError Input Output t items actions)) as Hsafe.
  { intros Hor. destruct (Z.to_nat (workers t)) eqn:HW.
    - eapply returns_panic_free. by apply bounded_idle_returns.
    - destruct Hor as [Heq|?]; [|done].
      rewrite (transformer_eta t). eapply returns_panic_free.
      apply TransformWithError_returns; try done; [lia|by right]. }
  assert (Output ≠ Input → 0 < Z.to_nat (workers t) →
          reachable (TransformWithError Input Output t items actions) Panic ∧
          ∃ s x, reachable (TransformWithError Input Output t items actions) (Next s) ∧
                 between_pools (length actions) s x ∧ typeof (ItemWE x) ≠ Input)
    as Hbad.
  { intros Hneq HW. destruct items as [|x0 items']; [done|].
    destruct actions as [|f [|g rest]]; simpl in Hlen; try lia.
    apply Forall_inv in Hin, Hty.
    destruct (second_pool_rejects (TransformWithError_worker Input) (workers t)
                (λ i item, mkIndexedItemWithError i item None)
                (λ n, replicate n (zero Output)) (TransformWithError_collect Output)
                (λ transformedItems, (Some transformedItems, None))
                (x0 :: items') f g rest x0
                (mkIndexedItemWithError 0 (f x0).1 (f x0).2))
      as (Hp & s & Hs & Hb); try done.
    - by rewrite TransformWithError_worker_ok.
    - apply TransformWithError_worker_mismatch. simpl. by rewrite (Hty x0 Hin).
    - split; [done|]. exists s, (mkIndexedItemWithError 0 (f x0).1 (f x0).2).
      split; [done|]. split; [done|]. simpl. by rewrite (Hty x0 Hin). }
  split; [|by auto]. split.
  - intros Hfree s x Hr (pos & Hpos & Hge & Hle).
    destruct (Z.to_nat (workers t)) eqn:HW.
    { pose proof (bounded_idle_flight _ _ _ _ _ _ _ _ _ _ HW Hr Hpos) as Hz.
      simpl in Hz. lia. }
    destruct (decide (Output = Input)) as [Heq|Hneq].
    + destruct (intermediate_accepted (TransformWithError_worker Input) (workers t)
                  (λ i item, mkIndexedItemWithError i item None)
                  (λ n, replicate n (zero Output))
                  (TransformWithError_collect Output)
                  (λ transformedItems, (Some transformedItems, None))
                  items actions s pos x)
        as (f & _ & Hf); try done.
      * intros i x' Hx'. rewrite (run_TransformWithError Input Output); eauto.
      * destruct (TransformWithError_worker Input f x) as [y|] eqn:Hy; [|done].
        by apply TransformWithError_worker_Some in Hy.
    + destruct Hbad as [Hp _]; [done|lia|]. by destruct (Hfree _ Hp).
  - intros Hall. destruct (Z.to_nat (workers t)) eqn:HW; [by auto|].
    destruct (decide (Output = Input)) as [Heq|Hneq]; [by auto|].
    destruct Hbad as (_ & s & x & Hs & Hb & Hx); [done|lia|].
    destruct Hx. by eapply Hall.
Qed.


(** C4, as the code has it. [NewTransformer] validates nothing: for
    every width, positive or not, it returns a transformer configured
    with exactly that width. *)
Theorem NewTransformer_accepts_every_width (W : Z) :
  ∃ t, NewTransformer W = t ∧ workers t = W.
Proof. by exists (NewTransformer W). Qed.

(** C3, on the code. With no action, [process] evaluates
    [channels[len(channels)-1]] on an empty slice: every run of
    [Transform] and of [TransformWithError] ends in a panic, and none
    returns. *)
Theorem zero_actions_panic (t : transformer) (xs : list value) :
  panics (Transform Input Output t xs []) ∧
  panics (TransformWithError Input Output t xs []).
Proof. split; apply bounded_panics. Qed.
End Claims.

(** C4. [NewTransformer(0)] does not fail: it hands out a transformer
    whose width is zero. *)
Lemma NewTransformer_zero_accepted :
  ¬ (∀ W t, (W ≤ 0)%Z → NewTransformer W = t → (0 < workers t)%Z).
Proof. intros Hc. specialize (Hc 0%Z (NewTransformer 0) ltac:(lia) eq_refl). simpl in Hc. lia. Qed.

Lemma Transform_order_preserved_witness :
  returns (@Transform test_values TStr TStr (NewTransformer 3)
             [VStr "a"; VStr "b"; VStr "c"] [ToUpper])
    (λ r, length r = 3 ∧
          (∀ i x, [VStr "a"; VStr "b"; VStr "c"] !! i = Some x →
                  r !! i = Some (ToUpper x)) ∧
          r = [VStr "A"; VStr "B"; VStr "C"]).
Proof.
  apply (@Transform_order_preserved test_values TStr TStr 3 [VStr "a"; VStr "b"; VStr "c"] ToUpper).
  - lia.
  - repeat constructor.
  - intros [s|n] Hv; [reflexivity|discriminate Hv].
Defined.

Lemma Transform_stage_composition_witness :
  (1 ≤ 3)%Z ∧
  returns (@Transform test_values TStr TStr (NewTransformer 3)
             [VStr "a"; VStr "b"; VStr "c"] [ToUpper; ToLower])
    (λ r, r = [VStr "a"; VStr "b"; VStr "c"]).
Proof.
  split; [lia|].
  destruct (@Transform_stage_composition test_values TStr TStr 3
              [VStr "a"; VStr "b"; VStr "c"]) as [Hfg _].
  - lia.
  - repeat constructor.
  - reflexivity.
  - apply (returns_impl _ (λ r, r = (ToLower ∘ ToUpper) <$> [VStr "a"; VStr "b"; VStr "c"])).
    + intros r ->. reflexivity.
    + apply Hfg.
      * intros [s|n] Hv; [reflexivity|discriminate Hv].
      * intros [s|n] Hv; [reflexivity|discriminate Hv].
Defined.

Lemma Transform_without_workers_witness :
  (0 ≤ 0)%Z ∧
  returns (@Transform test_values TStr TStr (NewTransformer 0)
             [VStr "a"; VStr "b"; VStr "c"] [ToUpper])
    (λ r, length r = 3 ∧ r = [VStr ""; VStr ""; VStr ""]).
Proof.
  split; [lia|].
  destruct (@Transform_without_workers test_values TStr TStr 0
              [VStr "a"; VStr "b"; VStr "c"] [ToUpper]) as (_ & Hret & _).
  - lia.
  - discriminate.
  - exact Hret.
Defined.

(** ** The streaming machine *)
Section StreamingFacts.
Context `{GoValues} {Item Action : Type}.
Variable work : Action → Item → option Item.
Variable workers : Z.
Variable wrap : value → Item.
Variable forward : Item → foutcome.
Variable with_errors : bool.

(** Without an errors channel the forwarding loop has no error branch. *)
Hypothesis forward_no_error :
  with_errors = false → ∀ x e, forward x ≠ FError e.

#[local] Abbreviation sexec := (sexec work workers wrap forward with_errors).
#[local] Abbreviation sexec_spec := (sexec_spec work workers wrap forward with_errors).
#[local] Abbreviation sinv := (sinv work workers wrap forward with_errors).
#[local] Abbreviation smeasure := (smeasure workers).
#[local] Abbreviation sresult := (sresult with_errors).
#[local] Abbreviation forwarded := (forwarded forward).
#[local] Abbreviation leave := (leave with_errors).
#[local] Abbreviation post := (post forward).
#[local] Abbreviation fate := (fate work wrap forward).
#[local] Abbreviation streaming_call :=
  (streaming_call work workers wrap forward with_errors).
Implicit Types (s : sstate Item Action).

Lemma sexec_cases e s o : sexec e s = Some o ↔ sexec_spec s e o.
Proof.
  split.
  - intros He. destruct e;
      unfold sexec, worker_at, took, chan_room, chan_waiting in He;
      repeat (first [progress simplify_option_eq | case_match]);
      repeat match goal with
      | H : _ && _ = true |- _ => apply andb_true_iff in H as [? ?]
      | H : negb _ = true |- _ => apply negb_true_iff in H
      | H : bool_decide _ = true |- _ => apply bool_decide_eq_true in H
      end;
      try (econstructor; by eauto).
    apply ss_return; try done. congruence.
  - intros Hs. destruct Hs;
      unfold sexec, worker_at, took, chan_room, chan_waiting;
      repeat (match goal with H : ?l = _ |- context [?l] => rewrite H end; simpl);
      rewrite ?bool_decide_eq_true_2 by done; try done.
    by destruct (pools (spipe s)).
Qed.

Ltac sexec_inv He :=
  apply sexec_cases in He;
  inversion He as
    [ x rest Hprod Hcl Hroom E1 E2
    | x rest Hprod Hcl E1 E2
    | x rest Hprod Hfeed Hb Hcl E1 E2
    | Hprod Hcl E1 E2
    | x b Hfeed Hb E1 E2
    | c Hfeed Hb Hcl Hc E1 E2
    | c y Hfeed Hc Hcl Hroom E1 E2
    | c y Hfeed Hc Hcl E1 E2
    | j c pl y y' Hfeed Hc Hb Hcl Hpl Hw Hwk E1 E2
    | j c pl y Hfeed Hc Hb Hcl Hpl Hw Hwk E1 E2
    | p' Hcaller Hcr E1 E2
    | Hcaller Ht Hpl E1 E2
    | Hcaller Ht Hpl E1 E2
    | e' p' Hpe E1 E2
    | e' Hpe E1 E2
    | c x b x' Hfwd Hc Hb Hfw E1 E2
    | c x b Hfwd Hc Hb Hfw E1 E2
    | c Hfwd Hc Hb Hcl E1 E2
    | i c pl y x' Hfwd Hc Hb Hcl Hpl Hw Hfw E1 E2
    | i c pl y Hfwd Hc Hb Hcl Hpl Hw Hfw E1 E2
    | v Hfwd Hcl Hroom E1 E2
    | v Hfwd Hcl E1 E2
    | v Hfwd Hb Hcl E1 E2
    | e0 Hfwd Hcl Hroom E1 E2
    | e0 Hfwd Hcl E1 E2
    | Hfwd E1 E2
    | Hfwd E1 E2
    | v b Hcaller Hb E1 E2
    | e0 b Hcaller Hb E1 E2 ]; subst; clear He.

Lemma sinv_init actions (items : chan value) (producer : list value) :
  (closed items = true → producer = []) →
  sinv actions (buf items ++ producer) (sinit actions items producer).
Proof.
  intros Henv. split; simpl; try done.
  - by intros c [= <-].
  - by rewrite app_nil_r.
  - naive_solver.
  - lia.
  - intros [[e ?]|?]; done.
Qed.

Ltac flow_tac Hflow :=
  rewrite Hflow; unfold vals, errs; simpl;
  rewrite ?fmap_app; simpl; solve_Permutation.

Lemma forwarded_Next x x' :
  forwarded x = Next x' →
  held_fwd x' = [forward x] ∧ past_loop x' = false ∧ x' ≠ XNone ∧ x' ≠ XDone ∧
  x' ≠ XLeave ∧ x' ≠ XLeaveOut ∧ ((∃ e, x' = XFail e) → with_errors = true).
Proof.
  unfold forwarded. destruct (forward x) as [v|e|] eqn:E; intros [= <-]; simpl;
    repeat split; try done.
  - by intros [? ?].
  - intros _. destruct with_errors eqn:Ew; [done|].
    by destruct (forward_no_error eq_refl x e).
Qed.

Lemma leave_facts :
  held_fwd leave = [] ∧ past_loop leave = true ∧ leave ≠ XNone ∧ leave ≠ XDone ∧
  (leave = XLeave → with_errors = true) ∧
  (leave = XLeaveOut → with_errors = false) ∧ ∀ e, leave ≠ XFail e.
Proof. unfold leave. by destruct with_errors. Qed.

Lemma returned_exit actions inputs s :
  sinv actions inputs s → fwd s ≠ XNone →
  caller s = CReturned ∧ todo (spipe s) = [] ∧ 0 < length (pools (spipe s)) ∧
  length actions = length (pools (spipe s)).
Proof.
  intros [Hp Ha _ _ _ _ Hcal _ _ _ _ _ _ _] Hx.
  destruct (caller s); [by destruct Hcal|].
  destruct Hcal as (Ht & Hpos & _). repeat split; try done.
  rewrite <-Ha. unfold acts. by rewrite Ht, app_nil_r, length_fmap.
Qed.

Lemma no_errs_yet actions inputs s :
  sinv actions inputs s → past_loop (fwd s) = false →
  gote s = [] ∧ buf (err_ch s) = [].
Proof.
  intros Hinv Hx. apply app_eq_nil. change (errs s = []).
  destruct (errs s) eqn:E; [done|].
  destruct (si_errs_past _ _ _ _ _ _ _ _ Hinv) as [_ ?]; [by rewrite E|congruence].
Qed.

Lemma sinv_forwarded actions inputs s p' x x' :
  sinv actions inputs s → fwd s = XRecv → forwarded x = Next x' →
  pinv workers p' → acts p' = acts (spipe s) → todo p' = todo (spipe s) →
  length (pools p') = length (pools (spipe s)) →
  (∀ c', chans p' !! 0 = Some c' →
         ∃ c, chans (spipe s) !! 0 = Some c ∧ closed c = closed c') →
  residual work (spipe s) ≡ₚ Some x :: residual work p' →
  sinv actions inputs (set_fwd s p' x').
Proof.
  intros Hinv Hfwd Hfw Hp' Ha' Ht' Hpl' Hsrc Hres.
  destruct (returned_exit _ _ _ Hinv) as (Hcaller & Ht & Hpos & Hlen);
    [by rewrite Hfwd|].
  destruct (no_errs_yet _ _ _ Hinv) as [Hg Hbe]; [by rewrite Hfwd|].
  destruct (forwarded_Next _ _ Hfw) as (Hh & Hpl & Hn1 & Hn2 & Hn3 & Hn4 & Hn5).
  destruct Hinv as [Hp Ha Henv Hfd Hfdd Hflow Hcal Hout Hcap Herr Herrs Hpast1 Hfail Hpast].
  rewrite Hfwd in *.
  split; simpl; try done.
  - by rewrite Ha'.
  - intros c' Hc'. destruct (Hsrc _ Hc') as (c & Hc & Heq).
    rewrite <-Heq. by apply Hfd.
  - rewrite Hflow, Hres, Hh. unfold vals, errs; simpl. solve_Permutation.
  - rewrite Hcaller, Ht', Hpl'. done.
  - split; [intros Hc|done]. by apply Hout in Hc.
  - split.
    + intros Hc. apply Herr in Hc as [_ [?|?]]; done.
    + intros [_ [?|?]]; done.
  - unfold errs; simpl. rewrite Hg, Hbe. done.
  - intros [He|?]; [by apply Hn5|done].
  - rewrite Hpl. done.
Qed.

Lemma sinv_step actions inputs s e s' :
  sinv actions inputs s → sexec e s = Some (Next s') → sinv actions inputs s'.
Proof.
  intros Hinv He.
  pose proof (returned_exit _ _ _ Hinv) as Hret.
  pose proof (no_errs_yet _ _ _ Hinv) as Hnoerr.
  sexec_inv He;
    pose proof Hinv as [Hp Ha Henv Hfd Hfdd Hflow Hcal Hout Hcap Herr Herrs Hpast1 Hfail Hpast].
  - (* caller side: buffered send *)
    split; simpl; try done.
    + congruence.
    + intros Hf. destruct (Hfdd Hf). congruence.
    + rewrite Hprod in Hflow. flow_tac Hflow.
  - (* caller side: straight to the feeder *)
    split; simpl; try done.
    + congruence.
    + intros c Hc. rewrite (Hfd c Hc), Hfeed. done.
    + rewrite Hprod, Hfeed in Hflow. flow_tac Hflow.
  - (* caller side: close *)
    split; simpl; try done.
    + intros Hf. destruct (Hfdd Hf). congruence.
    + rewrite Hprod in Hflow. flow_tac Hflow.
  - (* feeder: from the buffer *)
    split; simpl; try done.
    + intros c Hc. rewrite (Hfd c Hc), Hfeed. done.
    + rewrite Hb, Hfeed in Hflow. rewrite Hb. flow_tac Hflow.
  - (* feeder: items is closed and drained *)
    split; simpl; try done.
    + apply (pinv_set_chan _ _ 0 c); [done|done| |]; simpl; [|by auto].
      intros _. right. intros; lia.
    + intros c'. rewrite list_lookup_insert_eq by (by eapply lookup_lt_Some).
      by intros [= <-].
    + rewrite (residual_close _ _ 0 c) by done.
      rewrite Hfeed in Hflow. flow_tac Hflow.
    + intros Hx. destruct (Hpast Hx) as [?|Hd]; [by left|right].
      apply (pipe_drained_set_chan _ 0 c); [done..|]. simpl. auto.
  - (* feeder: buffered send *)
    split; simpl; try done.
    + apply (pinv_set_chan _ _ 0 c); try done; simpl; [by left|congruence].
    + intros c'. rewrite list_lookup_insert_eq by (by eapply lookup_lt_Some).
      intros [= <-]. simpl. by rewrite Hcl.
    + rewrite (residual_push _ _ 0 c) by done.
      rewrite Ha, rest_of_source. rewrite Hfeed in Hflow. flow_tac Hflow.
    + intros Hx. destruct (Hpast Hx) as [?|Hd]; [by left|right].
      apply (pipe_drained_set_chan _ 0 c); [done..|]. simpl. congruence.
  - (* feeder: straight to a worker *)
    split; simpl; try done.
    + apply (pinv_set_worker _ _ 0 j pl WRecv); done.
    + rewrite acts_set_worker. exact Ha.
    + intros c' Hc'. simplify_eq. split; [congruence|done].
    + rewrite (residual_take _ _ 0 j pl) by done.
      rewrite Hfeed in Hflow. rewrite Hflow. simpl.
      rewrite <-rest_of_source, <-Ha.
      rewrite (rest_of_chan _ _ 0 (act pl)) by (by apply acts_lookup).
      rewrite Hwk. simpl. unfold vals, errs; simpl. solve_Permutation.
    + rewrite length_alter. done.
    + intros Hx. destruct (Hpast Hx) as [?|Hd]; [by left|right].
      by apply pipe_drained_set_worker.
  - (* process: one more pool *)
    destruct (create_facts _ _ _ Hcr) as (Ha' & Hfl' & _ & Ht' & Hpl').
    split; simpl; try done.
    + by eapply create_pinv.
    + by rewrite Ha'.
    + intros c Hc. apply Hfd. unfold create in Hcr.
      destruct (todo (spipe s)); [done|]. simplify_eq. simpl in Hc.
      rewrite lookup_app_l in Hc; [done|]. rewrite (pinv_len _ _ Hp). lia.
    + rewrite (create_residual _ _ _ _ Hcr). done.
    + rewrite Hcaller in *. done.
    + rewrite Hcaller in Hcal. destruct Hcal as [-> _]. done.
  - (* process returns the last channel *)
    rewrite Hcaller in Hcal. destruct Hcal as [Hx Hv].
    rewrite Hx in *. destruct Hnoerr as [Hg Hbe]; [done|].
    apply app_eq_nil in Hv as [Hv1 Hv2].
    split; simpl; try done.
    + rewrite Hflow. unfold vals, errs. simpl. rewrite Hg, Hbe, Hv1, Hv2. done.
    + split; [done|]. split; [|done]. destruct (pools (spipe s)); simpl; [done|lia].
    + split; [done|]. intros [_ [?|?]]; done.
    + unfold errs; simpl. rewrite Hg. simpl. lia.
    + unfold errs; simpl. rewrite Hg. done.
    + intros [[? ?]|?]; done.
  - (* a worker or a closer *)
    destruct (pexec_flight _ _ _ _ Hpe) as (Ha' & Ht' & _).
    destruct (pexec_pools_length _ _ _ _ Hpe) as [Hpl' _].
    split; simpl; try done.
    + by eapply pexec_pinv.
    + by rewrite Ha'.
    + intros c' Hc'.
      destruct (pexec_source _ _ _ _ _ Hpe Hc') as (c & Hc & Heq).
      rewrite <-Heq. by apply Hfd.
    + rewrite (pexec_residual _ _ _ _ Hpe). done.
    + rewrite Ht', Hpl'. done.
    + intros Hx. destruct (Hpast Hx) as [?|Hd]; [by left|right].
      by eapply pexec_drained.
  - (* forwarder: from the buffer *)
    rewrite Hfwd in *. destruct Hret as (Hcaller & Ht & Hpos & Hlen); [done|].
    apply (sinv_forwarded _ _ _ _ x); try done; simpl.
    + apply (pinv_set_chan _ _ _ c); try done; simpl; [by left|].
      intros _ Hnil. by rewrite Hnil in Hb.
    + intros c'. rewrite list_lookup_insert_ne by lia. eauto.
    + rewrite (residual_pop _ _ _ c x b) by done.
      rewrite rest_of_exit by (rewrite Ha; lia). done.
  - (* forwarder: the last channel is closed and drained *)
    rewrite Hfwd in *. destruct Hret as (Hcaller & Ht & Hpos & Hlen); [done|].
    destruct Hnoerr as [Hg Hbe]; [done|].
    destruct leave_facts as (Hh & Hpl & Hn1 & Hn2 & Hn3 & Hn4 & Hn5).
    split; simpl; try done.
    + rewrite Hflow, Hh. done.
    + rewrite Hcaller. done.
    + split; [intros Hc'|done]. by apply Hout in Hc'.
    + split.
      * intros Hc'. apply Herr in Hc' as [_ [?|?]]; done.
      * intros [Hw [Hl|?]]; [|done]. apply Hn4 in Hl. congruence.
    + unfold errs; simpl. rewrite Hg, Hbe. done.
    + intros [[e0 He]|Hl]; [by destruct (Hn5 e0)|by apply Hn3].
    + intros _. right. by exists c.
  - (* forwarder: straight from a worker *)
    rewrite Hfwd in *. destruct Hret as (Hcaller & Ht & Hpos & Hlen); [done|].
    apply (sinv_forwarded _ _ _ _ y); try done; simpl.
    + by apply (pinv_set_worker _ _ _ i pl (WSend y)).
    + apply acts_set_worker.
    + by rewrite length_alter.
    + eauto.
    + rewrite (residual_give _ _ _ i pl y) by done.
      rewrite rest_of_sent, rest_of_exit; [done|]. rewrite Ha, Hlen.
      destruct (pools (spipe s)); simpl in *; lia.
  - (* forwarder: buffered send *)
    rewrite Hfwd in *. destruct Hret as (Hcaller & Ht & Hpos & Hlen); [done|].
    split; simpl; try done.
    + flow_tac Hflow.
    + by rewrite Hcaller.
    + split; [intros Hc'|done]. by apply Hout in Hc'.
    + split.
      * intros Hc'. apply Herr in Hc' as [_ [?|?]]; done.
      * intros [_ [?|?]]; done.
    + intros [[? ?]|?]; done.
  - (* forwarder: straight to the consumer *)
    rewrite Hfwd in *. destruct Hret as (Hcaller & Ht & Hpos & Hlen); [done|].
    split; simpl; try done.
    + flow_tac Hflow.
    + by rewrite Hcaller.
    + split; [intros Hc'|done]. by apply Hout in Hc'.
    + split.
      * intros Hc'. apply Herr in Hc' as [_ [?|?]]; done.
      * intros [_ [?|?]]; done.
    + intros [[? ?]|?]; done.
  - (* forwarder: the error *)
    rewrite Hfwd in *. destruct Hret as (Hcaller & Ht & Hpos & Hlen); [done|].
    destruct Hnoerr as [Hg Hbe]; [done|].
    split; simpl; try done.
    + flow_tac Hflow.
    + by rewrite Hcaller.
    + split; [intros Hc'|done]. by apply Hout in Hc'.
    + split; [congruence|]. intros [_ [?|?]]; done.
    + unfold errs; simpl. rewrite Hg, Hbe. simpl. lia.
    + intros _. split; [|done]. apply Hfail. left; eauto.
    + intros _. apply Hfail. left; eauto.
    + intros _. left. unfold errs; simpl. rewrite Hbe.
      intros [? ?]%app_eq_nil. done.
  - (* forwarder: close(errors) *)
    rewrite Hfwd in *. destruct Hret as (Hcaller & Ht & Hpos & Hlen); [done|].
    split; simpl; try done.
    + by rewrite Hcaller.
    + split; [intros Hc'|done]. by apply Hout in Hc'.
    + split; [|done]. intros _. split; [|by left]. apply Hfail. by right.
    + intros [[? ?]|?]; done.
  - (* forwarder: close(transformedItems) *)
    rewrite Hfwd in *. destruct Hret as (Hcaller & Ht & Hpos & Hlen); [done|].
    split; simpl; try done.
    + by rewrite Hcaller.
    + rewrite Herr. split; intros [? _]; (split; [done|]); [by right|by left].
    + intros [[? ?]|?]; done.
  - (* consumer: a value *)
    split; simpl; try done.
    + rewrite Hflow. unfold vals, errs; simpl. rewrite Hb; simpl.
      rewrite ?fmap_app; simpl. solve_Permutation.
    + by rewrite Hcaller in *.
  - (* consumer: an error *)
    split; simpl; try done.
    + rewrite Hflow. unfold vals, errs; simpl. rewrite Hb; simpl.
      rewrite ?fmap_app; simpl. solve_Permutation.
    + revert Herrs. unfold errs; simpl. rewrite Hb; simpl.
      rewrite !length_app; simpl. lia.
    + intros _. apply Hpast1. unfold errs. rewrite Hb. by destruct (gote s).
    + intros Hx. destruct (Hpast Hx) as [?|?]; [|by right]. left.
      unfold errs; simpl. intros [? ?]%app_eq_nil. by destruct (gote s).
Qed.

Lemma smeasure_step actions inputs s e o :
  sinv actions inputs s → sexec e s = Some o → smeasure o < smeasure (Next s).
Proof.
  intros Hinv He. destruct o as [s'|]; [|unfold smeasure; lia].
  pose proof (returned_exit _ _ _ Hinv) as Hret.
  unfold smeasure. sexec_inv He;
    pose proof Hinv as [Hp Ha Henv Hfd Hfdd Hflow Hcal Hout Hcap Herr Herrs Hpast1 Hfail Hpast];
    simpl.
  - rewrite Hprod, length_app. simpl. nia.
  - rewrite Hprod, Hfeed. simpl. nia.
  - rewrite Hprod, Hcl. simpl. nia.
  - rewrite Hb, Hfeed. simpl. nia.
  - rewrite Hfeed. simpl.
    assert (closed c = false) as Hc0.
    { destruct (closed c) eqn:E; [|done]. apply (Hfd c Hc) in E. congruence. }
    pose proof (pmeasure_close workers _ 0 c Hc Hc0) as E.
    change (acts (set_chan 0 (chan_close c) (spipe s))) with (acts (spipe s)).
    nia.
  - rewrite Hfeed. simpl. rewrite (pmeasure_push _ _ 0 c) by done.
    change (acts (set_chan 0 (chan_push y c) (spipe s))) with (acts (spipe s)).
    unfold weight; simpl. nia.
  - rewrite Hfeed. simpl. rewrite (pmeasure_take _ _ 0 j pl) by done.
    rewrite acts_set_worker. unfold weight; simpl. nia.
  - destruct (create_facts _ _ _ Hcr) as (Ha' & _).
    pose proof (create_measure workers _ _ Hcr). rewrite Ha'. rewrite Hcaller. simpl. nia.
  - rewrite Hcaller in *. destruct Hcal as [Hx Hv]. rewrite Hx. simpl. nia.
  - destruct (pexec_flight _ _ _ _ Hpe) as (Ha' & _).
    pose proof (pexec_measure work workers _ _ _ Hpe). rewrite Ha'. nia.
  - rewrite Hfwd in *. destruct Hret as (Hcaller & Ht & Hpos & Hlen); [done|].
    destruct (forwarded_Next _ _ Hfw) as (Hh & _). rewrite Hh. simpl.
    rewrite (pmeasure_pop workers _ _ c x b Hc Hb).
    change (acts (set_chan (length (pools (spipe s))) (chan_tail c) (spipe s)))
      with (acts (spipe s)).
    assert (fwd_weight x' = 3) as -> by (by destruct x'; simplify_eq).
    unfold weight; simpl. rewrite Ha, Hlen. nia.
  - rewrite Hfwd. simpl. destruct leave_facts as (Hh & _). rewrite Hh.
    unfold leave. destruct with_errors; simpl; nia.
  - rewrite Hfwd in *. destruct Hret as (Hcaller & Ht & Hpos & Hlen); [done|].
    destruct (forwarded_Next _ _ Hfw) as (Hh & _). rewrite Hh. simpl.
    rewrite (pmeasure_give workers _ _ i pl y Hpl Hw).
    rewrite acts_set_worker.
    assert (fwd_weight x' = 3) as -> by (by destruct x'; simplify_eq).
    unfold weight; simpl. rewrite Ha, Hlen. nia.
  - rewrite Hfwd. simpl. rewrite length_app. simpl. nia.
  - rewrite Hfwd. simpl. nia.
  - rewrite Hfwd. simpl. rewrite length_app. simpl. nia.
  - rewrite Hfwd. simpl. nia.
  - rewrite Hfwd. simpl. nia.
  - rewrite Hb. simpl. nia.
  - rewrite Hb. simpl. nia.
Qed.

(** A call that has not returned both channels closed and drained can
    take a step. *)
Lemma sprogress actions inputs s :
  sinv actions inputs s → sresult (Next s) = None → ∃ e o, sexec e s = Some o.
Proof.
  intros Hinv Hres.
  pose proof Hinv as [Hp Ha Henv Hfd Hfdd Hflow Hcal Hout Hcap Herr Herrs Hpast1 Hfail Hpast].
  unfold sresult in Hres.
  destruct (caller s) eqn:Hcaller.
  - (* inside process *)
    destruct (todo (spipe s)) as [|a rest] eqn:Ht.
    + exists SReturn. destruct (pools (spipe s)) eqn:Hpl.
      * eexists. apply sexec_cases. by apply ss_return_panic.
      * eexists. apply sexec_cases. apply ss_return; congruence.
    + exists SCreate. eexists. apply sexec_cases. apply ss_create; [done|].
      unfold create. by rewrite Ht.
  - destruct Hcal as (Ht & Hpos & Hx).
    destruct (buf (out_ch s)) as [|v b] eqn:Hbo.
    2:{ exists SConsume. eexists. apply sexec_cases. by eapply ss_consume. }
    destruct (buf (err_ch s)) as [|e0 be] eqn:Hbe.
    2:{ exists SConsumeErr. eexists. apply sexec_cases. by eapply ss_consume_err. }
    destruct (fwd s) as [| |v|e0| | |] eqn:Hfwd; [done| | | | | |].
    + (* at the head of the loop *)
      destruct (lookup_lt_is_Some_2 (chans (spipe s)) (length (pools (spipe s))))
        as [c Hc].
      { rewrite (pinv_len _ _ Hp). lia. }
      destruct (buf c) as [|x b] eqn:Hb.
      2:{ exists SFwdRecv. destruct (forwarded x) eqn:Hfw;
            eexists; apply sexec_cases;
            [by eapply ss_fwd_recv|by eapply ss_fwd_recv_panic]. }
      destruct (closed c) eqn:Hcl.
      { exists SFwdRecv. eexists. apply sexec_cases. by eapply ss_fwd_end. }
      destruct (pipe_progress work workers (spipe s) (length (pools (spipe s)))
                  Hp (le_n _))
        as [(e & o & He)|[(k & i & y & Hk & _ & Hw)|(c0 & Hc0 & Hb0 & Hcl0 & Hj)]].
      * eauto.
      * intros; lia.
      * exists (SPipe e). destruct o as [p'|].
        -- eexists. apply sexec_cases. by apply ss_pipe.
        -- eexists. apply sexec_cases. by apply ss_pipe_panic.
      * apply worker_at_Some in Hw as (pl & Hpl & Hw).
        exists (SFwdHand i). destruct (forwarded y) eqn:Hfw;
          eexists; apply sexec_cases;
          [eapply ss_fwd_hand|eapply ss_fwd_hand_panic]; eauto;
          by rewrite Hk.
      * destruct (Hj Hpos) as [j Hw].
        apply worker_at_Some in Hw as (pl & Hpl & Hw).
        destruct (feeder s) as [|y|] eqn:Hfeed.
        -- destruct (buf (items_ch s)) as [|x b] eqn:Hbi.
           2:{ exists SFeedRecv. eexists. apply sexec_cases. by eapply ss_feed_recv. }
           destruct (closed (items_ch s)) eqn:Hcli.
           { exists SFeedRecv. eexists. apply sexec_cases. by eapply ss_feed_end. }
           destruct (prod s) as [|x rest] eqn:Hprod.
           { exists SProduceClose. eexists. apply sexec_cases.
             by eapply ss_produce_close. }
           exists SProduceHand. eexists. apply sexec_cases.
           by eapply ss_produce_hand.
        -- exists (SFeedHand j). destruct (work (act pl) y) eqn:Hwk;
             eexists; apply sexec_cases;
             [by eapply ss_feed_hand|by eapply ss_feed_hand_panic].
        -- destruct (Hfd c0 Hc0) as [_ Hcc]. rewrite Hcc in Hcl0; done.
    + (* holding a value *)
      exists SFwdGive. eexists. apply sexec_cases. eapply ss_fwd_give; [done..|].
      destruct (closed (out_ch s)) eqn:E; [|done].
      destruct Hout as [Hout _]. by specialize (Hout eq_refl).
    + (* holding an error *)
      exists SFwdErr. eexists. apply sexec_cases. eapply ss_fwd_err; [done| |].
      * destruct (closed (err_ch s)) eqn:E; [|done].
        destruct Herr as [Herr _]. by destruct (Herr eq_refl) as [_ [?|?]].
      * rewrite Hbe, Hcap. simpl. lia.
    + exists SFwdCloseErr. eexists. apply sexec_cases. by eapply ss_fwd_close_err.
    + exists SFwdCloseOut. eexists. apply sexec_cases. by eapply ss_fwd_close_out.
    + (* the forwarder is gone and the channels are drained *)
      exfalso. unfold drained in Hres. rewrite Hbo, Hbe in Hres.
      rewrite (proj2 Hout eq_refl) in Hres. simpl in Hres.
      destruct with_errors eqn:Ew; [|done]. simpl in Hres.
      rewrite (proj2 Herr) in Hres; [done|]. split; [done|by right].
Qed.

Lemma forwarded_Panic x : forwarded x = Panic → forward x = FPanic.
Proof. unfold forwarded. by destruct (forward x). Qed.

(** The only ways a streaming call can panic. *)
Lemma sexec_panic actions inputs s e :
  sinv actions inputs s → sexec e s = Some Panic →
  actions = [] ∨ FPanic ∈ fate actions <$> inputs.
Proof.
  intros Hinv He.
  pose proof (returned_exit _ _ _ Hinv) as Hret.
  sexec_inv He;
    pose proof Hinv as [Hp Ha Henv Hfd Hfdd Hflow Hcal Hout Hcap Herr Herrs Hpast1 Hfail Hpast].
  - rewrite (Henv Hcl) in Hprod. done.
  - apply (Hfd c Hc) in Hcl. congruence.
  - right. rewrite Hflow, Hfeed, !elem_of_app. right; left. simpl.
    assert (run work actions y = None) as ->; [|by left].
    rewrite <-Ha, <-rest_of_source.
    rewrite (rest_of_chan _ _ 0 (act pl)) by (by apply acts_lookup).
    by rewrite Hwk.
  - left. rewrite <-Ha. unfold acts. by rewrite Ht, Hpl.
  - right. apply (pexec_panic _ _ _ _ Hp) in Hpe.
    rewrite Hflow, !elem_of_app. right; right; left.
    apply list_elem_of_fmap. by exists None.
  - right. rewrite Hfwd in *. destruct Hret as (Hcaller & Ht & Hpos & Hlen); [done|].
    rewrite Hflow, !elem_of_app. right; right; left.
    apply list_elem_of_fmap. exists (Some x). split.
    { simpl. by rewrite (forwarded_Panic _ Hfw). }
    unfold residual. apply list_elem_of_fmap.
    exists (2 * length (pools (spipe s)), x). split.
    + rewrite rest_of_exit; [done|]. rewrite Ha. lia.
    + eapply flight_chan_elem; [done|]. rewrite Hb. by left.
  - right. rewrite Hfwd in *. destruct Hret as (Hcaller & Ht & Hpos & Hlen); [done|].
    rewrite Hflow, !elem_of_app. right; right; left.
    apply list_elem_of_fmap. exists (Some y). split.
    { simpl. by rewrite (forwarded_Panic _ Hfw). }
    unfold residual. apply list_elem_of_fmap.
    exists (S (2 * pred (length (pools (spipe s)))), y). split.
    + rewrite rest_of_sent, rest_of_exit; [done|]. rewrite Ha. lia.
    + by eapply flight_worker_elem.
  - apply Hout in Hcl. congruence.
  - apply Herr in Hcl as [_ [?|?]]; congruence.
Qed.

(** Every reachable state that has not panicked satisfies the invariant. *)
Lemma reachable_sinv actions (items : chan value) producer c :
  (closed items = true → producer = []) →
  reachable (streaming_call actions items producer) c →
  c = Panic ∨ ∃ s, c = Next s ∧ sinv actions (buf items ++ producer) s.
Proof.
  intros Henv. unfold reachable. revert c. apply rtc_ind_r.
  - right. exists (sinit actions items producer). split; [done|].
    by apply sinv_init.
  - intros c c' Hr Hstep IH. destruct Hstep as (s & e & -> & He).
    destruct IH as [?|(s0 & [= <-] & Hinv)]; [done|].
    destruct c' as [s'|]; [|by left]. right.
    exists s'. split; [done|]. by eapply sinv_step.
Qed.

(** A streaming call whose producer behaves gets both channels closed
    and drained in every run, when no item makes a worker or the
    forwarder panic. *)
Lemma streaming_returns actions (items : chan value) producer
  (P : list value * list goerror → Prop) :
  (closed items = true → producer = []) →
  actions ≠ [] →
  (∀ x, x ∈ buf items ++ producer → fate actions x ≠ FPanic) →
  (∀ s, sinv actions (buf items ++ producer) s →
        caller s = CReturned → fwd s = XDone →
        buf (out_ch s) = [] → buf (err_ch s) = [] → P (got s, gote s)) →
  returns (streaming_call actions items producer) P.
Proof.
  intros Henv Hne Hfate HP.
  assert (∀ c, reachable (streaming_call actions items producer) c → c ≠ Panic)
    as Hsafe.
  { unfold reachable. apply rtc_ind_r; [done|].
    intros c c' Hr (s & e & -> & He) _ ->.
    destruct (reachable_sinv _ _ _ _ Henv Hr) as [?|(s0 & [= <-] & Hinv)]; [done|].
    destruct (sexec_panic _ _ _ _ Hinv He) as [?|Hin]; [done|].
    apply list_elem_of_fmap in Hin as (x & Hx & Hin).
    by apply (Hfate x). }
  split.
  - intros c Hr. split; [by apply Hsafe|].
    destruct (reachable_sinv _ _ _ _ Henv Hr) as [->|(s & -> & Hinv)].
    { by destruct (Hsafe _ Hr). }
    split.
    + intros r Hres. simpl in Hres. unfold sresult in Hres.
      destruct (caller s) eqn:Hcaller; [done|].
      destruct (drained (out_ch s)) eqn:Hdo; [|done].
      apply andb_true_iff in Hdo as [Hco Hbo].
      apply bool_decide_eq_true in Hbo.
      assert (fwd s = XDone) as Hx by (by apply (si_out _ _ _ _ _ _ _ _ Hinv)).
      assert (buf (err_ch s) = []) as Hbe.
      { destruct with_errors eqn:Ew.
        - simpl in Hres. destruct (drained (err_ch s)) eqn:Hde; [|done].
          apply andb_true_iff in Hde as [_ Hbe]. by apply bool_decide_eq_true in Hbe.
        - destruct (buf (err_ch s)) eqn:E; [done|].
          destruct (si_errs_past _ _ _ _ _ _ _ _ Hinv) as [? _]; [|congruence].
          unfold errs. rewrite E. by destruct (gote s). }
      assert (r = (got s, gote s)) as ->.
      { destruct (negb with_errors || drained (err_ch s)); by simplify_eq/=. }
      by apply HP.
    + intros Hres. destruct (sprogress _ _ _ Hinv Hres) as (e & o & He).
      exists o. by exists s, e.
  - exists smeasure. intros c c' Hr (s & e & -> & He).
    destruct (reachable_sinv _ _ _ _ Henv Hr) as [?|(s0 & [= <-] & Hinv)]; [done|].
    by eapply smeasure_step.
Qed.

(** Where everything is once the forwarder is gone. *)
Lemma sinv_final actions inputs s :
  sinv actions inputs s → fwd s = XDone →
  buf (out_ch s) = [] → buf (err_ch s) = [] →
  length (gote s) ≤ 1 ∧
  (gote s ≠ [] → with_errors = true) ∧
  ∃ rest,
    fate actions <$> inputs ≡ₚ (FValue <$> got s) ++ (FError <$> gote s) ++ rest ∧
    (0 < Z.to_nat workers → gote s = [] → rest = []).
Proof.
  intros Hinv Hx Hbo Hbe.
  pose proof Hinv as [Hp Ha Henv Hfd Hfdd Hflow Hcal Hout Hcap Herr Herrs Hpast1 Hfail Hpast].
  unfold errs, vals in *. rewrite Hx, Hbo, Hbe, !app_nil_r in *. simpl in *.
  split; [done|]. split; [by intros []%Hpast1|].
  exists ((fate actions <$> buf (items_ch s) ++ prod s)
          ++ (post ∘ run work actions <$> held_feed (feeder s))
          ++ (post <$> residual work (spipe s))).
  split; [rewrite Hflow; solve_Permutation|].
  intros HW Hg. destruct (Hpast eq_refl) as [?|(c & Hc & Hcl & Hb)]; [done|].
  destruct (drained_upstream _ _ _ _ Hp HW (le_n _) Hc Hcl Hb) as [H0 _].
  destruct (lookup_lt_is_Some_2 (chans (spipe s)) 0) as [c0 Hc0].
  { rewrite (pinv_len _ _ Hp). lia. }
  destruct (H0 0 c0) as [Hcl0 _]; [lia|done|].
  apply (Hfd c0 Hc0) in Hcl0. destruct (Hfdd Hcl0) as [Hcli Hbi].
  unfold residual. rewrite (drained_flight _ _ _ Hp HW Hc Hcl Hb).
  rewrite Hcl0, Hbi, (Henv Hcli). done.
Qed.

(** Once an error has been sent, no value is sent any more. *)
Lemma errs_stop actions inputs s e s' :
  sinv actions inputs s → errs s ≠ [] → sexec e s = Some (Next s') →
  vals s' = vals s ∧ errs s' ≠ [].
Proof.
  intros Hinv Herr He.
  destruct (si_errs_past _ _ _ _ _ _ _ _ Hinv Herr) as [_ Hpast].
  pose proof (si_caller _ _ _ _ _ _ _ _ Hinv) as Hcal.
  sexec_inv He; unfold vals, errs in *; simpl; try done;
    try (rewrite Hfwd in Hpast; done).
  - rewrite Hcaller in Hcal. destruct Hcal as [Hx _]. by rewrite Hx in Hpast.
  - split; [|done]. rewrite Hb, <-(assoc app). done.
  - split; [done|]. intros [? ?]%app_eq_nil. by destruct (gote s).
Qed.

(** ... in the rest of the run. *)
Lemma errs_stop_rtc actions (items : chan value) producer s c :
  (closed items = true → producer = []) →
  reachable (streaming_call actions items producer) (Next s) → errs s ≠ [] →
  rtc (step (streaming_call actions items producer)) (Next s) c →
  reachable (streaming_call actions items producer) c ∧
  ∀ s', c = Next s' → vals s' = vals s ∧ errs s' ≠ [].
Proof.
  intros Henv Hr Herr. revert c. apply rtc_ind_r.
  - split; [done|]. by intros s' [= <-].
  - intros c c' Hrtc Hstep [Hrc IH]. split.
    + eapply rtc_r; done.
    + intros s' ->. destruct Hstep as (s1 & e & -> & He).
      destruct (IH s1 eq_refl) as [Hv He1].
      destruct (reachable_sinv _ _ _ _ Henv Hrc) as [?|(s0 & [= <-] & Hinv)]; [done|].
      destruct (errs_stop _ _ _ _ _ Hinv He1 He) as [Hv' ?].
      split; [congruence|done].
Qed.

(** A schedule is a run. *)
Lemma srun_rtc es c c' :
  srun work workers wrap forward with_errors es c = Some c' →
  rtc (sstep work workers wrap forward with_errors) c c'.
Proof.
  revert c. induction es as [|e es IH]; intros c; simpl.
  - by intros [= ->].
  - destruct c as [s|]; [|done]. destruct (sexec e s) as [c1|] eqn:E; [|done].
    simpl. intros Hr. eapply rtc_l; [|by apply IH]. by exists s, e.
Qed.

End StreamingFacts.

(** ** The claims about the streaming API *)

Lemma Permutation_fmap_inj {A B} (f : A → B) `{!Inj (=) (=) f} (l1 l2 : list A) :
  f <$> l1 ≡ₚ f <$> l2 → l1 ≡ₚ l2.
Proof.
  intros Hp. apply Permutation_map_inv in Hp as (l3 & E & Hp).
  apply (inj (fmap f)) in E. subst. by symmetry.
Qed.

#[local] Instance FValue_inj `{GoValues} : Inj (=) (=) (@FValue _).
Proof. by intros ?? [= ->]. Qed.

Section StreamingClaims.
Context `{GoValues}.
Variable Input Output : gotype.

Lemma TransformChannels_worker_ok (f : TransformAction) x :
  typeof x = Input → TransformChannels_worker Input f x = Some (f x).
Proof. intros Hx. unfold TransformChannels_worker. by rewrite (assert_Some _ _ Hx). Qed.

Lemma run_TransformChannels (actions : list TransformAction) x :
  Forall (action_typed Input Output) actions → typeof x = Input →
  length actions ≤ 1 ∨ Output = Input →
  run (TransformChannels_worker Input) actions x = Some (apply_all actions x).
Proof.
  intros Hty Hx Hadj. revert x Hx.
  induction Hty as [|f actions Hf Hty IH]; intros x Hx; simpl; [done|].
  rewrite TransformChannels_worker_ok by done. simpl.
  destruct actions as [|g actions]; [done|].
  destruct Hadj as [?|Heq]; [simpl in *; lia|].
  apply IH; [by right|]. rewrite <-Heq. by apply Hf.
Qed.

Lemma fate_TransformChannels (actions : list TransformAction) x :
  Forall (action_typed Input Output) actions → typeof x = Input →
  length actions ≤ 1 ∨ Output = Input → actions ≠ [] →
  fate (TransformChannels_worker Input) id (TransformChannels_forward Output)
       actions x
  = FValue (apply_all actions x).
Proof.
  intros Hty Hx Hadj Hne. unfold fate. simpl.
  rewrite run_TransformChannels by done. simpl.
  unfold TransformChannels_forward.
  by rewrite assert_Some by (by apply (apply_all_typed Input Output)).
Qed.

Lemma TransformChannels_forward_no_error :
  false = false → ∀ x e, TransformChannels_forward Output x ≠ FError e.
Proof.
  intros _ x e. unfold TransformChannels_forward. by destruct (assert Output x).
Qed.

(** Every run of [TransformChannels] hands the consumer, in some order,
    what the stages make of the values sent on [items]. *)
Lemma TransformChannels_returns W (items : chan value) producer
  (actions : list TransformAction) :
  (1 ≤ W)%Z → (closed items = true → producer = []) → actions ≠ [] →
  Forall (λ x, typeof x = Input) (buf items ++ producer) →
  Forall (action_typed Input Output) actions →
  length actions ≤ 1 ∨ Output = Input →
  returns (TransformChannels Input Output (NewTransformer W) items producer actions)
    (λ r, r.1 ≡ₚ apply_all actions <$> (buf items ++ producer) ∧ r.2 = []).
Proof.
  intros HW Henv Hne Hin Hty Hadj.
  assert (fate (TransformChannels_worker Input) id (TransformChannels_forward Output)
               actions <$> (buf items ++ producer)
          = FValue <$> (apply_all actions <$> (buf items ++ producer))) as Hfates.
  { rewrite <-list_fmap_compose. apply Forall_fmap_ext_1.
    eapply Forall_impl; [exact Hin|]. intros x Hx. simpl.
    by apply fate_TransformChannels. }
  unfold TransformChannels.
  apply (streaming_returns _ _ _ _ _ TransformChannels_forward_no_error); try done.
  - intros x Hx. rewrite fate_TransformChannels; try done.
    by apply (proj1 (Forall_forall _ _) Hin).
  - intros s Hinv Hcaller Hx Hbo Hbe.
    destruct (sinv_final _ _ _ _ _ _ _ _ Hinv Hx Hbo Hbe) as (Hlen & Hwe & rest & Hperm & Hrest).
    assert (gote s = []) as Hg.
    { destruct (gote s); [done|]. by discriminate Hwe. }
    simpl. split; [|done]. rewrite Hg in *.
    rewrite Hrest in Hperm by (done || (simpl; lia)).
    simpl in Hperm. rewrite app_nil_r in Hperm.
    apply (Permutation_fmap_inj FValue). by rewrite <-Hperm, Hfates.
Qed.

Lemma TransformChannelsWithError_worker_ok (f : TransformActionWithError) e :
  typeof (ItemE e) = Input →
  TransformChannelsWithError_worker Input f e
  = Some (mkItemWithError (f (ItemE e)).1 (f (ItemE e)).2).
Proof.
  intros He. unfold TransformChannelsWithError_worker. by rewrite (assert_Some _ _ He).
Qed.

Lemma run_TransformChannelsWithError (actions : list TransformActionWithError) x e0 :
  Forall (action_typed_err Input Output) actions → typeof x = Input →
  length actions ≤ 1 ∨ Output = Input →
  run (TransformChannelsWithError_worker Input) actions (mkItemWithError x e0)
  = Some (mkItemWithError (apply_all_err actions (x, e0)).1
                          (apply_all_err actions (x, e0)).2).
Proof.
  intros Hty Hx Hadj. revert x e0 Hx.
  induction Hty as [|f actions Hf Hty IH]; intros x e0 Hx; simpl; [done|].
  rewrite TransformChannelsWithError_worker_ok by done. simpl.
  destruct actions as [|g actions]; [done|].
  destruct Hadj as [?|Heq]; [simpl in *; lia|].
  rewrite IH; [|by right|rewrite <-Heq; by apply Hf].
  by destruct (f x).
Qed.

Lemma fate_TransformChannelsWithError (actions : list TransformActionWithError) x :
  Forall (action_typed_err Input Output) actions → typeof x = Input →
  length actions ≤ 1 ∨ Output = Input → actions ≠ [] →
  fate (TransformChannelsWithError_worker Input) (λ item, mkItemWithError item None)
       (TransformChannelsWithError_forward Output) actions x
  = forwarded_as actions x.
Proof.
  intros Hty Hx Hadj Hne. unfold fate, forwarded_as, final.
  rewrite run_TransformChannelsWithError by done. simpl.
  unfold TransformChannelsWithError_forward. simpl.
  destruct (apply_all_err actions (x, None)).2; [done|].
  by rewrite assert_Some by (by apply (apply_all_err_typed Input Output)).
Qed.

Lemma TransformChannelsWithError_forward_error :
  true = false → ∀ x e, TransformChannelsWithError_forward Output x ≠ FError e.
Proof. done. Qed.

Lemma TransformChannelsWithError_fates (items : list value)
  (actions : list TransformActionWithError) :
  Forall (λ x, typeof x = Input) items →
  Forall (action_typed_err Input Output) actions →
  length actions ≤ 1 ∨ Output = Input → actions ≠ [] →
  fate (TransformChannelsWithError_worker Input) (λ item, mkItemWithError item None)
       (TransformChannelsWithError_forward Output) actions <$> items
  = forwarded_as actions <$> items.
Proof.
  intros Hin Hty Hadj Hne. apply Forall_fmap_ext_1.
  eapply Forall_impl; [exact Hin|]. intros x Hx. simpl.
  by apply fate_TransformChannelsWithError.
Qed.

Lemma forwarded_as_no_panic (actions : list TransformActionWithError) x :
  forwarded_as actions x ≠ FPanic.
Proof. unfold forwarded_as. by destruct (final actions x).2. Qed.

(** Every run of [TransformChannelsWithError] ends with both channels
    closed and drained; the consumer has then received at most one
    error, and values and error are what the forwarder makes of as many
    of the inputs. *)
Lemma TransformChannelsWithError_returns (t : transformer) (items : chan value)
  producer (actions : list TransformActionWithError) :
  (closed items = true → producer = []) → actions ≠ [] →
  Forall (λ x, typeof x = Input) (buf items ++ producer) →
  Forall (action_typed_err Input Output) actions →
  length actions ≤ 1 ∨ Output = Input →
  returns (TransformChannelsWithError Input Output t items producer actions)
    (λ r, length r.2 ≤ 1 ∧
          ∃ rest,
            forwarded_as actions <$> (buf items ++ producer)
            ≡ₚ (FValue <$> r.1) ++ (FError <$> r.2) ++ rest ∧
            ((1 ≤ workers t)%Z → r.2 = [] → rest = [])).
Proof.
  intros Henv Hne Hin Hty Hadj.
  pose proof (TransformChannelsWithError_fates _ _ Hin Hty Hadj Hne) as Hfates.
  unfold TransformChannelsWithError.
  apply (streaming_returns _ _ _ _ _ TransformChannelsWithError_forward_error);
    try done.
  - intros x Hx. rewrite fate_TransformChannelsWithError; try done.
    + apply forwarded_as_no_panic.
    + by apply (proj1 (Forall_forall _ _) Hin).
  - intros s Hinv Hcaller Hx Hbo Hbe.
    destruct (sinv_final _ _ _ _ _ _ _ _ Hinv Hx Hbo Hbe) as (Hlen & Hwe & rest & Hperm & Hrest).
    simpl. split; [done|]. exists rest. split; [by rewrite <-Hfates|].
    intros HW. apply Hrest. lia.
Qed.

(** When no input is left with an error, no error is forwarded, and
    what is forwarded when nothing is left out is the value of every
    input. *)
Lemma forwarded_all_values (actions : list TransformActionWithError)
  (inputs vs : list value) (es : list goerror) (rest : list foutcome) :
  (∀ x, x ∈ inputs → (final actions x).2 = None) →
  forwarded_as actions <$> inputs ≡ₚ (FValue <$> vs) ++ (FError <$> es) ++ rest →
  es = [] ∧ (rest = [] → vs ≡ₚ (λ x, (final actions x).1) <$> inputs).
Proof.
  intros Hok Hperm.
  assert (forwarded_as actions <$> inputs
          = FValue <$> ((λ x, (final actions x).1) <$> inputs)) as Hall.
  { rewrite <-list_fmap_compose. apply Forall_fmap_ext_1, Forall_forall.
    intros x Hx. simpl. unfold forwarded_as. by rewrite (Hok x Hx). }
  assert (es = []) as ->.
  { destruct es as [|e es]; [done|]. exfalso.
    assert (FError e ∈ forwarded_as actions <$> inputs) as Hin.
    { rewrite Hperm. apply elem_of_app. right. by left. }
    rewrite Hall in Hin. by apply list_elem_of_fmap in Hin as (? & ? & _). }
  split; [done|]. intros ->. simpl in Hperm. rewrite app_nil_r in Hperm.
  apply (Permutation_fmap_inj FValue). by rewrite <-Hperm, Hall.
Qed.

(** C8. For a channel [items] whose sender sends finitely many values
    and then closes it, a single action [f] and [W >= 1] workers, every
    run of [TransformChannels] ends with the returned channel closed and
    drained, and what the consumer has received from it is, as a
    multiset, [f] applied to the values sent: a permutation of
    [map f inputs], in whatever order the interleaving gives. *)
Theorem TransformChannels_multiset (W : Z) (items : chan value)
  (producer : list value) (f : TransformAction) :
  (1 ≤ W)%Z →
  (closed items = true → producer = []) →
  Forall (λ x, typeof x = Input) (buf items ++ producer) →
  action_typed Input Output f →
  returns (TransformChannels Input Output (NewTransformer W) items producer [f])
    (λ r, r.1 ≡ₚ f <$> (buf items ++ producer)).
Proof.
  intros HW Henv Hin Hf.
  eapply returns_impl;
    [|apply (TransformChannels_returns W items producer [f])]; try done.
  - by intros r [Hr _].
  - by constructor.
  - left. simpl. lia.
Qed.

End StreamingClaims.

(** The input of the streaming tests: a channel of capacity nine, filled
    with 1 to 9 and closed. *)
Lemma TransformChannels_multiset_witness :
  returns (@TransformChannels test_values TInt TInt (NewTransformer 4)
             (Chan [VInt 1; VInt 2; VInt 3; VInt 4; VInt 5; VInt 6; VInt 7;
                    VInt 8; VInt 9] 9 true) [] [double])
    (λ r, r.1 ≡ₚ [VInt 2; VInt 4; VInt 6; VInt 8; VInt 10; VInt 12; VInt 14;
                  VInt 16; VInt 18]).
Proof.
  apply (@TransformChannels_multiset test_values TInt TInt 4
           (Chan [VInt 1; VInt 2; VInt 3; VInt 4; VInt 5; VInt 6; VInt 7;
                  VInt 8; VInt 9] 9 true) [] double).
  - lia.
  - reflexivity.
  - repeat constructor.
  - intros [s|n] Hv; [discriminate Hv|reflexivity].
Defined.



(** The order of the values is not kept: with two workers, the second
    value of the channel can reach the consumer before the first. *)
Example TransformChannels_order_not_kept :
  ∃ c, reachable (@TransformChannels test_values TInt TInt (NewTransformer 2)
                    (Chan [VInt 1; VInt 2] 2 true) [] [double]) c ∧
       result (@TransformChannels test_values TInt TInt (NewTransformer 2)
                 (Chan [VInt 1; VInt 2] 2 true) [] [double]) c
       = Some ([VInt 4; VInt 2], []).
Proof.
  eexists. split.
  - apply (srun_rtc _ _ _ _ _
             [SCreate; SReturn; SFeedRecv; SFeedHand 0; SFeedRecv; SFeedHand 1;
              SFwdHand 1; SFwdSend; SFwdHand 0; SFwdSend; SFeedRecv;
              SPipe (PRecv 0 0); SPipe (PRecv 0 1); SPipe (PClose 0);
              SFwdRecv; SFwdCloseOut; SConsume; SConsume]).
    vm_compute. reflexivity.
  - vm_compute. reflexivity.
Qed.

(** ** Where the code departs from its documentation *)

(** C5, on the code. [errorFunc] fails on the item, [upperCase] then
    succeeds on what [errorFunc] returned with its error, and the worker
    sends the item on with [upperCase]'s nil error: every run of
    [TransformWithError(["a"], errorFunc, upperCase)] returns
    [(["A"], nil)], a result and no error. *)
Theorem TransformWithError_error_lost :
  returns (@TransformWithError test_values TStr TStr (NewTransformer 1)
             [VStr "a"] [errorFunc; upperCase])
    (λ r, r = (Some [VStr "A"], None)).
Proof.
  eapply returns_impl;
    [|apply (@TransformWithError_returns test_values TStr TStr 1 [VStr "a"]
               [errorFunc; upperCase])].
  - intros r [(i & x & err & Hx & Herr & _)|[_ ->]]; [|reflexivity].
    destruct i as [|i]; [|done]. simpl in Hx. by simplify_eq.
  - lia.
  - discriminate.
  - repeat constructor.
  - repeat constructor; intros [s|n] Hv; try reflexivity; discriminate Hv.
  - by right.
Qed.

(** C2, on the code. A worker sends on what its own action returned: an
    item that arrives with an error leaves the stage of [upperCase]
    with a nil error, in [TransformWithError] and in
    [TransformChannelsWithError] alike; and every run of
    [TransformChannelsWithError] over a channel holding ["a"] with
    [errorFunc, upperCase] ends with ["A"] received as a value and the
    errors channel closed empty. *)
Theorem later_stage_overwrites_error :
  @TransformWithError_worker test_values TStr upperCase
    (mkIndexedItemWithError 0 (VStr "a") (Some "error"%string))
  = Some (mkIndexedItemWithError 0 (VStr "A") None) ∧
  @TransformChannelsWithError_worker test_values TStr upperCase
    (mkItemWithError (VStr "a") (Some "error"%string))
  = Some (mkItemWithError (VStr "A") None) ∧
  returns (@TransformChannelsWithError test_values TStr TStr (NewTransformer 1)
             (Chan [VStr "a"] 1 true) [] [errorFunc; upperCase])
    (λ r, r = ([VStr "A"], [])).
Proof.
  split; [reflexivity|]. split; [reflexivity|].
  eapply returns_impl;
    [|apply (@TransformChannelsWithError_returns test_values TStr TStr
               (NewTransformer 1) (Chan [VStr "a"] 1 true) []
               [errorFunc; upperCase])].
  - intros [vs es] (Hlen & rest & Hperm & Hrest). simpl in *.
    destruct es as [|e es].
    + rewrite Hrest in Hperm by (done || lia). simpl in Hperm.
      rewrite app_nil_r in Hperm. symmetry in Hperm.
      change [@forwarded_as test_values [errorFunc; upperCase] (VStr "a")]
        with (@FValue test_values <$> [VStr "A"]) in Hperm.
      pose proof (Permutation_fmap_inj (@FValue test_values) vs [VStr "A"] Hperm)
        as Hvs.
      by apply Permutation_singleton_r in Hvs as ->.
    + exfalso.
      assert (@FError test_values e
              ∈ [@forwarded_as test_values [errorFunc; upperCase] (VStr "a")])
        as Hin.
      { rewrite Hperm. apply elem_of_app. right. by left. }
      apply list_elem_of_singleton in Hin. discriminate Hin.
  - reflexivity.
  - discriminate.
  - repeat constructor.
  - repeat constructor; intros [s|n] Hv; try reflexivity; discriminate Hv.
  - by right.
Qed.

(** * The singly linked list *)

Lemma int_wrap_id (z : Z) : (- 2 ^ 63 ≤ z ≤ max_int)%Z → int_wrap z = z.
Proof.
  unfold int_wrap, max_int. intros Hz.
  rewrite Z.mod_small by lia. lia.
Qed.

Section ListFacts.
Import Lists.
Context {T : Type} `{EqDecision T}.
Variable zero : T.
Implicit Types (xs : list T) (v : T).

Lemma values_inj (a b : Node (T:=T)) : values a = values b → a = b.
Proof.
  revert b. induction a as [|v a IH]; intros [|w b]; simpl; try done.
  intros [= -> Hab]. f_equal. by apply IH.
Qed.

Lemma holds_size l xs : holds l xs → size l = Z.of_nat (length xs).
Proof. by intros (_ & ? & _). Qed.

Lemma holds_unique l xs ys : holds l xs → holds l ys → xs = ys.
Proof. intros [<- _] [<- _]. done. Qed.

Lemma holds_eq l l' xs : holds l xs → holds l' xs → l = l'.
Proof.
  destruct l as [h n], l' as [h' n']. intros (Hv & Hn & _) (Hv' & Hn' & _).
  simpl in *. f_equal; [|congruence]. apply values_inj. congruence.
Qed.

Lemma incr_size l xs :
  holds l xs → (size l < max_int)%Z → incr (size l) = Z.of_nat (S (length xs)).
Proof.
  intros (_ & Hn & _) Hlt. unfold incr. rewrite int_wrap_id; unfold max_int in *; lia.
Qed.

Lemma decr_size l x xs :
  holds l (x :: xs) → decr (size l) = Z.of_nat (length xs).
Proof.
  intros (_ & Hn & Hmax). simpl in Hn. unfold decr.
  rewrite int_wrap_id; unfold max_int in *; lia.
Qed.

Lemma holds_intro (h : Node (T:=T)) (n : Z) xs :
  values h = xs → n = Z.of_nat (length xs) → (n ≤ max_int)%Z →
  holds (mkSinglyLinkedList h n) xs.
Proof. by intros; split. Qed.

Lemma holds_InsertFirst v l xs :
  holds l xs → (size l < max_int)%Z → holds (InsertFirst v l) (v :: xs).
Proof.
  intros Hl Hlt. pose proof Hl as (Hv & Hn & _). apply holds_intro; simpl.
  - by rewrite Hv.
  - by rewrite (incr_size _ _ Hl Hlt).
  - rewrite (incr_size _ _ Hl Hlt). lia.
Qed.

Lemma values_link_last v (next newNode : Node (T:=T)) :
  values (link_last v next newNode) = v :: values next ++ values newNode.
Proof.
  revert v. induction next as [|w next IH]; intros v; simpl; [done|].
  by rewrite IH.
Qed.

Lemma holds_InsertLast v l xs :
  holds l xs → (size l < max_int)%Z → holds (InsertLast v l) (xs ++ [v]).
Proof.
  intros Hl Hlt. pose proof Hl as (Hv & Hn & _).
  unfold InsertLast. destruct (head l) as [|w next] eqn:Hh; simpl in Hv; subst xs;
    apply holds_intro; simpl.
  - done.
  - by rewrite (incr_size _ _ Hl Hlt).
  - rewrite (incr_size _ _ Hl Hlt). simpl in *. lia.
  - by rewrite values_link_last.
  - rewrite (incr_size _ _ Hl Hlt). simpl. rewrite length_app. simpl. lia.
  - rewrite (incr_size _ _ Hl Hlt). simpl in *. lia.
Qed.

(** The walk of [InsertAt] finds its node exactly when the chain is long
    enough. *)
Lemma link_after_Next k (current : Node (T:=T)) v :
  k < length (values current) →
  ∃ h, link_after k current v = Next h ∧
       values h = take (S k) (values current) ++ v :: drop (S k) (values current).
Proof.
  revert current. induction k as [|k IH]; intros [|w next]; simpl; try lia.
  - intros _. eexists. split; [done|]. simpl. by rewrite ?take_0, ?drop_0.
  - intros Hk. destruct (IH next) as (h & -> & Hh); [lia|].
    eexists. split; [done|]. simpl. by rewrite Hh.
Qed.

Lemma link_after_Panic k (current : Node (T:=T)) v :
  length (values current) ≤ k → link_after k current v = Panic.
Proof.
  revert current. induction k as [|k IH]; intros [|w next]; simpl; try done; try lia.
  intros Hk. rewrite IH; [done|lia].
Qed.

Lemma InsertAt_in_range v (i : Z) l xs :
  holds l xs → (size l < max_int)%Z → (0 ≤ i ≤ size l)%Z →
  ∃ l', InsertAt v i l = Next (l', None) ∧
        holds l' (take (Z.to_nat i) xs ++ v :: drop (Z.to_nat i) xs).
Proof.
  intros Hl Hlt Hi. pose proof Hl as (Hv & Hn & _).
  unfold InsertAt. rewrite decide_False by lia.
  destruct (decide (i = 0)%Z) as [->|Hi0].
  - eexists. split; [done|]. simpl. by apply holds_InsertFirst.
  - destruct (link_after_Next (Z.to_nat (i - 1)) (head l) v) as (h & -> & Hh).
    { rewrite Hv. lia. }
    eexists. split; [done|].
    replace (S (Z.to_nat (i - 1))) with (Z.to_nat i) in Hh by lia.
    apply holds_intro.
    + by rewrite Hh, Hv.
    + rewrite (incr_size _ _ Hl Hlt), length_app, length_take. simpl.
      rewrite length_drop. lia.
    + rewrite (incr_size _ _ Hl Hlt). lia.
Qed.

Lemma InsertAt_out_of_range v (i : Z) l :
  ¬ (0 ≤ i ≤ size l)%Z → InsertAt v i l = Next (l, Some index_out_of_range).
Proof. intros Hi. unfold InsertAt. by rewrite decide_True by lia. Qed.

(** [InsertAt] with an index from [0] to [Size()] puts the value at that
    index, dereferences no nil pointer and returns no error; with any
    other index it returns the error and leaves the list as it was. *)
Theorem InsertAt_spec v (i : Z) l xs :
  holds l xs → (size l < max_int)%Z →
  ((0 ≤ i ≤ size l)%Z →
   ∃ l', InsertAt v i l = Next (l', None) ∧
         holds l' (take (Z.to_nat i) xs ++ v :: drop (Z.to_nat i) xs)) ∧
  (¬ (0 ≤ i ≤ size l)%Z → InsertAt v i l = Next (l, Some index_out_of_range)).
Proof.
  intros Hl Hlt. split.
  - intros Hi. by apply InsertAt_in_range.
  - apply InsertAt_out_of_range.
Qed.

(** [InsertFirst] puts the value in front and [InsertLast] at the end,
    and they do what [InsertAt] does with the indices [0] and
    [Size()]. *)
Theorem InsertFirst_InsertLast_ends v l xs :
  holds l xs → (size l < max_int)%Z →
  holds (InsertFirst v l) (v :: xs) ∧
  holds (InsertLast v l) (xs ++ [v]) ∧
  InsertAt v 0 l = Next (InsertFirst v l, None) ∧
  InsertAt v (size l) l = Next (InsertLast v l, None).
Proof.
  intros Hl Hlt. pose proof Hl as (Hv & Hn & _).
  split; [by apply holds_InsertFirst|].
  split; [by apply holds_InsertLast|]. split.
  - unfold InsertAt. rewrite decide_False by lia. by rewrite decide_True.
  - destruct (InsertAt_in_range v (size l) l xs Hl Hlt) as (l' & -> & Hl'); [lia|].
    do 2 f_equal.
    apply (holds_eq _ _ (xs ++ [v])); [|by apply holds_InsertLast].
    rewrite Hn, Nat2Z.id, take_ge, drop_ge in Hl' by lia. done.
Qed.

Lemma unlink_after_Next k (current : Node (T:=T)) x :
  values current !! S k = Some x →
  ∃ h, unlink_after k current = Next (x, h) ∧
       values h = delete (S k) (values current).
Proof.
  revert current. induction k as [|k IH]; intros [|w next]; simpl; try done.
  - destruct next as [|w' next]; simpl; [done|]. intros [= ->]. eauto.
  - intros Hk. destruct (IH next Hk) as (h & -> & Hh).
    eexists. split; [done|]. simpl. by rewrite Hh.
Qed.

Lemma holds_DeleteFirst l x xs :
  holds l (x :: xs) →
  ∃ l', DeleteFirst zero l = (l', (x, None)) ∧ holds l' xs.
Proof.
  intros Hl. pose proof Hl as (Hv & Hn & Hmax). unfold DeleteFirst.
  destruct (head l) as [|w next]; simplify_eq/=.
  eexists. split; [done|]. apply holds_intro; simpl; [done|..].
  - by rewrite (decr_size _ _ _ Hl).
  - rewrite (decr_size _ _ _ Hl). lia.
Qed.

Lemma DeleteAt_in_range (i : Z) l xs :
  holds l xs → (0 ≤ i < size l)%Z →
  ∃ x l', xs !! Z.to_nat i = Some x ∧
          DeleteAt zero i l = Next (l', (x, None)) ∧
          holds l' (delete (Z.to_nat i) xs).
Proof.
  intros Hl Hi. pose proof Hl as (Hv & Hn & Hmax).
  unfold DeleteAt. rewrite decide_False by lia.
  destruct (lookup_lt_is_Some_2 xs (Z.to_nat i)) as [x Hx]; [lia|].
  exists x. destruct (decide (i = 0)%Z) as [->|Hi0].
  - destruct xs as [|x' xs]; simplify_eq/=.
    destruct (holds_DeleteFirst _ _ _ Hl) as (l' & -> & Hl'). eauto.
  - replace (Z.to_nat i) with (S (Z.to_nat (i - 1))) in * by lia.
    destruct (unlink_after_Next (Z.to_nat (i - 1)) (head l) x) as (h & -> & Hh).
    { by rewrite Hv. }
    eexists. split; [done|]. split; [done|].
    destruct xs as [|x' xs]; [done|].
    apply holds_intro.
    + by rewrite Hh, Hv.
    + rewrite (decr_size _ _ _ Hl), length_delete by eauto. simpl. lia.
    + rewrite (decr_size _ _ _ Hl). simpl in Hn. lia.
Qed.

Lemma DeleteAt_out_of_range (i : Z) l :
  ¬ (0 ≤ i < size l)%Z →
  DeleteAt zero i l = Next (l, (zero, Some index_out_of_range)).
Proof. intros Hi. unfold DeleteAt. by rewrite decide_True by lia. Qed.

(** [DeleteAt] with an index below [Size()] returns the value at that
    index and takes it out, dereferencing no nil pointer; with any other
    index it returns the zero value and the error, and leaves the list
    as it was. *)
Theorem DeleteAt_spec (i : Z) l xs :
  holds l xs →
  ((0 ≤ i < size l)%Z →
   ∃ x l', xs !! Z.to_nat i = Some x ∧
           DeleteAt zero i l = Next (l', (x, None)) ∧
           holds l' (delete (Z.to_nat i) xs)) ∧
  (¬ (0 ≤ i < size l)%Z →
   DeleteAt zero i l = Next (l, (zero, Some index_out_of_range))).
Proof.
  intros Hl. split.
  - intros Hi. by apply DeleteAt_in_range.
  - apply DeleteAt_out_of_range.
Qed.

Lemma cut_last_values v v' (next' : Node (T:=T)) :
  values (cut_last v v' next').2 ++ [(cut_last v v' next').1]
  = v :: v' :: values next'.
Proof.
  revert v v'. induction next' as [|w next IH]; intros v v'; simpl; [done|].
  specialize (IH v' w). destruct (cut_last v' w next) as [last rest].
  simpl in *. by rewrite IH.
Qed.

Lemma holds_DeleteLast l xs x :
  holds l (xs ++ [x]) →
  ∃ l', DeleteLast zero l = (l', (x, None)) ∧ holds l' xs.
Proof.
  intros Hl. pose proof Hl as (Hv & Hn & Hmax).
  rewrite length_app in Hn. simpl in Hn.
  assert (decr (size l) = Z.of_nat (length xs)) as Hd.
  { unfold decr. rewrite int_wrap_id; unfold max_int in *; lia. }
  unfold DeleteLast. destruct (head l) as [|v [|v' next']]; simpl in Hv.
  - by destruct xs.
  - destruct xs as [|? [|]]; simplify_eq/=.
    eexists. split; [done|]. apply holds_intro; simpl; [done|lia..].
  - pose proof (cut_last_values v v' next') as Hc.
    destruct (cut_last v v' next') as [last rest]. simpl in Hc.
    rewrite Hv in Hc. apply app_inj_tail in Hc as [Hr ->].
    eexists. split; [done|]. apply holds_intro; simpl; [done|rewrite Hd; lia..].
Qed.

Lemma Delete_ends_empty l :
  holds l [] →
  DeleteFirst zero l = (l, (zero, Some list_is_empty)) ∧
  DeleteLast zero l = (l, (zero, Some list_is_empty)).
Proof.
  intros (Hv & _). unfold DeleteFirst, DeleteLast.
  destruct (head l); simplify_eq/=. done.
Qed.

(** On an empty list [DeleteFirst] and [DeleteLast] return the zero
    value and the error; otherwise they return the first and the last
    value and take it out, as [DeleteAt] does with the indices [0] and
    [Size() - 1]. *)
Theorem DeleteFirst_DeleteLast_ends l xs :
  holds l xs →
  (xs = [] →
   DeleteFirst zero l = (l, (zero, Some list_is_empty)) ∧
   DeleteLast zero l = (l, (zero, Some list_is_empty))) ∧
  (∀ x xs', xs = x :: xs' →
     ∃ l', DeleteFirst zero l = (l', (x, None)) ∧ holds l' xs' ∧
           DeleteAt zero 0 l = Next (l', (x, None))) ∧
  (∀ xs' x, xs = xs' ++ [x] →
     ∃ l', DeleteLast zero l = (l', (x, None)) ∧ holds l' xs' ∧
           DeleteAt zero (size l - 1) l = Next (l', (x, None))).
Proof.
  intros Hl. pose proof Hl as (Hv & Hn & Hmax). split; [|split].
  - intros ->. by apply Delete_ends_empty.
  - intros x xs' ->. destruct (holds_DeleteFirst _ _ _ Hl) as (l' & Hd & Hl').
    exists l'. split; [done|]. split; [done|].
    unfold DeleteAt. simpl in Hn. rewrite decide_False by lia.
    by rewrite decide_True, Hd.
  - intros xs' x ->. destruct (holds_DeleteLast _ _ _ Hl) as (l' & Hd & Hl').
    exists l'. split; [done|]. split; [done|].
    rewrite length_app in Hn. simpl in Hn.
    destruct (DeleteAt_in_range (size l - 1) l _ Hl) as (y & l'' & Hy & -> & Hl'');
      [lia|].
    replace (Z.to_nat (size l - 1)) with (length xs' + 0) in * by lia.
    rewrite lookup_app_r in Hy by lia.
    replace (length xs' + 0 - length xs') with 0 in Hy by lia.
    simpl in Hy. simplify_eq.
    rewrite Nat.add_0_r, delete_middle, app_nil_r in Hl''.
    by rewrite (holds_eq _ _ _ Hl' Hl'').
Qed.

Lemma unlink_value_None (next : Node (T:=T)) v :
  v ∉ values next → unlink_value next v = None.
Proof.
  induction next as [|w next IH]; simpl; [done|].
  intros Hv. apply not_elem_of_cons in Hv as [Hne Hv].
  rewrite decide_False by done. by rewrite IH.
Qed.

Lemma unlink_value_Some (next : Node (T:=T)) v l1 l2 :
  values next = l1 ++ v :: l2 → v ∉ l1 →
  ∃ next', unlink_value next v = Some next' ∧ values next' = l1 ++ l2.
Proof.
  revert l1. induction next as [|w next IH]; intros l1; simpl.
  - by destruct l1.
  - destruct l1 as [|y l1]; simpl.
    + intros [= -> Hn] _. rewrite decide_True by done. eauto.
    + intros [= -> Hn] Hv. apply not_elem_of_cons in Hv as [Hne Hv].
      rewrite decide_False by done.
      destruct (IH l1 Hn Hv) as (next' & -> & Hn'). eexists. split; [done|].
      simpl. by rewrite Hn'.
Qed.

Lemma DeleteValue_missing v l xs :
  holds l xs → v ∉ xs →
  DeleteValue v l
  = (l, (false, if decide (xs = []) then Some list_is_empty else None)).
Proof.
  intros (Hv & _) Hnot. unfold DeleteValue.
  destruct (head l) as [|w next]; simpl in Hv; subst xs; [done|].
  apply not_elem_of_cons in Hnot as [Hw Hnot].
  rewrite decide_False by done. by rewrite unlink_value_None.
Qed.

Lemma DeleteValue_found v l l1 l2 :
  holds l (l1 ++ v :: l2) → v ∉ l1 →
  ∃ l', DeleteValue v l = (l', (true, None)) ∧ holds l' (l1 ++ l2).
Proof.
  intros Hl Hnot. pose proof Hl as (Hv & Hn & Hmax).
  assert (decr (size l) = Z.of_nat (length (l1 ++ l2))) as Hd.
  { rewrite length_app in *. simpl in Hn. unfold decr.
    rewrite int_wrap_id; unfold max_int in *; lia. }
  assert (Z.of_nat (length (l1 ++ l2)) ≤ max_int)%Z as Hb.
  { rewrite length_app in *. simpl in Hn. lia. }
  unfold DeleteValue. destruct (head l) as [|w next]; simpl in Hv.
  { by destruct l1. }
  destruct l1 as [|y l1]; simplify_eq/=.
  - rewrite decide_True by done. eexists. split; [done|].
    apply holds_intro; [done|done|by rewrite Hd].
  - apply not_elem_of_cons in Hnot as [Hw Hnot].
    rewrite decide_False by done.
    destruct (unlink_value_Some next v l1 l2) as (next' & -> & Hn'); [done..|].
    eexists. split; [done|].
    apply holds_intro; simpl; [by rewrite Hn'|done|by rewrite Hd].
Qed.

(** [DeleteValue] takes out the first node that holds the value and
    nothing else; it returns [false] when no node holds it, with the
    error when the list is empty and without it otherwise. *)
Theorem DeleteValue_spec v l xs :
  holds l xs →
  (xs = [] → DeleteValue v l = (l, (false, Some list_is_empty))) ∧
  (xs ≠ [] → v ∉ xs → DeleteValue v l = (l, (false, None))) ∧
  (∀ l1 l2, xs = l1 ++ v :: l2 → v ∉ l1 →
     ∃ l', DeleteValue v l = (l', (true, None)) ∧ holds l' (l1 ++ l2)).
Proof.
  intros Hl. split; [|split].
  - intros ->. rewrite (DeleteValue_missing v l []); [done..|]. by intros ?%elem_of_nil.
  - intros Hne Hnot. rewrite (DeleteValue_missing v l xs) by done.
    by rewrite decide_False.
  - intros l1 l2 -> Hnot. by apply DeleteValue_found.
Qed.

Lemma search_from_missing (current : Node (T:=T)) (b : Z) v :
  v ∉ values current → search_from current b v = (-1)%Z.
Proof.
  revert b. induction current as [|w next IH]; intros b; simpl; [done|].
  intros Hv. apply not_elem_of_cons in Hv as [Hne Hv].
  rewrite decide_False by done. by apply IH.
Qed.

Lemma search_from_found (current : Node (T:=T)) (b : Z) v l1 l2 :
  values current = l1 ++ v :: l2 → v ∉ l1 →
  (0 ≤ b)%Z → (b + Z.of_nat (length l1) ≤ max_int)%Z →
  search_from current b v = (b + Z.of_nat (length l1))%Z.
Proof.
  revert b l1. induction current as [|w next IH]; intros b l1; simpl.
  - by destruct l1.
  - destruct l1 as [|y l1]; simpl.
    + intros [= -> Hn] _ _ _. rewrite decide_True by done. lia.
    + intros [= -> Hn] Hv Hb Hmax. apply not_elem_of_cons in Hv as [Hne Hv].
      rewrite decide_False by done.
      rewrite int_wrap_id by (unfold max_int in *; lia).
      rewrite (IH _ l1) by (done || lia). lia.
Qed.

Lemma Search_missing v l xs :
  holds l xs → v ∉ xs →
  Search v l
  = ((-1)%Z, if decide (xs = []) then Some list_is_empty else None).
Proof.
  intros (Hv & _) Hnot. unfold Search.
  destruct (head l) as [|w next] eqn:Hh; simpl in Hv; subst xs; [done|].
  rewrite search_from_missing; done.
Qed.

Lemma Search_found v l l1 l2 :
  holds l (l1 ++ v :: l2) → v ∉ l1 →
  Search v l = (Z.of_nat (length l1), None).
Proof.
  intros (Hv & Hn & Hmax) Hnot. unfold Search.
  destruct (head l) as [|w next] eqn:Hh; simpl in Hv; [by destruct l1|].
  rewrite (search_from_found _ 0 v l1 l2); [done|done|done|lia|].
  rewrite length_app in Hn. simpl in Hn. lia.
Qed.

(** [Search] returns the index of the first node that holds the value;
    it returns [-1] when no node holds it, with the error when the list
    is empty and without it otherwise. *)
Theorem Search_spec v l xs :
  holds l xs →
  (xs = [] → Search v l = ((-1)%Z, Some list_is_empty)) ∧
  (xs ≠ [] → v ∉ xs → Search v l = ((-1)%Z, None)) ∧
  (∀ l1 l2, xs = l1 ++ v :: l2 → v ∉ l1 →
     Search v l = (Z.of_nat (length l1), None)).
Proof.
  intros Hl. split; [|split].
  - intros ->. rewrite (Search_missing v l []); [done..|]. by intros ?%elem_of_nil.
  - intros Hne Hnot. rewrite (Search_missing v l xs) by done.
    by rewrite decide_False.
  - intros l1 l2 -> Hnot. by apply (Search_found v l l1 l2).
Qed.

(** When [Search] finds the value, [DeleteValue] takes out the node at
    the index [Search] returns, as [DeleteAt] with that index does. *)
Theorem DeleteValue_at_Search v (i : Z) l xs :
  holds l xs → Search v l = (i, None) → (0 ≤ i)%Z →
  DeleteValue v l = ((DeleteValue v l).1, (true, None)) ∧
  DeleteAt zero i l = Next ((DeleteValue v l).1, (v, None)).
Proof.
  intros Hl Hs Hi. pose proof Hl as (Hv & Hn & Hmax).
  destruct (decide (v ∈ xs)) as [Hin|Hnot].
  2:{ rewrite (Search_missing v l xs) in Hs by done. simplify_eq. lia. }
  apply list_elem_of_split_l in Hin as (l1 & l2 & -> & Hnot).
  rewrite (Search_found v l l1 l2) in Hs by done. simplify_eq.
  destruct (DeleteValue_found v l l1 l2) as (l' & -> & Hl'); [done..|].
  simpl. split; [done|].
  rewrite length_app in Hn. simpl in Hn.
  destruct (DeleteAt_in_range (Z.of_nat (length l1)) l _ Hl)
    as (y & l'' & Hy & -> & Hl''); [lia|].
  rewrite Nat2Z.id in *. rewrite list_lookup_middle in Hy by done.
  rewrite delete_middle in Hl''. simplify_eq.
  by rewrite (holds_eq _ _ _ Hl' Hl'').
Qed.

(** [DeleteAt] undoes [InsertAt] with the same index: it returns the
    value that was inserted and leaves the list as it was before. *)
Theorem InsertAt_DeleteAt v (i : Z) l l' xs :
  holds l xs → (size l < max_int)%Z →
  InsertAt v i l = Next (l', None) →
  DeleteAt zero i l' = Next (l, (v, None)).
Proof.
  intros Hl Hlt Hins. pose proof Hl as (Hv & Hn & Hmax).
  destruct (decide (0 ≤ i ≤ size l)%Z) as [Hi|Hi].
  2:{ rewrite InsertAt_out_of_range in Hins by done. simplify_eq. }
  destruct (InsertAt_in_range v i l xs Hl Hlt Hi) as (l1 & Hl1 & Hh).
  rewrite Hl1 in Hins. injection Hins as ->.
  pose proof Hh as (_ & Hn' & _).
  rewrite length_app, length_take in Hn'. simpl in Hn'. rewrite length_drop in Hn'.
  destruct (DeleteAt_in_range i l' _ Hh) as (y & l'' & Hy & -> & Hl''); [lia|].
  assert (length (take (Z.to_nat i) xs) = Z.to_nat i) as Hlen.
  { rewrite length_take. lia. }
  rewrite <-Hlen in Hy at 1. rewrite list_lookup_middle in Hy by done.
  rewrite <-Hlen in Hl'' at 1. rewrite delete_middle, take_drop in Hl''.
  injection Hy as <-. by rewrite (holds_eq _ _ _ Hl Hl'').
Qed.

Lemma traverse_app {S : Type} (fn : T → S → S * option error)
  (current : Node (T:=T)) (s : S) l1 :
  (∀ y s', y ∈ l1 → (fn y s').2 = None) →
  ∀ l2, values current = l1 ++ l2 →
  ∃ rest, values rest = l2 ∧
          traverse fn current s
          = traverse fn rest (foldl (λ s' y, (fn y s').1) s l1).
Proof.
  revert current s. induction l1 as [|x l1 IH]; intros current s Hok l2; simpl.
  - intros Hc. by exists current.
  - destruct current as [|w next]; simpl; [done|]. intros [= -> Hn].
    pose proof (Hok x s ltac:(by left)) as Hx.
    destruct (fn x s) as [s1 [err|]] eqn:Hfx; [done|]. simpl.
    apply IH; [|done]. intros y s' Hy. apply Hok. by right.
Qed.

(** [Traversal] calls the function on the values in order, threading
    the state of the closure; it stops at the first value the function
    fails on and returns that error, having called it on no later
    value, and returns no error when the function fails on none. *)
Theorem Traversal_spec {S : Type} (fn : T → S → S * option error) l xs (s : S) :
  holds l xs →
  ((∀ y s', y ∈ xs → (fn y s').2 = None) →
   Traversal fn l s = (foldl (λ s' y, (fn y s').1) s xs, None)) ∧
  (∀ l1 x l2 err,
     xs = l1 ++ x :: l2 →
     (∀ y s', y ∈ l1 → (fn y s').2 = None) →
     (fn x (foldl (λ s' y, (fn y s').1) s l1)).2 = Some err →
     Traversal fn l s
     = ((fn x (foldl (λ s' y, (fn y s').1) s l1)).1, Some err)).
Proof.
  intros (Hv & _). unfold Traversal. split.
  - intros Hok. destruct (traverse_app fn (head l) s xs Hok [])
      as (rest & Hr & ->); [by rewrite app_nil_r|].
    by destruct rest.
  - intros l1 x l2 err -> Hok Hx.
    destruct (traverse_app fn (head l) s l1 Hok (x :: l2)) as (rest & Hr & ->);
      [done|].
    destruct rest as [|w next]; simplify_eq/=.
    by destruct (fn x _) as [s1 [e|]]; simplify_eq/=.
Qed.

Lemma call_method_holds (m : method (T:=T)) l xs :
  holds l xs → (size l < max_int)%Z →
  ∃ l' xs', call_method zero m l = Next l' ∧ holds l' xs' ∧
            length xs' ≤ S (length xs).
Proof.
  intros Hl Hlt. pose proof Hl as (Hv & Hn & Hmax).
  destruct m as [v|v|v i| | |i|v|v| | |]; simpl;
    try (exists l, xs; split; [done|]; split; [done|]; lia).
  - exists (InsertFirst v l), (v :: xs). split; [done|].
    split; [by apply holds_InsertFirst|done].
  - exists (InsertLast v l), (xs ++ [v]). split; [done|].
    split; [by apply holds_InsertLast|]. rewrite length_app. simpl. lia.
  - destruct (decide (0 ≤ i ≤ size l)%Z) as [Hi|Hi].
    + destruct (InsertAt_in_range v i l xs Hl Hlt Hi) as (l' & -> & Hl').
      eexists l', _. split; [done|]. split; [done|].
      rewrite length_app, length_take. simpl. rewrite length_drop. lia.
    + rewrite InsertAt_out_of_range by done.
      exists l, xs. split; [done|]. split; [done|]. lia.
  - destruct xs as [|x xs'].
    + destruct (Delete_ends_empty l Hl) as [-> _].
      exists l, []. split; [done|]. split; [done|]. lia.
    + destruct (holds_DeleteFirst _ _ _ Hl) as (l' & -> & Hl').
      exists l', xs'. split; [done|]. split; [done|]. simpl. lia.
  - destruct (decide (xs = [])) as [->|Hne].
    + destruct (Delete_ends_empty l Hl) as [_ ->].
      exists l, []. split; [done|]. split; [done|]. lia.
    + destruct (exists_last Hne) as (xs' & x & ->).
      destruct (holds_DeleteLast _ _ _ Hl) as (l' & -> & Hl').
      exists l', xs'. split; [done|]. split; [done|]. rewrite length_app. lia.
  - destruct (decide (0 ≤ i < size l)%Z) as [Hi|Hi].
    + destruct (DeleteAt_in_range i l xs Hl Hi) as (x & l' & Hx & -> & Hl').
      eexists l', _. split; [done|]. split; [done|].
      rewrite length_delete by eauto. lia.
    + rewrite DeleteAt_out_of_range by done.
      exists l, xs. split; [done|]. split; [done|]. lia.
  - destruct (decide (v ∈ xs)) as [Hin|Hnot].
    + apply list_elem_of_split_l in Hin as (l1 & l2 & -> & Hnot).
      destruct (DeleteValue_found v l l1 l2) as (l' & -> & Hl'); [done..|].
      exists l', (l1 ++ l2). split; [done|]. split; [done|].
      rewrite !length_app. simpl. lia.
    + rewrite (DeleteValue_missing v l xs) by done.
      exists l, xs. split; [done|]. split; [done|]. lia.
Qed.

Lemma call_methods_holds (ms : list (method (T:=T))) l xs :
  holds l xs → (Z.of_nat (length xs + length ms) ≤ max_int)%Z →
  ∃ l' xs', call_methods zero ms l = Next l' ∧ holds l' xs' ∧
            length xs' ≤ length xs + length ms.
Proof.
  revert l xs. induction ms as [|m ms IH]; intros l xs Hl Hb; simpl.
  - exists l, xs. split; [done|]. split; [done|]. lia.
  - simpl in Hb.
    destruct (call_method_holds m l xs Hl) as (l1 & xs1 & -> & Hl1 & Hlen1).
    { destruct Hl as (_ & -> & _). lia. }
    destruct (IH l1 xs1 Hl1) as (l' & xs' & -> & Hl' & Hlen'); [lia|].
    exists l', xs'. split; [done|]. split; [done|]. lia.
Qed.

(** Whatever methods other than [ReverseTraversal] are called on a new
    list, and in whatever order, no call dereferences a nil pointer and
    the [size] field keeps counting the nodes: [Size()] is their number
    and [IsEmpty()] says whether there is none. *)
Theorem methods_keep_size (ms : list (method (T:=T))) :
  (Z.of_nat (length ms) ≤ max_int)%Z →
  ∃ l xs, call_methods zero ms new_list = Next l ∧ holds l xs ∧
          length xs ≤ length ms ∧
          Size l = Z.of_nat (length xs) ∧
          (IsEmpty l = true ↔ xs = []).
Proof.
  intros Hb.
  destruct (call_methods_holds ms new_list []) as (l & xs & Hc & Hl & Hlen).
  { apply holds_intro; unfold max_int; simpl; done || lia. }
  { simpl. lia. }
  exists l, xs. split; [done|]. split; [done|]. split; [done|].
  pose proof Hl as (_ & Hn & _). split; [done|].
  unfold IsEmpty. rewrite bool_decide_eq_true, Hn.
  destruct xs; simpl; split; try done; lia.
Qed.
End ListFacts.

Lemma string_app_assoc (s1 s2 s3 : string) :
  (s1 +:+ s2) +:+ s3 = s1 +:+ s2 +:+ s3.
Proof.
  induction s1 as [|a s1 IH]; [reflexivity|].
  change (String a ((s1 +:+ s2) +:+ s3) = String a (s1 +:+ s2 +:+ s3)).
  by rewrite IH.
Qed.

Lemma string_app_nil_r (s : string) : s +:+ "" = s.
Proof.
  induction s as [|a s IH]; [reflexivity|].
  change (String a (s +:+ "") = String a s). by rewrite IH.
Qed.

Section ListString.
Import Lists.
Context {T : Type} `{EqDecision T}.
Variable format : T → string.

Lemma write_nodes_values (sb : string) (current : Node (T:=T)) :
  write_nodes format sb current
  = sb +:+ foldr (λ v out, format v +:+ " -> " +:+ out) "" (values current).
Proof.
  revert sb. induction current as [|v next IH]; intros sb; simpl.
  - by rewrite string_app_nil_r.
  - rewrite IH. by rewrite !string_app_assoc.
Qed.

(** [String] writes the values in order, each followed by an arrow, and
    then [nil]; so the string of a list with one more value in front is
    that value, an arrow and the string of the list. *)
Theorem String_spec l xs v :
  holds l xs →
  String format l
  = foldr (λ v out, format v +:+ " -> " +:+ out) "nil" xs ∧
  String format (InsertFirst v l) = format v +:+ " -> " +:+ String format l.
Proof.
  intros (Hv & _).
  assert (∀ ys, foldr (λ v out, format v +:+ " -> " +:+ out) "" ys +:+ "nil"
                = foldr (λ v out, format v +:+ " -> " +:+ out) "nil" ys) as Hf.
  { induction ys as [|y ys IH]; simpl; [done|].
    by rewrite !string_app_assoc, IH. }
  unfold String. rewrite !write_nodes_values. simpl. rewrite Hv. split.
  - apply Hf.
  - by rewrite !string_app_assoc.
Qed.
End ListString.

(** The tests of the package, on [test_list]. *)
Example test_list_String :
  Lists.String format_int test_list = "3 -> 2 -> 1 -> nil"%string.
Proof. vm_compute. reflexivity. Qed.

Example test_InsertAtMiddle :
  match Lists.InsertAt 4%Z 2%Z test_list with
  | Next (l, None) => Lists.String format_int l = "3 -> 2 -> 4 -> 1 -> nil"%string
  | _ => False
  end.
Proof. vm_compute. reflexivity. Qed.

Ltac holds_test_list := repeat split; vm_compute; discriminate.

Lemma InsertAt_spec_witness :
  (∃ l', Lists.InsertAt 4%Z 2%Z test_list = Next (l', None) ∧
         Lists.holds l' [3; 2; 4; 1]%Z) ∧
  Lists.InsertAt 4%Z 5%Z test_list = Next (test_list, Some Lists.index_out_of_range).
Proof.
  destruct (InsertAt_spec 4%Z 2%Z test_list [3; 2; 1]%Z) as [Hin _].
  { holds_test_list. }
  { vm_compute. reflexivity. }
  destruct (InsertAt_spec 4%Z 5%Z test_list [3; 2; 1]%Z) as [_ Hout].
  { holds_test_list. }
  { vm_compute. reflexivity. }
  split.
  - apply Hin. vm_compute. split; discriminate.
  - apply Hout. vm_compute. intros [_ Hle]. by apply Hle.
Defined.

Lemma InsertFirst_InsertLast_ends_witness :
  Lists.holds (Lists.InsertFirst 4%Z test_list) [4; 3; 2; 1]%Z ∧
  Lists.holds (Lists.InsertLast 4%Z test_list) [3; 2; 1; 4]%Z ∧
  Lists.InsertAt 4%Z 0%Z test_list = Next (Lists.InsertFirst 4%Z test_list, None) ∧
  Lists.InsertAt 4%Z (Lists.size test_list) test_list
  = Next (Lists.InsertLast 4%Z test_list, None).
Proof.
  apply (InsertFirst_InsertLast_ends 4%Z test_list [3; 2; 1]%Z).
  - holds_test_list.
  - vm_compute. reflexivity.
Defined.

Lemma DeleteAt_spec_witness :
  (∃ x l', [3; 2; 1]%Z !! 1 = Some x ∧
           Lists.DeleteAt 0%Z 1%Z test_list = Next (l', (x, None)) ∧
           Lists.holds l' [3; 1]%Z) ∧
  Lists.DeleteAt 0%Z 5%Z test_list
  = Next (test_list, (0%Z, Some Lists.index_out_of_range)).
Proof.
  destruct (DeleteAt_spec 0%Z 1%Z test_list [3; 2; 1]%Z) as [Hin _].
  { holds_test_list. }
  destruct (DeleteAt_spec 0%Z 5%Z test_list [3; 2; 1]%Z) as [_ Hout].
  { holds_test_list. }
  split.
  - apply Hin. vm_compute. split; [discriminate|reflexivity].
  - apply Hout. vm_compute. intros [_ Hlt]. discriminate Hlt.
Defined.

Lemma DeleteFirst_DeleteLast_ends_witness :
  (∃ l', Lists.DeleteFirst 0%Z test_list = (l', (3%Z, None)) ∧
         Lists.holds l' [2; 1]%Z ∧
         Lists.DeleteAt 0%Z 0%Z test_list = Next (l', (3%Z, None))) ∧
  (∃ l', Lists.DeleteLast 0%Z test_list = (l', (1%Z, None)) ∧
         Lists.holds l' [3; 2]%Z ∧
         Lists.DeleteAt 0%Z (Lists.size test_list - 1) test_list
         = Next (l', (1%Z, None))).
Proof.
  destruct (DeleteFirst_DeleteLast_ends 0%Z test_list [3; 2; 1]%Z) as (_ & Hf & Hl).
  { holds_test_list. }
  split.
  - apply (Hf 3%Z [2; 1]%Z). reflexivity.
  - apply (Hl [3; 2]%Z 1%Z). reflexivity.
Defined.

Lemma DeleteValue_spec_witness :
  ∃ l', Lists.DeleteValue 2%Z test_list = (l', (true, None)) ∧
        Lists.holds l' [3; 1]%Z.
Proof.
  destruct (DeleteValue_spec 2%Z test_list [3; 2; 1]%Z) as (_ & _ & Hd).
  { holds_test_list. }
  apply (Hd [3%Z] [1%Z]).
  - reflexivity.
  - intros Hin. inversion Hin as [|? ? ? Hin']. inversion Hin'.
Defined.

Lemma Search_spec_witness :
  Lists.Search 2%Z test_list = (1%Z, None) ∧
  Lists.Search 4%Z test_list = ((-1)%Z, None).
Proof.
  destruct (Search_spec 2%Z test_list [3; 2; 1]%Z) as (_ & _ & Hs).
  { holds_test_list. }
  destruct (Search_spec 4%Z test_list [3; 2; 1]%Z) as (_ & Hn & _).
  { holds_test_list. }
  split.
  - apply (Hs [3%Z] [1%Z]).
    + reflexivity.
    + intros Hin. inversion Hin as [|? ? ? Hin']. inversion Hin'.
  - apply Hn.
    + discriminate.
    + intros Hin. inversion Hin as [|? ? ? Hin1]; subst.
      inversion Hin1 as [|? ? ? Hin2]; subst.
      inversion Hin2 as [|? ? ? Hin3]; subst. inversion Hin3.
Defined.

Lemma DeleteValue_at_Search_witness :
  Lists.DeleteValue 2%Z test_list = ((Lists.DeleteValue 2%Z test_list).1, (true, None)) ∧
  Lists.DeleteAt 0%Z 1%Z test_list
  = Next ((Lists.DeleteValue 2%Z test_list).1, (2%Z, None)).
Proof.
  apply (DeleteValue_at_Search 0%Z 2%Z 1%Z test_list [3; 2; 1]%Z).
  - holds_test_list.
  - vm_compute. reflexivity.
  - vm_compute. discriminate.
Defined.

Lemma InsertAt_DeleteAt_witness :
  Lists.DeleteAt 0%Z 2%Z
    (Lists.mkSinglyLinkedList
       (Lists.node 3 (Lists.node 2 (Lists.node 4 (Lists.node 1 Lists.nil_node)))) 4)%Z
  = Next (test_list, (4%Z, None)).
Proof.
  apply (InsertAt_DeleteAt 0%Z 4%Z 2%Z test_list _ [3; 2; 1]%Z).
  - holds_test_list.
  - vm_compute. reflexivity.
  - vm_compute. reflexivity.
Defined.

Lemma Traversal_spec_witness :
  Lists.Traversal
    (λ (value : Z) (seen : list Z),
       (seen ++ [value], if decide (value = 2%Z) then Some "failed"%string else None))
    test_list []
  = ([3; 2]%Z, Some "failed"%string).
Proof.
  destruct (Traversal_spec
              (λ (value : Z) (seen : list Z),
                 (seen ++ [value],
                  if decide (value = 2%Z) then Some "failed"%string else None))
              test_list [3; 2; 1]%Z []) as [_ Hstop].
  { holds_test_list. }
  apply (Hstop [3%Z] 2%Z [1%Z] "failed"%string).
  - reflexivity.
  - intros y s' Hy. inversion Hy as [|? ? ? Hy']; subst; [reflexivity|inversion Hy'].
  - reflexivity.
Defined.

Lemma methods_keep_size_witness :
  ∃ l xs,
    Lists.call_methods 0%Z
      [Lists.CallInsertFirst 1%Z; Lists.CallInsertLast 2%Z;
       Lists.CallDeleteAt 5%Z; Lists.CallDeleteLast] Lists.new_list = Next l ∧
    Lists.holds l xs ∧ length xs ≤ 4 ∧
    Lists.Size l = Z.of_nat (length xs) ∧
    (Lists.IsEmpty l = true ↔ xs = []).
Proof.
  apply (methods_keep_size 0%Z
           [Lists.CallInsertFirst 1%Z; Lists.CallInsertLast 2%Z;
            Lists.CallDeleteAt 5%Z; Lists.CallDeleteLast]).
  vm_compute. discriminate.
Defined.

Lemma String_spec_witness :
  Lists.String format_int test_list = "3 -> 2 -> 1 -> nil"%string ∧
  Lists.String format_int (Lists.InsertFirst 4%Z test_list)
  = ("4 -> " +:+ Lists.String format_int test_list)%string.
Proof.
  apply (String_spec format_int test_list [3; 2; 1]%Z 4%Z). holds_test_list.
Defined.

(** * The earlier revisions *)

Section InlineFacts.
Context `{GoValues} {Item Action Acc Res : Type}.
Variable work : Action → Item → option Item.
Variable workers : Z.
Variable stamp : nat → value → Item.
Variable acc0 : nat → Acc.
Variable collect : Item → Acc → coutcome Acc Res.
Variable finish : Acc → Res.
Variable items : list value.
Variable cap0 capk : nat.

#[local] Abbreviation bexec := (bexec work workers stamp acc0 collect finish items).
#[local] Abbreviation bexec_spec := (bexec_spec work workers stamp acc0 collect finish items).
#[local] Abbreviation iexec := (iexec work workers stamp acc0 collect finish items capk).
#[local] Abbreviation iinv := (iinv work workers stamp acc0 collect finish items cap0 capk).
#[local] Abbreviation imain_ok := (imain_ok work workers stamp acc0 collect finish items).
#[local] Abbreviation iinit := (iinit (Acc:=Acc) (Res:=Res) cap0).
#[local] Abbreviation inline_call :=
  (inline_call work workers stamp acc0 collect finish items cap0 capk).
#[local] Abbreviation create_with := (create_with (Item:=Item) workers capk).
#[local] Abbreviation bmeasure := (bmeasure workers items).
#[local] Abbreviation collect_all := (collect_all collect).
#[local] Abbreviation stamped := (stamped stamp items).
#[local] Abbreviation collected := (collected collect).
Implicit Types (s : bstate Item Action Acc Res) (p : pipeline Item Action).

Ltac pexec_inv He :=
  apply pexec_cases in He;
  inversion He as
    [ k j pl c x b y Hpl Hw Hc Hb Hwk E1 E2
    | k j pl c x b Hpl Hw Hc Hb Hwk E1 E2
    | k j pl c Hpl Hw Hc Hb Hcl E1 E2
    | k j pl c y Hpl Hw Hc Hcl Hroom E1 E2
    | k j pl c y Hpl Hw Hc Hcl E1 E2
    | k i j pl c pl' y y' Hpl Hw Hc Hb Hcl Hpl' Hw' Hwk E1 E2
    | k i j pl c pl' y Hpl Hw Hc Hb Hcl Hpl' Hw' Hwk E1 E2
    | k pl c Hpl Hdone Hc Hcl E1 E2 ]; subst; clear He.

Ltac bexec_inv He :=
  apply bexec_cases in He;
  inversion He as
    [ x c Hx Hc Hcl Hroom E1 E2
    | x c Hx Hc Hcl E1 E2
    | j x c pl y Hx Hc Hb Hcl Hpl Hw Hwk E1 E2
    | j x c pl Hx Hc Hb Hcl Hpl Hw Hwk E1 E2
    | c Hc Hlen Hcl E1 E2
    | p' Hm Hcr E1 E2
    | Hm Ht Hpl E1 E2
    | Hm Ht Hpl E1 E2
    | e' p' Hpe E1 E2
    | e' Hpe E1 E2
    | ch a c x b Hm Hc Hb E1 E2
    | k a c i pl y Hm Hc Hb Hcl Hpl Hw E1 E2
    | ch a c Hm Hc Hb Hcl E1 E2 ]; subst; clear He.

#[local] Abbreviation caps_ok := (caps_ok (Item:=Item) (Action:=Action) cap0 capk).

Lemma caps_set_chan p k c c' :
  caps_ok p → chans p !! k = Some c → cap c' = cap c →
  caps_ok (set_chan k c' p).
Proof.
  intros [H0 Hk] Hc Hcap. split; simpl.
  - intros c1. destruct (decide (k = 0)) as [->|Hne].
    + rewrite list_lookup_insert_eq by (by eapply lookup_lt_Some).
      intros [= <-]. rewrite Hcap. by apply H0.
    + rewrite list_lookup_insert_ne by done. apply H0.
  - intros k1 c1. destruct (decide (k = S k1)) as [->|Hne].
    + rewrite list_lookup_insert_eq by (by eapply lookup_lt_Some).
      intros [= <-]. rewrite Hcap. by eapply Hk.
    + rewrite list_lookup_insert_ne by done. apply Hk.
Qed.

Lemma caps_pexec e p p' :
  caps_ok p → pexec work e p = Some (Next p') → caps_ok p'.
Proof.
  intros Hcaps He. pexec_inv He.
  - by apply (caps_set_chan _ k c).
  - done.
  - by apply (caps_set_chan _ (S k) c).
  - done.
  - by apply (caps_set_chan _ (S k) c).
Qed.


Lemma create_with_facts p p' :
  create_with p = Some p' →
  acts p' = acts p ∧ flight p' = flight p ∧
  crowd p' = crowd p + Z.to_nat workers + 1 ∧
  S (length (todo p')) = length (todo p) ∧
  length (pools p') = S (length (pools p)).
Proof.
  unfold create_with. destruct (todo p) as [|a rest] eqn:Ht; [done|].
  intros [= <-]. unfold acts, flight, crowd; simpl. rewrite Ht.
  rewrite fmap_app, <-(assoc app). split; [done|].
  rewrite flight_chans_app, flight_pools_app; simpl.
  rewrite omap_sent_replicate, !app_nil_r. split; [done|].
  unfold open_chans, busy. rewrite !fmap_app, !sum_list_with_app; simpl.
  rewrite length_app; simpl. split; [|split; [done|lia]].
  rewrite busy_replicate. unfold oc; simpl. lia.
Qed.

Lemma create_with_measure p p' :
  create_with p = Some p' → pmeasure workers p' < pmeasure workers p.
Proof.
  intros Hc. destruct (create_with_facts _ _ Hc) as (Ha & Hf & Hcr & Ht & _).
  unfold pmeasure. rewrite Ha, Hf, Hcr, <-Ht. lia.
Qed.

Lemma create_with_residual p p' :
  create_with p = Some p' → residual work p' = residual work p.
Proof.
  intros Hc. destruct (create_with_facts _ _ Hc) as (Ha & Hf & _).
  unfold residual. by rewrite Ha, Hf.
Qed.

Lemma create_with_pinv p p' :
  pinv workers p → create_with p = Some p' → pinv workers p'.
Proof.
  intros [Hlen Hwks Hcl Hdn]. unfold create_with.
  destruct (todo p) as [|a rest] eqn:Ht; [done|]. intros [= <-]. split; simpl.
  - rewrite !length_app; simpl. lia.
  - intros k pl [[_ Hk]|[_ <-]]%lookup_snoc_Some; [by eauto|].
    simpl. by rewrite length_replicate.
  - intros k pl c [[? Hk]|[Hk <-]]%lookup_snoc_Some.
    + rewrite lookup_app_l by lia. eauto.
    + rewrite lookup_app_r by lia. rewrite Hlen, Hk.
      replace (S (length (pools p)) - S (length (pools p))) with 0 by lia.
      simpl. by intros [= <-].
  - intros k pl c [[? Hk]|[Hk <-]]%lookup_snoc_Some.
    + rewrite lookup_app_l by lia. eauto.
    + simpl. intros _ Hin. by apply elem_of_replicate_inv in Hin.
Qed.

Lemma create_with_chans p p' k c :
  pinv workers p → create_with p = Some p' → chans p' !! k = Some c →
  chans p !! k = Some c ∨ k = S (length (pools p)) ∧ c = make_chan capk.
Proof.
  intros [Hlen _ _ _]. unfold create_with.
  destruct (todo p) as [|a rest]; [done|]. intros [= <-]. simpl.
  intros [[? Hk]|[Hk <-]]%lookup_snoc_Some; [by left|right].
  split; [|done]. by rewrite <-Hlen.
Qed.

Lemma create_with_caps p p' :
  pinv workers p → caps_ok p → create_with p = Some p' → caps_ok p'.
Proof.
  intros Hp [H0 Hk] Hcr. split.
  - intros c Hc. destruct (create_with_chans _ _ _ _ Hp Hcr Hc) as [?|[? _]]; [|done].
    by apply H0.
  - intros k c Hc. destruct (create_with_chans _ _ _ _ Hp Hcr Hc) as [?|[_ ->]];
      [by eapply Hk|done].
Qed.

(** The cases of [iexec]. *)
Lemma iexec_cases e s o :
  iexec e s = Some o →
  (e = BCreate ∧ main s = MProcess ∧
   ∃ p', create_with (pipe s) = Some p' ∧ o = Next (with_pipe s p')) ∨
  (e = BProcessReturn ∧ main s = MProcess ∧ todo (pipe s) = [] ∧
   o = Next (BState (fpos s) (pipe s)
                    (MCollect (length (pools (pipe s))) (acc0 (length items))))) ∨
  (e ≠ BCreate ∧ e ≠ BProcessReturn ∧ bexec e s = Some o).
Proof.
  destruct e; simpl; try (intros He; right; right; by repeat split).
  - destruct (main s); try done. destruct (create_with (pipe s)) as [p'|]; [|done].
    simpl. intros [= <-]. left. eauto.
  - destruct (main s); try done. destruct (todo (pipe s)) eqn:Ht; [|done].
    intros [= <-]. right; left. eauto.
Qed.

Lemma iexec_bexec e s :
  e ≠ BCreate → e ≠ BProcessReturn → iexec e s = bexec e s.
Proof. by destruct e. Qed.

Lemma iinv_init actions : iinv actions [] (iinit actions).
Proof.
  split; simpl.
  - by split.
  - done.
  - lia.
  - by intros c [= <-].
  - done.
  - intros _ _. split; [done|]. unfold flight; simpl. by intros e ?%elem_of_nil.
  - split; [by intros c [= <-]|done].
  - done.
Qed.

Lemma imain_ok_pipe actions seen p p' m :
  todo p' = todo p → length (pools p') = length (pools p) →
  imain_ok actions seen p m → imain_ok actions seen p' m.
Proof. unfold imain_ok. by intros -> ->. Qed.

Lemma no_pools_flight p c :
  pinv workers p → pools p = [] → chans p !! 0 = Some c → buf c = [] →
  flight p = [].
Proof.
  intros [Hlen _ _ _] Hpl Hc Hb. rewrite Hpl in Hlen. simpl in Hlen.
  unfold flight. rewrite Hpl. simpl. rewrite app_nil_r.
  destruct (chans p) as [|c0 [|? ?]]; simplify_eq/=. by rewrite Hb.
Qed.

Lemma iinv_step actions seen s e s' :
  iinv actions seen s → iexec e s = Some (Next s') →
  ∃ seen', iinv actions seen' s'.
Proof.
  intros Hinv He.
  apply iexec_cases in He
    as [(-> & Hm & p' & Hcr & [= ->])|[(-> & Hm & Ht & [= ->])|(Hn1 & Hn2 & He)]].
  { (* one more pool *)
    destruct Hinv as [Hp Ha Hf Hcl0 Hflow Hidle Hcaps Hmain].
    destruct (create_with_facts _ _ Hcr) as (Ha' & Hfl' & _ & Ht' & Hpl').
    exists seen. split; simpl.
    + by eapply create_with_pinv.
    + by rewrite Ha'.
    + done.
    + intros c Hc. apply Hcl0.
      destruct (create_with_chans _ _ _ _ Hp Hcr Hc) as [?|[? _]]; done.
    + by rewrite (create_with_residual _ _ Hcr).
    + rewrite Hfl'. done.
    + by eapply create_with_caps.
    + rewrite Hm in *. done. }
  { (* the loop over the actions is over *)
    destruct Hinv as [Hp Ha Hf Hcl0 Hflow Hidle Hcaps Hmain].
    exists seen. split; simpl; try done.
    rewrite Hm in Hmain. simpl in Hmain. subst seen. done. }
  bexec_inv He; try done;
    destruct Hinv as [Hp Ha Hf Hcl0 Hflow Hidle Hcaps Hmain]; simpl in *.
  - (* feeder: buffered send *)
    exists seen. split; simpl.
    + apply (pinv_set_chan _ _ 0 c); try done; simpl; [by left|congruence].
    + exact Ha.
    + apply lookup_lt_Some in Hx. lia.
    + intros c'. rewrite list_lookup_insert_eq by (by eapply lookup_lt_Some).
      intros [= <-]. simpl. congruence.
    + rewrite (take_S_r _ _ _ (stamped_lookup _ _ _ _ Hx)), fmap_app. simpl.
      rewrite Hflow, (residual_push _ _ 0 c) by done.
      rewrite Ha, rest_of_source. simpl.
      by rewrite <-Permutation_cons_append.
    + intros HW Hne. destruct (Hidle HW Hne) as [-> Hfl]. split; [done|].
      intros e. rewrite (flight_push _ 0 c) by done.
      intros [->|?]%elem_of_cons; eauto.
    + by apply (caps_set_chan _ 0 c).
    + by apply (imain_ok_pipe _ _ (pipe s)).
  - (* feeder: direct send *)
    exists seen. split; simpl.
    + apply (pinv_set_worker _ _ 0 j pl WRecv); done.
    + rewrite acts_set_worker. exact Ha.
    + apply lookup_lt_Some in Hx. lia.
    + intros c' Hc' Hcl'. congruence.
    + rewrite (take_S_r _ _ _ (stamped_lookup _ _ _ _ Hx)), fmap_app. simpl.
      rewrite Hflow, (residual_take _ _ 0 j pl) by done.
      rewrite <-rest_of_source, <-Ha.
      rewrite (rest_of_chan _ _ 0 (act pl)) by (by apply acts_lookup).
      rewrite Hwk. simpl. by rewrite <-Permutation_cons_append.
    + intros HW. destruct (idle_no_worker _ _ _ _ _ _ Hp HW Hpl Hw).
    + done.
    + apply (imain_ok_pipe _ _ (pipe s)); simpl; [done| |done]. by rewrite length_alter.
  - (* feeder: close *)
    exists seen. split; simpl.
    + apply (pinv_set_chan _ _ 0 c); [done|done| |]; simpl; [|congruence].
      intros _. right. intros; lia.
    + exact Ha.
    + done.
    + intros; lia.
    + by rewrite (residual_close _ _ 0 c).
    + intros HW Hne. destruct (Hidle HW Hne) as [-> Hfl]. split; [done|].
      intros e. rewrite (flight_close _ 0 c) by done. eauto.
    + by apply (caps_set_chan _ 0 c).
    + by apply (imain_ok_pipe _ _ (pipe s)).
  - (* a worker or a closer *)
    destruct (pexec_flight _ _ _ _ Hpe) as (Ha' & Ht' & _).
    destruct (pexec_pools_length _ _ _ _ Hpe) as [Hpl' _].
    exists seen. split; simpl.
    + by eapply pexec_pinv.
    + by rewrite Ha'.
    + done.
    + intros c' Hc' Hcl'.
      destruct (pexec_source _ _ _ _ _ Hpe Hc') as (c & Hc & Heq).
      apply (Hcl0 c); congruence.
    + by rewrite (pexec_residual _ _ _ _ Hpe).
    + intros HW Hne. destruct (Hidle HW Hne) as [-> Hfl]. split; [done|].
      intros e. rewrite (pexec_idle _ _ _ _ _ Hp HW Hpe). eauto.
    + by eapply caps_pexec.
    + by apply (imain_ok_pipe _ _ (pipe s)).
  - (* collector: from the buffer *)
    rewrite Hm in Hmain. destruct Hmain as (Ht & -> & Hall).
    assert (length (acts (pipe s)) ≤ length (pools (pipe s))) as Hexit.
    { unfold acts. rewrite Ht, app_nil_r, length_fmap. done. }
    assert (acts (pipe s) ≠ [] → 0 < length (pools (pipe s))) as Hpos.
    { unfold acts. rewrite Ht, app_nil_r. destruct (pools (pipe s)); simpl; [done|lia]. }
    exists (seen ++ [x]). unfold collected in E2.
    destruct (collect x a) as [a'|r|] eqn:Hcol; simplify_eq; split; simpl;
      try exact Ha; try done;
      try (apply (pinv_set_chan _ _ _ c); try done; simpl; [by left|];
           by intros _ Hnil; rewrite Hnil in Hb);
      try (intros c';
           destruct (decide (length (pools (pipe s)) = 0)) as [E0|E0];
             [rewrite E0 in *;
              rewrite list_lookup_insert_eq by (by eapply lookup_lt_Some);
              intros [= <-]; simpl; by apply Hcl0
             |rewrite list_lookup_insert_ne by lia; by apply Hcl0]);
      try (rewrite Hflow, (residual_pop _ _ _ c x b) by done;
           rewrite rest_of_exit by done; rewrite fmap_app; simpl;
           rewrite (assoc app); by rewrite <-Permutation_cons_append);
      try (intros HW Hne; destruct (Hidle HW Hne) as [_ Hfl];
           specialize (Hfl (2 * length (pools (pipe s)), x)); simpl in Hfl;
           specialize (Hpos Hne);
           exfalso; cut (2 * length (pools (pipe s)) = 0); [lia|];
           apply Hfl; eapply flight_chan_elem; [done|]; rewrite Hb; by left);
      try (by apply (caps_set_chan _ _ c)).
    + split; [done|]. split; [done|]. by rewrite (collect_all_snoc _ _ _ _ _ Hall).
    + split; [done|]. left. by rewrite (collect_all_snoc _ _ _ _ _ Hall).
  - (* collector: straight from a worker *)
    rewrite Hm in Hmain. destruct Hmain as (Ht & Hch & Hall).
    assert (length (acts (pipe s)) ≤ S k) as Hexit.
    { unfold acts. rewrite Ht, app_nil_r, length_fmap. lia. }
    exists (seen ++ [y]). unfold collected in E2.
    destruct (collect y a) as [a'|r|] eqn:Hcol; simplify_eq; split; simpl;
      try apply acts_set_worker; try done;
      try (by apply (pinv_set_worker _ _ k i pl (WSend y)));
      try (rewrite Hflow, (residual_give _ _ k i pl y) by done;
           rewrite rest_of_sent, rest_of_exit by done; rewrite fmap_app; simpl;
           rewrite (assoc app); by rewrite <-Permutation_cons_append);
      try (intros HW; destruct (idle_no_worker _ _ _ _ _ _ Hp HW Hpl Hw)).
    + split; [done|]. rewrite length_alter. split; [done|].
      by rewrite (collect_all_snoc _ _ _ _ _ Hall).
    + split; [done|]. left. by rewrite (collect_all_snoc _ _ _ _ _ Hall).
  - (* collector: the channel is closed and drained *)
    exists seen. split; simpl; try done.
    rewrite Hm in Hmain. destruct Hmain as (Ht & -> & Hall).
    split; [done|].
    right. exists a. split; [done|]. split; [done|]. intros [HW|Hnil].
    + destruct (drained_upstream _ _ _ _ Hp HW (le_n _) Hc Hcl Hb) as [H0 _].
      destruct (lookup_lt_is_Some_2 (chans (pipe s)) 0) as [c0 Hc0].
      { rewrite (pinv_len _ _ Hp). lia. }
      destruct (H0 0 c0) as [Hcl0' _]; [lia|done|].
      rewrite (Hcl0 _ Hc0 Hcl0') in Hflow.
      rewrite take_ge in Hflow by (by rewrite stamped_length).
      rewrite Hflow. unfold residual.
      by rewrite (drained_flight _ _ _ Hp HW Hc Hcl Hb).
    + subst actions. unfold acts in Hnil. rewrite Ht, app_nil_r in Hnil.
      apply fmap_nil_inv in Hnil. rewrite Hnil in Hc. simpl in Hc.
      rewrite (Hcl0 _ Hc Hcl) in Hflow.
      rewrite take_ge in Hflow by (by rewrite stamped_length).
      rewrite Hflow. unfold residual.
      by rewrite (no_pools_flight _ _ Hp Hnil Hc Hb).
Qed.

Lemma imeasure_step actions seen s e o :
  iinv actions seen s → iexec e s = Some o →
  bmeasure o < bmeasure (Next s).
Proof.
  intros Hinv He. destruct o as [s'|]; [|unfold bmeasure; nia].
  unfold bmeasure.
  apply iexec_cases in He
    as [(-> & Hm & p' & Hcr & [= ->])|[(-> & Hm & Ht & [= ->])|(Hn1 & Hn2 & He)]].
  { pose proof (create_with_measure _ _ Hcr). simpl.
    destruct (create_with_facts _ _ Hcr) as (-> & _). lia. }
  { simpl. rewrite Hm. simpl. lia. }
  bexec_inv He; try done;
    destruct Hinv as [Hp Ha Hf Hcl0 Hflow Hidle Hcaps Hmain]; simpl in *.
  - rewrite (pmeasure_push _ _ 0 c) by done.
    change (acts (set_chan 0 _ (pipe s))) with (acts (pipe s)).
    apply lookup_lt_Some in Hx. unfold weight; simpl.
    replace (length items - fpos s) with (S (length items - S (fpos s))) by lia.
    lia.
  - rewrite (pmeasure_take _ _ 0 j pl) by done. rewrite acts_set_worker.
    apply lookup_lt_Some in Hx. unfold weight; simpl.
    replace (length items - fpos s) with (S (length items - S (fpos s))) by lia.
    lia.
  - rewrite <-(pmeasure_close _ (pipe s) 0 c) by done.
    change (acts (set_chan 0 _ (pipe s))) with (acts (pipe s)). lia.
  - pose proof (pexec_measure _ workers _ _ _ Hpe).
    destruct (pexec_flight _ _ _ _ Hpe) as (-> & _). lia.
  - rewrite Hm in *. destruct Hmain as (Ht & -> & Hall).
    rewrite (pmeasure_pop _ (pipe s) _ c x b) by done.
    pose proof (weight_exit (length (acts (pipe s))) (length (pools (pipe s))) x) as Hwt.
    unfold acts in Hwt at 1. rewrite Ht, app_nil_r, length_fmap in Hwt.
    specialize (Hwt (le_n _)). unfold collected in E2.
    destruct (collect x a); simplify_eq; simpl;
      change (acts (set_chan _ _ (pipe s))) with (acts (pipe s)); lia.
  - rewrite Hm in *. destruct Hmain as (Ht & Hch & Hall).
    rewrite (pmeasure_give _ (pipe s) k i pl y) by done.
    assert (0 < weight (length (acts (pipe s))) (S (2 * k), y)) as Hwt.
    { unfold acts. rewrite Ht, app_nil_r, length_fmap.
      unfold weight; simpl. lia. }
    unfold collected in E2.
    destruct (collect y a); simplify_eq; simpl;
      rewrite acts_set_worker; lia.
  - rewrite Hm. simpl. lia.
Qed.

Lemma iprogress actions seen s :
  (actions = [] → length items ≤ cap0) →
  iinv actions seen s → bresult (Next s) = None →
  ∃ e o, iexec e s = Some o.
Proof.
  intros Hcap [Hp Ha Hf Hcl0 Hflow Hidle [Hcap0 _] Hmain] Hres.
  destruct s as [n p m]; simpl in *. destruct m as [|ch a|r]; [| |done].
  - (* the loop over the actions *)
    destruct (todo p) as [|a rest] eqn:Ht.
    + exists BProcessReturn. eexists. simpl. by rewrite Ht.
    + exists BCreate. eexists. simpl. unfold create_with. by rewrite Ht.
  - (* collecting *)
    destruct Hmain as (Ht & -> & Hall).
    destruct (lookup_lt_is_Some_2 (chans p) (length (pools p))) as [c Hc].
    { rewrite (pinv_len _ _ Hp). lia. }
    destruct (buf c) as [|x b] eqn:Hb.
    2:{ exists BCollect. eexists. rewrite iexec_bexec by done.
        apply bexec_cases. by eapply bs_collect. }
    destruct (closed c) eqn:Hcl.
    { exists BCollectEnd. eexists. rewrite iexec_bexec by done.
      apply bexec_cases. by eapply bs_collect_end. }
    destruct (pipe_progress work workers p (length (pools p)) Hp (le_n _))
      as [(e & o & He)|[(k & i & y & Hk & _ & Hw)|(c0 & Hc0 & Hb0 & Hcl0' & Hj)]].
    + eauto.
    + intros; lia.
    + exists (BPipe e). destruct o as [p'|].
      * eexists. rewrite iexec_bexec by done. apply bexec_cases. by apply bs_pipe.
      * eexists. rewrite iexec_bexec by done. apply bexec_cases.
        by apply bs_pipe_panic.
    + apply worker_at_Some in Hw as (pl & Hpl & Hw).
      exists (BCollectHand i). eexists. rewrite iexec_bexec by done.
      apply bexec_cases.
      eapply bs_collect_hand with (k := k) (c := c) (a := a); simpl; eauto;
        by rewrite <-Hk.
    + destruct (items !! n) as [x|] eqn:Hx.
      * destruct (pools p) as [|pl0 pls] eqn:Hpls.
        -- (* no pool: the collector reads the first channel *)
           exists BFeed. eexists. rewrite iexec_bexec by done.
           apply bexec_cases. eapply bs_feed; simpl; eauto.
           rewrite Hb0, (Hcap0 _ Hc0). simpl.
           apply lookup_lt_Some in Hx.
           assert (actions = []) as Hnil.
           { rewrite <-Ha. unfold acts. by rewrite Hpls, Ht. }
           specialize (Hcap Hnil). lia.
        -- destruct Hj as [j Hw]; [simpl; lia|].
           apply worker_at_Some in Hw as (pl & Hpl & Hw).
           exists (BFeedHand j).
           destruct (work (act pl) (stamp n x)) as [y|] eqn:Hwk.
           ++ eexists. rewrite iexec_bexec by done. apply bexec_cases.
              by eapply bs_feed_hand.
           ++ eexists. rewrite iexec_bexec by done. apply bexec_cases.
              by eapply bs_feed_hand_panic.
      * exists BFeedClose. eexists. rewrite iexec_bexec by done.
        apply bexec_cases.
        eapply bs_feed_close; simpl; [done| |done].
        by apply lookup_ge_None.
Qed.

Lemma iflow_elem actions seen s r :
  iinv actions seen s → r ∈ residual work (pipe s) →
  ∃ i x, items !! i = Some x ∧ r = run work actions (stamp i x).
Proof.
  intros Hinv Hr.
  assert (r ∈ run work actions <$> take (fpos s) stamped) as Hin.
  { rewrite (ii_flow _ _ _ _ _ _ _ _ _ _ _ _ Hinv). apply elem_of_app. by left. }
  apply list_elem_of_fmap in Hin as (y & -> & Hy).
  apply list_elem_of_lookup in Hy as [i Hi].
  apply lookup_take_Some in Hi as [Hi _].
  unfold stamped in Hi. rewrite list_lookup_imap in Hi.
  destruct (items !! i) as [x|] eqn:Hx; simplify_eq/=. eauto.
Qed.

Lemma iseen_elem actions seen s e :
  iinv actions seen s → e ∈ seen →
  ∃ i x, items !! i = Some x ∧ run work actions (stamp i x) = Some e.
Proof.
  intros Hinv He.
  assert (Some e ∈ run work actions <$> take (fpos s) stamped) as Hin.
  { rewrite (ii_flow _ _ _ _ _ _ _ _ _ _ _ _ Hinv). apply elem_of_app. right.
    by apply list_elem_of_fmap_2. }
  apply list_elem_of_fmap in Hin as (y & Hy & Hin).
  apply list_elem_of_lookup in Hin as [i Hi].
  apply lookup_take_Some in Hi as [Hi _].
  unfold stamped in Hi. rewrite list_lookup_imap in Hi.
  destruct (items !! i) as [x|] eqn:Hx; simplify_eq/=. eauto.
Qed.

(** The only ways such a call can panic. *)
Lemma iexec_panic actions seen s e :
  iinv actions seen s → iexec e s = Some Panic →
  (0 < Z.to_nat workers ∨ actions = []) ∧
  ((∃ i x, items !! i = Some x ∧ run work actions (stamp i x) = None) ∨
   (∃ i x y a, items !! i = Some x ∧ run work actions (stamp i x) = Some y ∧
               collect_all seen (acc0 (length items)) = CNext a ∧
               collect y a = CPanic)).
Proof.
  intros Hinv He.
  apply iexec_cases in He
    as [(-> & Hm & p' & Hcr & [=])|[(-> & Hm & Ht & [=])|(Hn1 & Hn2 & He)]].
  apply bexec_cases in He.
  inversion He as
    [ | x c Hx Hc Hcl E1 E2 |
    | j x c pl Hx Hc Hb Hcl Hpl Hw Hwk E1 E2 | | |
    | Hm Ht Hpl E1 E2 |
    | e' Hpe E1 E2
    | ch a c x b Hm Hc Hb E1 E2
    | k a c i pl y Hm Hc Hb Hcl Hpl Hw E1 E2 | ]; subst; try done;
    pose proof Hinv as [Hp Ha Hf Hcl0 Hflow Hidle Hcaps Hmain].
  - apply lookup_lt_Some in Hx. specialize (Hcl0 _ Hc Hcl). lia.
  - split.
    { left. apply lookup_lt_Some in Hw. rewrite (pinv_wks _ _ Hp _ _ Hpl) in Hw. lia. }
    left. exists (fpos s), x. split; [done|].
    rewrite <-Ha, <-rest_of_source.
    rewrite (rest_of_chan _ _ 0 (act pl)) by (by apply acts_lookup).
    by rewrite Hwk.
  - split; [left; by eapply pexec_panic_worker|].
    left. apply (pexec_panic _ _ _ _ Hp) in Hpe.
    destruct (iflow_elem _ _ _ _ Hinv Hpe) as (i & x & ? & ?). eauto.
  - rewrite Hm in Hmain. destruct Hmain as (Ht & -> & Hall).
    assert ((2 * length (pools (pipe s)), x) ∈ flight (pipe s)) as Hfl.
    { eapply flight_chan_elem; [done|]. rewrite Hb. by left. }
    split.
    { destruct (Z.to_nat workers) eqn:HW; [|left; lia].
      destruct actions as [|a0 actions']; [by right|].
      destruct (Hidle eq_refl) as [_ Hz]; [done|].
      specialize (Hz _ Hfl). simpl in Hz.
      assert (length (pools (pipe s)) = length (a0 :: actions')) as Hlen.
      { rewrite <-Ha. unfold acts. by rewrite Ht, app_nil_r, length_fmap. }
      simpl in Hlen. lia. }
    right. unfold collected in E2.
    destruct (collect x a) eqn:Hcol; try done.
    destruct (iflow_elem actions seen s (Some x) Hinv) as (i & x0 & ? & ?).
    { unfold residual. apply list_elem_of_fmap.
      exists (2 * length (pools (pipe s)), x). split.
      - rewrite rest_of_exit; [done|].
        unfold acts. by rewrite Ht, app_nil_r, length_fmap.
      - done. }
    exists i, x0, x, a. eauto.
  - rewrite Hm in Hmain. destruct Hmain as (Ht & Hch & Hall).
    split.
    { left. apply lookup_lt_Some in Hw. rewrite (pinv_wks _ _ Hp _ _ Hpl) in Hw. lia. }
    right. unfold collected in E2.
    destruct (collect y a) eqn:Hcol; try done.
    destruct (iflow_elem actions seen s (Some y) Hinv) as (i' & x0 & ? & ?).
    { unfold residual. apply list_elem_of_fmap.
      exists (S (2 * k), y). split.
      - rewrite rest_of_sent, rest_of_exit; [done|].
        unfold acts. rewrite Ht, app_nil_r, length_fmap. lia.
      - by eapply flight_worker_elem. }
    exists i', x0, y, a. eauto.
Qed.

(** Every reachable state that has not panicked satisfies the invariant. *)
Lemma reachable_iinv actions c :
  reachable (inline_call actions) c →
  c = Panic ∨ ∃ s seen, c = Next s ∧ iinv actions seen s.
Proof.
  unfold reachable. revert c. apply rtc_ind_r.
  - right. exists (iinit actions), []. split; [done|]. apply iinv_init.
  - intros c c' Hr Hstep IH. destruct Hstep as (s & e & -> & He).
    destruct IH as [?|(s0 & seen & [= <-] & Hinv)]; [done|].
    destruct c' as [s'|]; [|by left]. right.
    destruct (iinv_step _ _ _ _ _ Hinv He) as [seen' ?]. eauto.
Qed.

(** Such a call returns in every run when no item makes a worker or the
    collector panic. *)
Lemma inline_returns actions (P : Res → Prop) :
  (actions = [] → length items ≤ cap0) →
  (0 < Z.to_nat workers ∨ actions = [] →
   ∀ i x, items !! i = Some x → run work actions (stamp i x) ≠ None) →
  (0 < Z.to_nat workers ∨ actions = [] →
   ∀ seen s i x y a,
     iinv actions seen s → items !! i = Some x →
     run work actions (stamp i x) = Some y →
     collect_all seen (acc0 (length items)) = CNext a →
     collect y a ≠ CPanic) →
  (∀ seen s r, iinv actions seen s → main s = MDone r → P r) →
  returns (inline_call actions) P.
Proof.
  intros Hcap Hrun Hcol HP.
  assert (∀ c, reachable (inline_call actions) c → c ≠ Panic) as Hsafe.
  { unfold reachable. apply rtc_ind_r; [done|].
    intros c c' Hr (s & e & -> & He) _ ->.
    destruct (reachable_iinv _ _ Hr) as [?|(s0 & seen & [= <-] & Hinv)]; [done|].
    destruct (iexec_panic _ _ _ _ Hinv He)
      as [HW [(i & x & Hx & Hnone)|(i & x & y & a & Hx & Hy & Hall & Hp)]].
    - by eapply Hrun.
    - by eapply (Hcol HW seen). }
  split.
  - intros c Hr. split; [by apply Hsafe|].
    destruct (reachable_iinv _ _ Hr) as [->|(s & seen & -> & Hinv)].
    { by destruct (Hsafe _ Hr). }
    split.
    + intros r Hres. simpl in Hres. destruct s as [n p [| |r']]; simplify_eq/=.
      by eapply (HP seen).
    + intros Hres. destruct (iprogress _ _ _ Hcap Hinv Hres) as (e & o & He).
      exists o, s, e. done.
  - exists bmeasure. intros c c' Hr (s & e & -> & He).
    destruct (reachable_iinv _ _ Hr) as [?|(s0 & seen & [= <-] & Hinv)]; [done|].
    by eapply imeasure_step.
Qed.

(** Without workers the call returns what the collector makes of
    nothing. *)
Lemma inline_idle_returns actions :
  Z.to_nat workers = 0 → actions ≠ [] →
  returns (inline_call actions) (λ r, r = finish (acc0 (length items))).
Proof.
  intros HW Hne. apply inline_returns; [done|intros [?|?]; [lia|done]..|].
  intros seen s r Hinv Hm.
  destruct (ii_idle _ _ _ _ _ _ _ _ _ _ _ _ Hinv HW Hne) as [-> _].
  pose proof (ii_main _ _ _ _ _ _ _ _ _ _ _ _ Hinv) as Hmain.
  rewrite Hm in Hmain. simpl in Hmain.
  destruct Hmain as (_ & [?|(a & [= <-] & -> & _)]); done.
Qed.

#[local] Abbreviation irun := (irun work workers stamp acc0 collect finish items capk).

Lemma irun_rtc actions es c c' :
  irun es c = Some c' → rtc (step (inline_call actions)) c c'.
Proof.
  revert c. induction es as [|e es IH]; intros c; simpl.
  - intros [= <-]. done.
  - destruct c as [s|]; [|done]. destruct (iexec e s) as [c1|] eqn:He; [|done].
    simpl. intros Hrun. eapply rtc_l; [|by apply IH]. by exists s, e.
Qed.

(** Every item the feeder has sent is in flight or has been seen. *)
Lemma iinv_count actions seen s :
  iinv actions seen s → length (flight (pipe s)) + length seen = fpos s.
Proof.
  intros Hinv.
  pose proof (ii_flow _ _ _ _ _ _ _ _ _ _ _ _ Hinv) as Hflow.
  pose proof (ii_fpos _ _ _ _ _ _ _ _ _ _ _ _ Hinv) as Hf.
  apply Permutation_length in Hflow.
  rewrite length_fmap, length_take, length_app, length_fmap in Hflow.
  unfold residual in Hflow. rewrite length_fmap in Hflow.
  unfold stamped in Hflow. rewrite length_imap in Hflow. lia.
Qed.

(** The first channel has room for the item the feeder is about to
    send when it was made with room for every item. *)
Lemma iinv_feed_room actions seen s x :
  length items ≤ cap0 →
  iinv actions seen s → items !! fpos s = Some x →
  ∃ c, chans (pipe s) !! 0 = Some c ∧ closed c = false ∧ chan_room c = true.
Proof.
  intros Hcap Hinv Hx.
  pose proof (iinv_count _ _ _ Hinv) as Hcount.
  pose proof Hinv as [Hp Ha Hf Hcl0 Hflow Hidle [Hcap0 _] Hmain].
  apply lookup_lt_Some in Hx.
  destruct (lookup_lt_is_Some_2 (chans (pipe s)) 0) as [c Hc].
  { rewrite (pinv_len _ _ Hp). lia. }
  exists c. split; [done|]. split.
  { destruct (closed c) eqn:Hcl; [|done]. specialize (Hcl0 _ Hc Hcl). lia. }
  destruct (flight_set_chan _ _ _ Hc) as (Q & HQ & _).
  apply Permutation_length in HQ. rewrite length_app, length_fmap in HQ.
  unfold chan_room. apply bool_decide_eq_true. rewrite (Hcap0 _ Hc). lia.
Qed.

(** The output channel of a pool has room for the item a worker of the
    pool is about to send when it was made with room for every item. *)
Lemma iinv_send_room actions seen s k j y :
  length items ≤ capk →
  iinv actions seen s → worker_at k j (pipe s) = Some (WSend y) →
  ∃ c, chans (pipe s) !! S k = Some c ∧ closed c = false ∧ chan_room c = true.
Proof.
  intros Hcap Hinv Hw.
  pose proof (iinv_count _ _ _ Hinv) as Hcount.
  pose proof Hinv as [Hp Ha Hf Hcl0 Hflow Hidle [_ Hcapk] Hmain].
  apply worker_at_Some in Hw as (pl & Hpl & Hw).
  destruct (lookup_lt_is_Some_2 (chans (pipe s)) (S k)) as [c Hc].
  { rewrite (pinv_len _ _ Hp). apply lookup_lt_Some in Hpl. lia. }
  exists c. split; [done|]. split.
  { destruct (closed c) eqn:Hcl; [|done].
    pose proof (pinv_closed _ _ Hp _ _ _ Hpl Hc Hcl) as Hall.
    rewrite all_done_Forall in Hall. by specialize (Hall _ _ Hw). }
  pose proof (flight_give _ _ _ _ _ Hpl Hw) as Hg.
  apply Permutation_length in Hg. simpl in Hg.
  destruct (flight_set_chan (set_worker k j WRecv (pipe s)) (S k) c) as (Q & HQ & _);
    [done|].
  apply Permutation_length in HQ. rewrite length_app, length_fmap in HQ.
  unfold chan_room. apply bool_decide_eq_true. rewrite (Hcapk _ _ Hc). lia.
Qed.
End InlineFacts.

(** ** A collecting loop that stops at the first error *)

Section ErrorCollecting.
Context `{GoValues} {Action : Type}.
Variable work : Action → IndexedItemWithError → option IndexedItemWithError.
Variable collect :
  IndexedItemWithError → list value → coutcome (list value) result_with_error.
Variable out : value → value * option goerror.
Variable Output : gotype.
Variable W : Z.
Variable items : list value.
Variable cap0 capk : nat.
Variable actions : list Action.
Hypothesis collect_next :
  ∀ e a a', collect e a = CNext a' → a' = <[IndexWE e := ItemWE e]> a.
Hypothesis collect_next_err :
  ∀ e a a', collect e a = CNext a' → ErrWE e = None.
Hypothesis collect_return :
  ∀ e a r, collect e a = CReturn r → ∃ err, ErrWE e = Some err ∧ r = (None, Some err).
Hypothesis collect_safe :
  ∀ i x a, items !! i = Some x → i < length a →
           collect (mkIndexedItemWithError i (out x).1 (out x).2) a ≠ CPanic.
Hypothesis run_out :
  ∀ i x, items !! i = Some x →
         run work actions (mkIndexedItemWithError i x None)
         = Some (mkIndexedItemWithError i (out x).1 (out x).2).
Hypothesis room : actions = [] → length items ≤ cap0.
Hypothesis live : 0 < Z.to_nat W ∨ actions = [].

(** Either the error that the pipeline left on some item, with a nil
    slice, or, when it left no error on any item, the slice of the
    values with a nil error. *)
Lemma error_collecting_returns :
  returns (inline_call work W (λ i item, mkIndexedItemWithError i item None)
             (λ n, replicate n (zero Output)) collect
             (λ results, (Some results, None)) items cap0 capk actions)
    (λ r, (∃ i x err, items !! i = Some x ∧ (out x).2 = Some err ∧
                      r = (None, Some err)) ∨
          ((∀ i x, items !! i = Some x → (out x).2 = None) ∧
           r = (Some ((λ x, (out x).1) <$> items), None))).
Proof.
  apply inline_returns; [done|..].
  - intros _ i x Hx. by rewrite run_out.
  - intros _ seen s i x y a Hinv Hx Hy Hcol.
    rewrite run_out in Hy by done. simplify_eq.
    destruct (collect_all_store IndexWE ItemWE _ collect_next _ _ _ Hcol)
      as [Hlen _]. rewrite length_replicate in Hlen.
    apply collect_safe; [done|]. rewrite Hlen. by eapply lookup_lt_Some.
  - intros seen s r Hinv Hm.
    pose proof (ii_main _ _ _ _ _ _ _ _ _ _ _ _ Hinv) as Hmain.
    rewrite Hm in Hmain. destruct Hmain as (_ & [Hret|(a & Hcol & -> & Hperm)]).
    { left. apply collect_all_return in Hret as (e & a1 & He & Hr).
      apply collect_return in Hr as (err & Herr & ->).
      destruct (iseen_elem _ _ _ _ _ _ _ _ _ _ _ _ _ Hinv He) as (i & x & Hx & Hrun).
      rewrite run_out in Hrun by done. simplify_eq.
      exists i, x, err. eauto. }
    right. specialize (Hperm live).
    assert (∀ i x, items !! i = Some x →
      mkIndexedItemWithError i (out x).1 (out x).2 ∈ seen) as Hall.
    { intros i x Hx. apply (list_elem_of_fmap_inj Some).
      rewrite <-Hperm. rewrite <-(run_out i x) by done.
      apply list_elem_of_fmap_2, list_elem_of_lookup. exists i.
      by apply (stamped_lookup (λ i item, mkIndexedItemWithError i item None)). }
    split.
    + intros i x Hx.
      destruct (collect_all_seen_next _ _ _ _ _ Hcol (Hall i x Hx)) as (a1 & a2 & Hc).
      by apply collect_next_err in Hc.
    + simpl. f_equal. f_equal.
      destruct (collect_all_store IndexWE ItemWE _ collect_next _ _ _ Hcol)
        as [Hlen Hlook].
      rewrite length_replicate in Hlen, Hlook.
      apply list_eq. intros i. rewrite list_lookup_fmap.
      destruct (items !! i) as [x|] eqn:Hx; simpl.
      * apply Hlook.
        -- by eapply lookup_lt_Some.
        -- eexists. split; [by apply Hall|done].
        -- intros e He Hi.
           destruct (iseen_elem _ _ _ _ _ _ _ _ _ _ _ _ _ Hinv He)
             as (i' & x' & Hx' & Hrun).
           rewrite run_out in Hrun by done.
           simplify_eq. simpl in *. by simplify_eq.
      * apply lookup_ge_None. apply lookup_ge_None in Hx. lia.
Qed.
End ErrorCollecting.

(** ** [concurrent_transformer.go] *)

Section ConcurrentV2Facts.
Context `{GoValues}.
Variable Input Output : gotype.
Implicit Types (items : list value) (t : transformer).

Lemma V2_worker_ok (f : TransformAction) e :
  typeof (ItemWE e) = Input →
  ConcurrentV2.worker Input f e
  = Some (mkIndexedItemWithError (IndexWE e) (f (ItemWE e)) None).
Proof. intros He. unfold ConcurrentV2.worker. by rewrite (assert_Some _ _ He). Qed.

Lemma V2_run_worker (actions : list TransformAction) i x e0 :
  Forall (action_typed Input Output) actions → typeof x = Input →
  length actions ≤ 1 ∨ Output = Input →
  run (ConcurrentV2.worker Input) actions (mkIndexedItemWithError i x e0)
  = Some (mkIndexedItemWithError i (apply_all actions x)
            (if actions is [] then e0 else None)).
Proof.
  intros Hty Hx Hadj. revert x e0 Hx.
  induction Hty as [|f actions Hf Hty IH]; intros x e0 Hx; simpl; [done|].
  rewrite V2_worker_ok by done. simpl.
  destruct actions as [|g actions]; [done|].
  destruct Hadj as [?|Heq]; [simpl in *; lia|].
  rewrite IH; [done|by right|]. rewrite <-Heq. by apply Hf.
Qed.

Lemma V2_Transform_collect_next e a a' :
  ConcurrentV2.Transform_collect Output e a = CNext a' →
  a' = <[IndexWE e := ItemWE e]> a.
Proof.
  unfold ConcurrentV2.Transform_collect.
  destruct (assert Output (ItemWE e)) as [v|] eqn:Hv; [|done].
  apply assert_Some_inv in Hv as [-> _]. case_decide; [|done]. by intros [= <-].
Qed.

Lemma V2_Transform_collect_ok e a :
  typeof (ItemWE e) = Output → IndexWE e < length a →
  ConcurrentV2.Transform_collect Output e a = CNext (<[IndexWE e := ItemWE e]> a).
Proof.
  intros Ht Hi. unfold ConcurrentV2.Transform_collect. rewrite (assert_Some _ _ Ht).
  by rewrite decide_True.
Qed.

Lemma V2_Transform_collect_no_return e a r :
  ConcurrentV2.Transform_collect Output e a ≠ CReturn r.
Proof.
  unfold ConcurrentV2.Transform_collect. destruct (assert Output (ItemWE e)); [|done].
  by case_decide.
Qed.

(** What the chain of actions makes of a value has the type the
    collector asserts; without actions it is the value itself. *)
Lemma V2_apply_all_typed (actions : list TransformAction) x :
  Forall (action_typed Input Output) actions → typeof x = Input →
  length actions ≤ 1 ∨ Output = Input →
  (actions = [] → Output = Input) →
  typeof (apply_all actions x) = Output.
Proof.
  intros Hty Hx Hadj Hnil. destruct actions as [|f actions].
  - simpl. by rewrite Hnil.
  - by apply (apply_all_typed Input Output).
Qed.

Lemma V2_Transform_returns t items (actions : list TransformAction) :
  (1 ≤ workers t)%Z ∨ actions = [] →
  Forall (λ x, typeof x = Input) items →
  Forall (action_typed Input Output) actions →
  length actions ≤ 1 ∨ Output = Input →
  (actions = [] → Output = Input) →
  returns (ConcurrentV2.Transform Input Output t items actions)
    (λ r, r = apply_all actions <$> items).
Proof.
  intros HW Hitems Hty Hadj Hnil.
  assert (∀ i x, items !! i = Some x → typeof x = Input) as Hin.
  { intros i x Hx. exact (Forall_lookup_1 _ _ _ _ Hitems Hx). }
  assert (∀ i x, items !! i = Some x →
    run (ConcurrentV2.worker Input) actions (mkIndexedItemWithError i x None)
    = Some (mkIndexedItemWithError i (apply_all actions x) None)) as Hrun.
  { intros i x Hx. rewrite V2_run_worker by eauto. by destruct actions. }
  apply inline_returns; [done|..].
  - intros _ i x Hx. by rewrite Hrun.
  - intros _ seen s i x y a Hinv Hx Hy Hcol.
    rewrite Hrun in Hy by done. simplify_eq.
    destruct (collect_all_store IndexWE ItemWE _ V2_Transform_collect_next _ _ _ Hcol)
      as [Hlen _]. rewrite length_replicate in Hlen.
    rewrite V2_Transform_collect_ok; [done|simpl..].
    + apply V2_apply_all_typed; eauto.
    + rewrite Hlen. by eapply lookup_lt_Some.
  - intros seen s r Hinv Hm.
    pose proof (ii_main _ _ _ _ _ _ _ _ _ _ _ _ Hinv) as Hmain.
    rewrite Hm in Hmain. destruct Hmain as (_ & [Hret|(a & Hcol & -> & Hperm)]).
    { apply collect_all_return in Hret as (e & a1 & _ & He).
      by apply V2_Transform_collect_no_return in He. }
    assert (0 < Z.to_nat (workers t) ∨ actions = []) as Hlive.
    { destruct HW; [left; lia|by right]. }
    specialize (Hperm Hlive). simpl.
    destruct (collect_all_store IndexWE ItemWE _ V2_Transform_collect_next _ _ _ Hcol)
      as [Hlen Hlook].
    rewrite length_replicate in Hlen, Hlook.
    apply list_eq. intros i. rewrite list_lookup_fmap.
    destruct (items !! i) as [x|] eqn:Hx; simpl.
    + apply Hlook.
      * by eapply lookup_lt_Some.
      * exists (mkIndexedItemWithError i (apply_all actions x) None). split; [|done].
        apply (list_elem_of_fmap_inj Some).
        rewrite <-Hperm. rewrite <-(Hrun i x) by done.
        apply list_elem_of_fmap_2, list_elem_of_lookup. exists i.
        by apply (stamped_lookup (λ i item, mkIndexedItemWithError i item None)).
      * intros e He Hi.
        destruct (iseen_elem _ _ _ _ _ _ _ _ _ _ _ _ _ Hinv He)
          as (i' & x' & Hx' & Hrun').
        rewrite Hrun in Hrun' by done. simplify_eq. simpl in *. by simplify_eq.
    + apply lookup_ge_None. apply lookup_ge_None in Hx. lia.
Qed.

Lemma V2_TransformWithError_returns t items
    (actions : list TransformActionWithError) :
  (1 ≤ workers t)%Z ∨ actions = [] →
  Forall (λ x, typeof x = Input) items →
  Forall (action_typed_err Input Output) actions →
  length actions ≤ 1 ∨ Output = Input →
  (actions = [] → Output = Input) →
  returns (ConcurrentV2.TransformWithError Input Output t items actions)
    (λ r, (∃ i x err, items !! i = Some x ∧ (final actions x).2 = Some err ∧
                      r = (None, Some err)) ∨
          ((∀ i x, items !! i = Some x → (final actions x).2 = None) ∧
           r = (Some ((λ x, (final actions x).1) <$> items), None))).
Proof.
  intros HW Hitems Hty Hadj Hnil.
  assert (∀ i x, items !! i = Some x → typeof x = Input) as Hin.
  { intros i x Hx. exact (Forall_lookup_1 _ _ _ _ Hitems Hx). }
  apply (error_collecting_returns (ConcurrentV2.workerWithError Input)
           (TransformWithError_collect Output) (final actions)).
  - apply TransformWithError_collect_next.
  - apply TransformWithError_collect_next_err.
  - apply TransformWithError_collect_return.
  - intros i x a Hx Hi. apply TransformWithError_collect_no_panic; simpl; [|done].
    destruct actions as [|f actions'].
    + simpl. rewrite Hnil by done. eauto.
    + apply (apply_all_err_typed Input Output); eauto.
  - intros i x Hx.
    apply (run_TransformWithError Input Output); eauto.
  - done.
  - destruct HW; [left; lia|by right].
Qed.

End ConcurrentV2Facts.

(** ** The first revision *)

Section ConcurrentV1Facts.
Context `{GoValues}.
Implicit Types (items : list value) (transformer : ConcurrentV1.Transformer).

Lemma V1_Transform_collect_next e a a' :
  ConcurrentV1.Transform_collect e a = CNext a' →
  a' = <[IndexWE e := ItemWE e]> a ∧ ErrWE e = None.
Proof.
  unfold ConcurrentV1.Transform_collect. destruct (ErrWE e); [done|].
  case_decide; [|done]. by intros [= <-].
Qed.

Lemma V1_Transform_collect_return e a r :
  ConcurrentV1.Transform_collect e a = CReturn r →
  ∃ err, ErrWE e = Some err ∧ r = (None, Some err).
Proof.
  unfold ConcurrentV1.Transform_collect. destruct (ErrWE e) as [err|].
  - intros [= <-]. eauto.
  - by case_decide.
Qed.

Lemma V1_Transform_collect_no_panic e a :
  IndexWE e < length a → ConcurrentV1.Transform_collect e a ≠ CPanic.
Proof.
  intros Hi. unfold ConcurrentV1.Transform_collect. destruct (ErrWE e); [done|].
  by rewrite decide_True.
Qed.

End ConcurrentV1Facts.

(** ** What the earlier revisions return *)

Section EarlierRevisions.
Context `{GoValues}.
Variable Input Output : gotype.
Implicit Types (items : list value) (t : transformer).

(** [Transform] of [concurrent_transformer.go].  With at least
    one worker, inputs of type [Input], actions from [Input] to
    [Output] and, for two actions or more (or none), [Output] equal to
    [Input], every run of [Transform] returns the slice whose position
    [i] holds the actions applied in order to [items[i]]. *)
Theorem ConcurrentV2_Transform_positional t items (actions : list TransformAction) :
  (1 ≤ workers t)%Z →
  Forall (λ x, typeof x = Input) items →
  Forall (action_typed Input Output) actions →
  length actions = 1 ∨ Output = Input →
  returns (ConcurrentV2.Transform Input Output t items actions)
    (λ r, r = apply_all actions <$> items).
Proof.
  intros HW Hitems Hty Hadj. apply V2_Transform_returns; [by left|done..| |].
  - destruct Hadj; [left; lia|by right].
  - intros ->. by destruct Hadj.
Qed.

(** [Transform] of [concurrent_transformer.go].  Called without
    actions, [Transform] returns the items unchanged in every run,
    whatever the number of workers: the collector ranges over
    [channels[0]], which the feeder fills and closes. *)
Theorem ConcurrentV2_Transform_no_actions t items :
  Forall (λ x, typeof x = Input) items →
  returns (ConcurrentV2.Transform Input Input t items []) (λ r, r = items).
Proof.
  intros Hitems.
  eapply returns_impl; [|apply V2_Transform_returns; [by right|done|done|by right|done]].
  intros r ->. simpl. apply list_fmap_id.
Qed.

(** [Transform] of [concurrent_transformer.go].  With no worker
    ([workers <= 0]) and at least one action, every run returns
    [len(items)] zero values of [Output]: no pool moves an item, every
    output channel is closed at once, and the collector finds the last
    one empty. *)
Theorem ConcurrentV2_Transform_without_workers t items
    (actions : list TransformAction) :
  (workers t ≤ 0)%Z → actions ≠ [] →
  returns (ConcurrentV2.Transform Input Output t items actions)
    (λ r, r = replicate (length items) (zero Output)).
Proof.
  intros HW Hne.
  apply (inline_idle_returns (ConcurrentV2.worker Input) (workers t) _
           (λ n, replicate n (zero Output)) (ConcurrentV2.Transform_collect Output) id);
    [lia|done].
Qed.

(** [TransformWithError] of [concurrent_transformer.go].  With at
    least one worker and well-typed stages, every run returns either a
    nil slice with the error that the last stage left on some item, or,
    when the last stage left no error on any item, the slice of the
    final values with a nil error. *)
Theorem ConcurrentV2_TransformWithError_result t items
    (actions : list TransformActionWithError) :
  (1 ≤ workers t)%Z →
  Forall (λ x, typeof x = Input) items →
  Forall (action_typed_err Input Output) actions →
  length actions = 1 ∨ Output = Input →
  returns (ConcurrentV2.TransformWithError Input Output t items actions)
    (λ r, (∃ i x err, items !! i = Some x ∧ (final actions x).2 = Some err ∧
                      r = (None, Some err)) ∨
          ((∀ i x, items !! i = Some x → (final actions x).2 = None) ∧
           r = (Some ((λ x, (final actions x).1) <$> items), None))).
Proof.
  intros HW Hitems Hty Hadj.
  apply V2_TransformWithError_returns; [by left|done..| |].
  - destruct Hadj; [left; lia|by right].
  - intros ->. by destruct Hadj.
Qed.

(** [Transform] and [worker] of [concurrent_transformer.go].
    Every channel is made with room for [len(items)] items, so at every
    point of every run the channel the feeder is about to send on, and
    the channel a worker holding a result is about to send on, is open
    and not full: no send ever waits. *)
Theorem ConcurrentV2_Transform_sends_find_room t items
    (actions : list TransformAction) s :
  reachable (ConcurrentV2.Transform Input Output t items actions) (Next s) →
  (∀ x, items !! fpos s = Some x →
        ∃ c, chans (pipe s) !! 0 = Some c ∧ closed c = false ∧
             length (buf c) < cap c) ∧
  (∀ k j y, worker_at k j (pipe s) = Some (WSend y) →
            ∃ c, chans (pipe s) !! S k = Some c ∧ closed c = false ∧
                 length (buf c) < cap c).
Proof.
  intros Hr.
  destruct (reachable_iinv _ _ _ _ _ _ _ _ _ _ _ Hr)
    as [?|(s0 & seen & [= <-] & Hinv)]; [done|].
  split.
  - intros x Hx.
    destruct (iinv_feed_room _ _ _ _ _ _ _ _ _ _ _ _ _ (le_n _) Hinv Hx)
      as (c & ? & ? & Hroom).
    apply bool_decide_eq_true in Hroom. eauto.
  - intros k j y Hw.
    destruct (iinv_send_room _ _ _ _ _ _ _ _ _ _ _ _ _ _ _ (le_n _) Hinv Hw)
      as (c & ? & ? & Hroom).
    apply bool_decide_eq_true in Hroom. eauto.
Qed.

(** [Transform] of the first revision.  With at least one
    worker, every run returns either a nil slice with the error the
    transformer gives for some item, or, when the transformer fails on
    no item, the transformer's outputs in input order with a nil
    error. *)
Theorem ConcurrentV1_Transform_result items
    (transformer : ConcurrentV1.Transformer) W :
  (1 ≤ W)%Z →
  returns (ConcurrentV1.Transform Output items transformer W)
    (λ r, (∃ i x err, items !! i = Some x ∧ (transformer x).2 = Some err ∧
                      r = (None, Some err)) ∨
          ((∀ i x, items !! i = Some x → (transformer x).2 = None) ∧
           r = (Some ((λ x, (transformer x).1) <$> items), None))).
Proof.
  intros HW.
  apply (error_collecting_returns ConcurrentV1.worker
           ConcurrentV1.Transform_collect transformer).
  - intros e a a' He. by apply V1_Transform_collect_next in He as [? _].
  - intros e a a' He. by apply V1_Transform_collect_next in He as [_ ?].
  - apply V1_Transform_collect_return.
  - intros i x a Hx Hi. by apply V1_Transform_collect_no_panic.
  - done.
  - done.
  - left. lia.
Qed.

(** [Transform] of the first revision.  With [workers <= 0] the
    transformer is never called: every run returns [len(items)] zero
    values of [Output] and a nil error, also when the transformer would
    fail on every item. *)
Theorem ConcurrentV1_Transform_without_workers items
    (transformer : ConcurrentV1.Transformer) W :
  (W ≤ 0)%Z →
  returns (ConcurrentV1.Transform Output items transformer W)
    (λ r, r = (Some (replicate (length items) (zero Output)), None)).
Proof.
  intros HW.
  apply (inline_idle_returns ConcurrentV1.worker W _
           (λ n, replicate n (zero Output)) ConcurrentV1.Transform_collect
           (λ results, (Some results, None)));
    [lia|done].
Qed.
End EarlierRevisions.

Lemma ConcurrentV2_Transform_positional_witness :
  returns (@ConcurrentV2.Transform test_values TStr TStr (NewTransformer 3)
             [VStr "a"; VStr "b"; VStr "c"] [ToUpper; ToLower; ToUpper])
    (λ r, r = [VStr "A"; VStr "B"; VStr "C"]).
Proof.
  apply (@ConcurrentV2_Transform_positional test_values TStr TStr (NewTransformer 3)
           [VStr "a"; VStr "b"; VStr "c"] [ToUpper; ToLower; ToUpper]).
  - simpl. lia.
  - repeat constructor.
  - repeat constructor; intros [s|n] Hv; (reflexivity || discriminate Hv).
  - right. reflexivity.
Defined.

Lemma ConcurrentV2_Transform_no_actions_witness :
  returns (@ConcurrentV2.Transform test_values TStr TStr (NewTransformer 0)
             [VStr "a"; VStr "b"; VStr "c"] [])
    (λ r, r = [VStr "a"; VStr "b"; VStr "c"]).
Proof.
  apply (@ConcurrentV2_Transform_no_actions test_values TStr (NewTransformer 0)
           [VStr "a"; VStr "b"; VStr "c"]).
  repeat constructor.
Defined.

Lemma ConcurrentV2_Transform_without_workers_witness :
  returns (@ConcurrentV2.Transform test_values TStr TStr (NewTransformer 0)
             [VStr "a"; VStr "b"; VStr "c"] [ToUpper])
    (λ r, r = [VStr ""; VStr ""; VStr ""]).
Proof.
  apply (@ConcurrentV2_Transform_without_workers test_values TStr TStr
           (NewTransformer 0) [VStr "a"; VStr "b"; VStr "c"] [ToUpper]).
  - simpl. lia.
  - discriminate.
Defined.

Lemma ConcurrentV2_TransformWithError_result_witness :
  returns (@ConcurrentV2.TransformWithError test_values TStr TStr (NewTransformer 3)
             [VStr "a"; VStr "b"; VStr "c"] [upperCase])
    (λ r, r = (Some [VStr "A"; VStr "B"; VStr "C"], None)).
Proof.
  eapply returns_impl;
    [|apply (@ConcurrentV2_TransformWithError_result test_values TStr TStr
               (NewTransformer 3) [VStr "a"; VStr "b"; VStr "c"] [upperCase])].
  - intros r [(i & x & err & _ & Herr & _)|[_ ->]]; [discriminate Herr|reflexivity].
  - simpl. lia.
  - repeat constructor.
  - repeat constructor; intros [s|n] Hv; (reflexivity || discriminate Hv).
  - left. reflexivity.
Defined.

#[local] Abbreviation one_result_held :=
  (BState 1
     (Pipeline [Chan [] 2 false; Chan [] 2 false]
        [Pool ToUpper [WSend (@mkIndexedItemWithError test_values 0 (VStr "A") None)]]
        [])
     MProcess
   : bstate (@IndexedItemWithError test_values) (@TransformAction test_values)
            (list gval) (list gval)).

Lemma ConcurrentV2_Transform_sends_find_room_witness :
  reachable (@ConcurrentV2.Transform test_values TStr TStr (NewTransformer 1)
               [VStr "a"; VStr "b"] [ToUpper]) (Next one_result_held) ∧
  (∃ c, chans (pipe one_result_held) !! 0 = Some c ∧ closed c = false ∧
        length (buf c) < cap c) ∧
  (∃ c, chans (pipe one_result_held) !! 1 = Some c ∧ closed c = false ∧
        length (buf c) < cap c).
Proof.
  assert (reachable (@ConcurrentV2.Transform test_values TStr TStr (NewTransformer 1)
                       [VStr "a"; VStr "b"] [ToUpper]) (Next one_result_held))
    as Hr.
  { apply (irun_rtc _ _ _ _ _ _ _ _ _ _ [BCreate; BFeed; BPipe (PRecv 0 0)]).
    reflexivity. }
  split; [exact Hr|].
  destruct (@ConcurrentV2_Transform_sends_find_room test_values TStr TStr
              (NewTransformer 1) [VStr "a"; VStr "b"] [ToUpper] one_result_held Hr)
    as [Hfeed Hsend].
  split.
  - apply (Hfeed (VStr "b")). reflexivity.
  - apply (Hsend 0 0 (@mkIndexedItemWithError test_values 0 (VStr "A") None)).
    reflexivity.
Defined.

Lemma ConcurrentV1_Transform_result_witness :
  returns (@ConcurrentV1.Transform test_values TStr
             [VStr "a"; VStr "b"; VStr "c"] errorFunc 3)
    (λ r, r = (None, Some "error"%string)).
Proof.
  eapply returns_impl;
    [|apply (@ConcurrentV1_Transform_result test_values TStr
               [VStr "a"; VStr "b"; VStr "c"] errorFunc 3)].
  - intros r [(i & x & err & _ & Herr & ->)|[Hnone _]].
    + injection Herr as <-. reflexivity.
    + discriminate (Hnone 0 (VStr "a") eq_refl).
  - lia.
Defined.

Lemma ConcurrentV1_Transform_without_workers_witness :
  returns (@ConcurrentV1.Transform test_values TStr
             [VStr "a"; VStr "b"; VStr "c"] errorFunc 0)
    (λ r, r = (Some [VStr ""; VStr ""; VStr ""], None)).
Proof.
  apply (@ConcurrentV1_Transform_without_workers test_values TStr
           [VStr "a"; VStr "b"; VStr "c"] errorFunc 0).
  lia.
Defined.

(** ** What [TransformWithError] returns *)

Section TransformWithErrorResult.
Context `{GoValues}.
Variable Input Output : gotype.

(** [TransformWithError].  With at least one worker and at least
    one well-typed action, every run returns either a nil slice with
    the error that the last action gave for some item, or, when the last
    action gave no error for any item, the slice of the final values in
    input order with a nil error.  What the last action is given is
    what the actions before it returned, whether they failed or not. *)
Theorem TransformWithError_result W (items : list value)
    (actions : list TransformActionWithError) :
  (1 ≤ W)%Z → actions ≠ [] →
  Forall (λ x, typeof x = Input) items →
  Forall (action_typed_err Input Output) actions →
  length actions = 1 ∨ Output = Input →
  returns (TransformWithError Input Output (NewTransformer W) items actions)
    (λ r, (∃ i x err, items !! i = Some x ∧ (final actions x).2 = Some err ∧
                      r = (None, Some err)) ∨
          ((∀ i x, items !! i = Some x → (final actions x).2 = None) ∧
           r = (Some ((λ x, (final actions x).1) <$> items), None))).
Proof.
  intros HW Hne Hitems Hty Hadj. apply TransformWithError_returns; [done..|].
  destruct Hadj; [left; lia|by right].
Qed.
End TransformWithErrorResult.

Lemma TransformWithError_result_witness :
  returns (@TransformWithError test_values TStr TStr (NewTransformer 3)
             [VStr "a"; VStr "b"; VStr "c"] [errorFunc])
    (λ r, r = (None, Some "error"%string)).
Proof.
  eapply returns_impl;
    [|apply (@TransformWithError_result test_values TStr TStr 3
               [VStr "a"; VStr "b"; VStr "c"] [errorFunc])].
  - intros r [(i & x & err & _ & Herr & ->)|[Hnone _]].
    + injection Herr as <-. reflexivity.
    + discriminate (Hnone 0 (VStr "a") eq_refl).
  - lia.
  - discriminate.
  - repeat constructor.
  - repeat constructor; intros [s|n] Hv; (reflexivity || discriminate Hv).
  - left. reflexivity.
Defined.
